(** * Merge sort of the product catalogue (scripts/ui-admin.js, merge-sort part)

    The development has four layers.

    - [Js]: the JavaScript values the sorter touches, the object store with
      its references, and a small state-and-error monad with fuel for the
      [while] loops and the recursion.
    - [Source]: the functions [merge], [mergeSort], [sortByPrice] and
      [sortByName], written statement by statement over the store.
    - [Fun]: a functional reading of the same functions on lists, to which
      the store-level functions are shown equal (run lemmas).
    - [Sorter]: the top-down merge sort of the specification, written from
      its four steps, used as the reference of the refinement.

    The built-ins [parseFloat] and [String.prototype.localeCompare] are
    parameters of the development; [ExampleHost] gives one instance of them
    on which the functions are evaluated on concrete catalogues.

    [Backend] adds the product store the sorter is fed from
    (scripts/backend.js, scripts/products.js): [getProducts], [saveProducts],
    [addProduct], [deleteProduct], [updateProduct], [getProductById],
    [clearAllProducts] and [getProductCount] over the same object store and
    a [localStorage]; its built-ins are the fields of [Backend.Host], of
    which [ExampleBrowser] gives one instance. *)

From Stdlib Require Import ZArith QArith String Ascii Sorted Permutation Lia Bool.
From stdpp Require Import base list sorting strings gmap.
Import ListNotations.
Local Open Scope string_scope.
Local Open Scope nat_scope.
Local Open Scope list_scope.

(** ** JavaScript values *)

Module Js.

(** A Number: NaN, the two infinities, or a finite value.  A finite double is
    a rational; [+0] and [-0], which no comparison of the sorter tells apart,
    are both [Fin 0]. *)
Inductive number : Type :=
  | NaN
  | NegInf
  | Fin (q : Q)
  | PosInf.

(** [x <= y] on Numbers: false as soon as one side is NaN. *)
Definition num_leb (x y : number) : bool :=
  match x, y with
  | NaN, _ => false
  | _, NaN => false
  | NegInf, _ => true
  | _, PosInf => true
  | Fin a, Fin b => Qle_bool a b
  | Fin _, NegInf => false
  | PosInf, _ => false
  end.

Definition isNaN (x : number) : bool :=
  match x with NaN => true | _ => false end.

(** Primitive values.  The fields of a product hold primitives: they come
    from the product form, from the literals of scripts/products.js or from
    the JSON of the store. *)
Inductive prim : Type :=
  | PUndefined
  | PNull
  | PBool (b : bool)
  | PNum (x : number)
  | PStr (s : string).

(** A reference is a position in the store. *)
Abbreviation loc := nat (only parsing).

(** A value is a primitive or a reference into the store. *)
Inductive JsVal : Type :=
  | Prim (p : prim)
  | Ref (l : loc).

(** class Product { constructor(id, name, price, image) } of
    scripts/products.js: four own properties, assigned by the constructor. *)
Record Product : Type := new_Product {
  prod_id : prim;
  prod_name : prim;
  prod_price : prim;
  prod_image : prim
}.

(** [p[sortBy]] on a product: one of its four own properties, [undefined]
    for any other property name (the members of the prototype, [toJSON] and
    [constructor], are no keys of the sorter). *)
Definition get_field (p : Product) (prop : string) : prim :=
  if String.eqb prop "id" then prod_id p
  else if String.eqb prop "name" then prod_name p
  else if String.eqb prop "price" then prod_price p
  else if String.eqb prop "image" then prod_image p
  else PUndefined.

(** The store: a cell is a product object or an array of values.  A
    reference is the position of its cell; allocation appends a cell. *)
Inductive cell : Type :=
  | CObj (p : Product)
  | CArr (elems : list JsVal).

Abbreviation heap := (list cell) (only parsing).

(** [TypeError] is the JavaScript exception.  [OutOfFuel] and [BadRef] are
    artefacts of the embedding: a loop cut short by the fuel, and a reference
    that is no cell (or no array where the code indexes one), which a
    JavaScript run never holds. *)
Inductive error : Type := TypeError | OutOfFuel | BadRef.

Inductive res (A : Type) : Type :=
  | Ok (a : A)
  | Err (e : error).
Arguments Ok {A} a.
Arguments Err {A} e.

Definition M (A : Type) : Type := heap -> res (A * heap).

Definition ret {A} (a : A) : M A := fun h => Ok (a, h).
Definition bind {A B} (m : M A) (k : A -> M B) : M B :=
  fun h => match m h with
           | Ok (a, h') => k a h'
           | Err e => Err e
           end.
Definition throw {A} (e : error) : M A := fun _ => Err e.
Definition lift {A} (r : res A) : M A :=
  fun h => match r with Ok a => Ok (a, h) | Err e => Err e end.

Definition res_bind {A B} (r : res A) (k : A -> res B) : res B :=
  match r with Ok a => k a | Err e => Err e end.

Definition res_map {A B} (f : A -> B) (r : res A) : res B :=
  match r with Ok a => Ok (f a) | Err e => Err e end.

(** Two results agree: the same error, or values related by [Q]. *)
Definition res_rel {A B} (Q : A -> B -> Prop) (x : res A) (y : res B) : Prop :=
  match x, y with
  | Ok a, Ok b => Q a b
  | Err e, Err e' => e = e'
  | _, _ => False
  end.

Declare Scope js_scope.
Delimit Scope js_scope with js.
Notation "'let!' x ':=' m 'in' k" := (bind m (fun x => k))
  (at level 10, x name, m at level 100, k at level 200) : js_scope.
Notation "'let!' ( a , b ) ':=' m 'in' k" := (bind m (fun '(a, b) => k))
  (at level 10, a name, b name, m at level 100, k at level 200) : js_scope.
Notation "m ';;' k" := (bind m (fun _ => k))
  (at level 100, k at level 200, right associativity) : js_scope.

Local Open Scope js_scope.

(** new Product(...), the literal [[]], [items.slice(..)]: a fresh cell. *)
Definition alloc (c : cell) : M loc :=
  fun h => Ok (length h, h ++ [c]).

(** The elements of the array at [a]. *)
Definition array_elems (a : loc) : M (list JsVal) :=
  fun h => match h !! a with
           | Some (CArr elems) => Ok (elems, h)
           | _ => Err BadRef
           end.

(** [a.length] *)
Definition array_length (a : loc) : M nat :=
  let! elems := array_elems a in ret (length elems).

(** [a[i]]: [undefined] past the end. *)
Definition array_get (a : loc) (i : nat) : M JsVal :=
  let! elems := array_elems a in ret (default (Prim PUndefined) (elems !! i)).

(** [a.push(v)] *)
Definition array_push (a : loc) (v : JsVal) : M unit :=
  fun h => match h !! a with
           | Some (CArr elems) => Ok (tt, <[a := CArr (elems ++ [v])]> h)
           | _ => Err BadRef
           end.

(** [a.slice(start, stop)] with [0 <= start], [0 <= stop]: a new array. *)
Definition array_slice (a : loc) (start stop : nat) : M loc :=
  let! elems := array_elems a in
  alloc (CArr (take (Nat.min stop (length elems) - start) (drop start elems))).

(** [a.slice(start)] *)
Definition array_slice_from (a : loc) (start : nat) : M loc :=
  let! elems := array_elems a in
  alloc (CArr (drop start elems)).

(** [v[prop]]: a TypeError on [undefined] and [null]; [undefined] on the
    other primitives and on arrays, which have none of the properties read
    here; the field on a product. *)
Definition read_prop (h : heap) (v : JsVal) (prop : string) : res prim :=
  match v with
  | Prim PUndefined | Prim PNull => Err TypeError
  | Prim _ => Ok PUndefined
  | Ref l => match h !! l with
             | Some (CObj p) => Ok (get_field p prop)
             | Some (CArr _) => Ok PUndefined
             | None => Err BadRef
             end
  end.

Definition get_prop (v : JsVal) (prop : string) : M prim :=
  fun h => match read_prop h v prop with
           | Ok p => Ok (p, h)
           | Err e => Err e
           end.

(** [Array.isArray(v)] *)
Definition Array_isArray (v : JsVal) : M bool :=
  fun h => match v with
           | Prim _ => Ok (false, h)
           | Ref l => match h !! l with
                      | Some (CArr _) => Ok (true, h)
                      | Some (CObj _) => Ok (false, h)
                      | None => Err BadRef
                      end
           end.

(** [while (cond) { body }] on a loop state [S], cut by the fuel. *)
Fixpoint while {S : Type} (fuel : nat) (cond : S -> M bool) (body : S -> M S)
    (s : S) : M S :=
  match fuel with
  | O => throw OutOfFuel
  | Datatypes.S fuel' =>
      let! c := cond s in
      if c then (let! s' := body s in while fuel' cond body s')
      else ret s
  end.

End Js.

(** ** The source functions, over the store *)

Module Source.
Import Js.
Local Open Scope js_scope.

Section Host.

(** The two built-ins the sorter calls.  [parseFloat v] is the global
    function on a primitive value.  [localeCompare s v] is
    [s.localeCompare(v)] on a string receiver [s]; the built-in converts its
    argument to a string itself, and its result is a negative, zero or
    positive integer. *)
Variable parseFloat : prim -> number.
Variable localeCompare : string -> prim -> Z.

(** Lines 462-470 of merge: the two values read from the heads are turned
    into [comparison].  On 'price' both sides go through [parseFloat] and
    [comparison] is -1 or 1; otherwise [leftValue.localeCompare(rightValue)]
    is called, a TypeError unless [leftValue] is a string. *)
Definition compare_keys (sortBy : string) (leftProp rightProp : prim) : res Z :=
  if String.eqb sortBy "price" then
    let leftValue := parseFloat leftProp in
    let rightValue := parseFloat rightProp in
    Ok (if num_leb leftValue rightValue then (-1)%Z else 1%Z)
  else
    match leftProp with
    | PStr s => Ok (localeCompare s rightProp)
    | _ => Err TypeError
    end.

(** [leftIndex < left.length && rightIndex < right.length] *)
Definition merge_cond (left right : loc) (s : nat * nat) : M bool :=
  let '(leftIndex, rightIndex) := s in
  let! llen := array_length left in
  if leftIndex <? llen then
    (let! rlen := array_length right in ret (rightIndex <? rlen))
  else ret false.

(** Body of the first loop of merge (lines 462-478). *)
Definition merge_body (left right result : loc) (sortBy : string)
    (s : nat * nat) : M (nat * nat) :=
  let '(leftIndex, rightIndex) := s in
  let! l := array_get left leftIndex in
  let! leftProp := get_prop l sortBy in
  let! r := array_get right rightIndex in
  let! rightProp := get_prop r sortBy in
  let! comparison := lift (compare_keys sortBy leftProp rightProp) in
  if (comparison <=? 0)%Z then
    (array_push result l ;; ret (leftIndex + 1, rightIndex))
  else
    (array_push result r ;; ret (leftIndex, rightIndex + 1)).

(** The two trailing loops of merge (lines 482-491), one per side:
    [while (i < src.length) { result.push(src[i]); i++ }]. *)
Definition rest_cond (src : loc) (i : nat) : M bool :=
  let! len := array_length src in ret (i <? len).

Definition rest_body (src result : loc) (i : nat) : M nat :=
  let! v := array_get src i in
  array_push result v ;; ret (i + 1).

(** function merge(left, right, sortBy) *)
Definition merge (fuel : nat) (left right : loc) (sortBy : string) : M loc :=
  let! result := alloc (CArr []) in
  let! (leftIndex, rightIndex) :=
    while fuel (merge_cond left right) (merge_body left right result sortBy) (0, 0) in
  let! _ := while fuel (rest_cond left) (rest_body left result) leftIndex in
  let! _ := while fuel (rest_cond right) (rest_body right result) rightIndex in
  ret result.

(** function mergeSort(items, sortBy).  The base case returns [items]
    itself, the same array. *)
Fixpoint mergeSort (fuel : nat) (items : loc) (sortBy : string) : M loc :=
  match fuel with
  | O => throw OutOfFuel
  | S fuel' =>
      let! len := array_length items in
      if len <=? 1 then ret items
      else
        let middle := len / 2 in
        let! left := array_slice items 0 middle in
        let! right := array_slice_from items middle in
        let! sortedLeft := mergeSort fuel' left sortBy in
        let! sortedRight := mergeSort fuel' right sortBy in
        merge fuel' sortedLeft sortedRight sortBy
  end.

(** The callback [p => new Product(p.id, p.name, p.price, p.image)]. *)
Definition copy_product (p : JsVal) : M JsVal :=
  let! i := get_prop p "id" in
  let! n := get_prop p "name" in
  let! pr := get_prop p "price" in
  let! im := get_prop p "image" in
  let! o := alloc (CObj (new_Product i n pr im)) in
  ret (Ref o).

(** [a.map(f)]: a new array, filled in index order. *)
Fixpoint map_loop (f : JsVal -> M JsVal) (elems : list JsVal) (A : loc) : M unit :=
  match elems with
  | [] => ret tt
  | p :: rest =>
      let! v := f p in
      array_push A v ;; map_loop f rest A
  end.

Definition Array_map (f : JsVal -> M JsVal) (a : loc) : M loc :=
  let! elems := array_elems a in
  let! A := alloc (CArr []) in
  map_loop f elems A ;; ret A.

(** [Array.isArray(v)], giving the array when [v] is one. *)
Definition as_array (v : JsVal) : M (option loc) :=
  let! isArr := Array_isArray v in
  ret (match v with
       | Ref a => if isArr then Some a else None
       | Prim _ => None
       end).

(** function sortByPrice(products) *)
Definition sortByPrice (fuel : nat) (products : JsVal) : M loc :=
  let! arr := as_array products in
  match arr with
  | None => alloc (CArr [])
  | Some a =>
      let! len := array_length a in
      if len =? 0 then alloc (CArr [])
      else
        let! productsCopy := Array_map copy_product a in
        mergeSort fuel productsCopy "price"
  end.

(** function sortByName(products) *)
Definition sortByName (fuel : nat) (products : JsVal) : M loc :=
  let! arr := as_array products in
  match arr with
  | None => alloc (CArr [])
  | Some a =>
      let! len := array_length a in
      if len =? 0 then alloc (CArr [])
      else
        let! productsCopy := Array_map copy_product a in
        mergeSort fuel productsCopy "name"
  end.

(** sortByPrice and sortByName differ in the key alone. *)
Definition sort_products (sortBy : string) (fuel : nat) (products : JsVal) : M loc :=
  let! arr := as_array products in
  match arr with
  | None => alloc (CArr [])
  | Some a =>
      let! len := array_length a in
      if len =? 0 then alloc (CArr [])
      else
        let! productsCopy := Array_map copy_product a in
        mergeSort fuel productsCopy sortBy
  end.

End Host.
End Source.

(** ** Functional reading of merge and mergeSort *)

Module Fun.
Import Js.

Section Fun.
Context {A : Type}.

(** The comparison of two elements: [comparison] of merge, or the error it
    raises. *)
Variable cmp : A -> A -> res Z.

(** merge on lists: the heads are compared while both sides have one, then
    the side that is left is appended. *)
Fixpoint merge (l r : list A) {struct l} : res (list A) :=
  let fix merge_r (r : list A) {struct r} : res (list A) :=
    match l, r with
    | [], _ => Ok r
    | _, [] => Ok l
    | a :: l', b :: r' =>
        res_bind (cmp a b) (fun comparison =>
          if (comparison <=? 0)%Z then res_map (cons a) (merge l' r)
          else res_map (cons b) (merge_r r'))
    end
  in merge_r r.

(** mergeSort on lists; [n] bounds the depth of the recursion. *)
Fixpoint mergeSort_n (n : nat) (items : list A) : res (list A) :=
  match n with
  | O => Ok items
  | S n' =>
      if length items <=? 1 then Ok items
      else
        let middle := length items / 2 in
        res_bind (mergeSort_n n' (take middle items)) (fun sortedLeft =>
        res_bind (mergeSort_n n' (drop middle items)) (fun sortedRight =>
        merge sortedLeft sortedRight))
  end.

Definition mergeSort (items : list A) : res (list A) :=
  mergeSort_n (length items) items.

End Fun.

(** The comparison of [a] and [b] raises no error and decides [le a b]. *)
Definition decides {A} (cmp : A -> A -> res Z) (le : A -> A -> bool)
    (a b : A) : Prop :=
  exists z, cmp a b = Ok z /\ (z <=? 0)%Z = le a b.
End Fun.

(** ** The reference algorithm of the specification *)

Module Sorter.

Section Sorter.
Context {A : Type}.

(** [le a b]: the key of [a] is at most the key of [b] under the chosen
    comparison. *)
Variable le : A -> A -> bool.

(** Step 4: compare the heads, append the lesser, on a tie the left-hand
    one; when one half is exhausted, append the remainder of the other. *)
Fixpoint merge_halves (l r : list A) {struct l} : list A :=
  let fix go (r : list A) {struct r} : list A :=
    match l, r with
    | [], _ => r
    | _, [] => l
    | a :: l', b :: r' =>
        if le a b then a :: merge_halves l' r else b :: go r'
    end
  in go r.

(** Steps 1 to 3: a sequence of length at most 1 is returned unchanged;
    otherwise it is split at floor(n/2) and each half is sorted.  [n] bounds
    the depth of the recursion. *)
Fixpoint sort_n (n : nat) (s : list A) : list A :=
  match n with
  | O => s
  | S n' =>
      if length s <=? 1 then s
      else
        let mid := length s / 2 in
        merge_halves (sort_n n' (take mid s)) (sort_n n' (drop mid s))
  end.

Definition sort (s : list A) : list A := sort_n (length s) s.

(** key(a) <= key(b), as a proposition. *)
Definition ordered (a b : A) : Prop := le a b = true.

End Sorter.
End Sorter.

(** ** Observations on the store *)

Module Store.
Import Js.

(** A value refers inside the store. *)
Definition valid (h : heap) (v : JsVal) : Prop :=
  match v with
  | Prim _ => True
  | Ref l => l < length h
  end.

(** The product a value refers to, when it refers to one. *)
Definition record_of (h : heap) (v : JsVal) : option Product :=
  match v with
  | Ref l => match h !! l with
             | Some (CObj p) => Some p
             | _ => None
             end
  | Prim _ => None
  end.

(** The sequence of records an array of references denotes. *)
Definition records (h : heap) (elems : list JsVal) : option (list Product) :=
  mapM (record_of h) elems.

Definition array_records (h : heap) (a : loc) : option (list Product) :=
  match h !! a with
  | Some (CArr elems) => records h elems
  | _ => None
  end.

(** Every reference held by the array at [a] was allocated after [h]. *)
Definition fresh_elems (h h' : heap) (a : loc) : Prop :=
  exists elems, h' !! a = Some (CArr elems) /\
    Forall (fun v => match v with Ref l => length h <= l | Prim _ => False end) elems.

(** The store after [products.map(...)]: the new array, then one new
    product per element, in order. *)
Definition copied (h : heap) (ps : list Product) : heap :=
  h ++ CArr (Ref <$> seq (S (length h)) (length ps)) :: (CObj <$> ps).

Section Keys.
Variable parseFloat : prim -> number.
Variable localeCompare : string -> prim -> Z.

(** [comparison] for two elements of the arrays being merged, read in [h]. *)
Definition keycmp (h : heap) (sortBy : string) (a b : JsVal) : res Z :=
  res_bind (read_prop h a sortBy) (fun leftProp =>
  res_bind (read_prop h b sortBy) (fun rightProp =>
  Source.compare_keys parseFloat localeCompare sortBy leftProp rightProp)).

(** The order the comparison decides: [comparison <= 0]. *)
Definition cmp_le (h : heap) (sortBy : string) (a b : JsVal) : bool :=
  match keycmp h sortBy a b with
  | Ok comparison => (comparison <=? 0)%Z
  | Err _ => false
  end.

(** The same on two products. *)
Definition product_cmp (sortBy : string) (p q : Product) : res Z :=
  Source.compare_keys parseFloat localeCompare sortBy
    (get_field p sortBy) (get_field q sortBy).

(** key(a) <= key(b), numerically on the price. *)
Definition price_le (p q : Product) : bool :=
  num_leb (parseFloat (prod_price p)) (parseFloat (prod_price q)).

(** key(a) <= key(b), textually on the name. *)
Definition name_le (p q : Product) : bool :=
  match prod_name p with
  | PStr s => (localeCompare s (prod_name q) <=? 0)%Z
  | _ => false
  end.

(** A well-formed price parses to a number. *)
Definition price_ok (p : Product) : Prop :=
  isNaN (parseFloat (prod_price p)) = false.

(** A well-formed name is a string. *)
Definition name_ok (p : Product) : Prop :=
  match prod_name p with PStr _ => True | _ => False end.

(** [localeCompare] as a consistent comparator on strings: total and
    transitive. *)
Definition lc_total : Prop :=
  forall s t, (0 < localeCompare s (PStr t))%Z -> (localeCompare t (PStr s) <= 0)%Z.

Definition lc_trans : Prop :=
  forall s t u, (localeCompare s (PStr t) <= 0)%Z -> (localeCompare t (PStr u) <= 0)%Z ->
    (localeCompare s (PStr u) <= 0)%Z.

End Keys.

(** Two elements whose keys compare equal. *)
Definition same_key {A} (le : A -> A -> bool) (x y : A) : bool :=
  le x y && le y x.

End Store.

(** ** An instance of the built-ins, for evaluation

    [parseFloat] follows the StrDecimalLiteral prefix grammar and rounds to
    the nearest binary64 value, ties to even; [ToString] prints a Number with
    the shortest digits that read back to it; [localeCompare] orders strings
    by code unit, a consistent comparator as the language requires of the
    host.  Strings are read as sequences of one-byte characters. *)

Module ExampleHost.
Import Js.

Definition is_space (c : ascii) : bool :=
  let n := nat_of_ascii c in
  (n =? 9) || (n =? 10) || (n =? 11) || (n =? 12) || (n =? 13) || (n =? 32).

Fixpoint trim_start (s : string) : string :=
  match s with
  | String c s' => if is_space c then trim_start s' else s
  | EmptyString => s
  end.

Definition digit_of (c : ascii) : option Z :=
  let n := Z.of_nat (nat_of_ascii c) in
  if ((48 <=? n) && (n <=? 57))%Z then Some (n - 48)%Z else None.

(** Reads a run of decimal digits: the number read onto [acc], how many
    digits, and what follows. *)
Fixpoint read_digits (s : string) (acc : Z) (count : nat) : Z * nat * string :=
  match s with
  | String c s' =>
      match digit_of c with
      | Some d => read_digits s' (10 * acc + d)%Z (S count)
      | None => (acc, count, s)
      end
  | EmptyString => (acc, count, s)
  end.

(** n/d >= 2^e, for positive n and d. *)
Definition ge_pow2 (n d e : Z) : bool :=
  if (0 <=? e)%Z then (d * 2 ^ e <=? n)%Z else (d <=? n * 2 ^ (- e))%Z.

(** The binary64 value nearest to n/d (n, d positive), ties to even. *)
Definition round_binary64 (n d : Z) : number :=
  let e0 := (Z.log2 n - Z.log2 d)%Z in
  let e := if ge_pow2 n d e0 then e0 else (e0 - 1)%Z in
  let z := Z.max (e - 52) (-1074) in
  let N := if (z <? 0)%Z then (n * 2 ^ (- z))%Z else n in
  let D := if (z <? 0)%Z then d else (d * 2 ^ z)%Z in
  let m := (N / D)%Z in
  let r := (N mod D)%Z in
  let m' := if (2 * r <? D)%Z then m
            else if (D <? 2 * r)%Z then (m + 1)%Z
            else if Z.even m then m else (m + 1)%Z in
  if (z <? 0)%Z then Fin (Qred (m' # Z.to_pos (2 ^ (- z))))
  else if (2 ^ 1024 <=? m' * 2 ^ z)%Z then PosInf
  else Fin (inject_Z (m' * 2 ^ z)).

Definition negate (x : number) : number :=
  match x with
  | NaN => NaN
  | NegInf => PosInf
  | PosInf => NegInf
  | Fin q => Fin (Qred (- q))
  end.

(** mant * 10^e10, rounded. *)
Definition decimal_value (mant e10 : Z) : number :=
  if (mant =? 0)%Z then Fin 0
  else if (0 <=? e10)%Z then round_binary64 (mant * 10 ^ e10) 1
  else round_binary64 mant (10 ^ (- e10)).

Definition read_sign (s : string) : bool * string :=
  match s with
  | String "-" s' => (true, s')
  | String "+" s' => (false, s')
  | _ => (false, s)
  end.

(** An ExponentPart, when digits follow the [e]. *)
Definition read_exponent (s : string) : Z :=
  match s with
  | String c s' =>
      if (Ascii.eqb c "e" || Ascii.eqb c "E")%bool then
        let '(neg, s'') := read_sign s' in
        let '(ev, ec, _) := read_digits s'' 0%Z 0 in
        if ec =? 0 then 0%Z else if neg then (- ev)%Z else ev
      else 0%Z
  | EmptyString => 0%Z
  end.

Definition parse_unsigned (s : string) : number :=
  if String.prefix "Infinity" s then PosInf
  else
    let '(m1, c1, rest1) := read_digits s 0%Z 0 in
    let '(m2, c2, rest2) :=
      match rest1 with
      | String "." rest1' => read_digits rest1' m1 0
      | _ => (m1, 0, rest1)
      end in
    if c1 + c2 =? 0 then NaN
    else decimal_value m2 (read_exponent rest2 - Z.of_nat c2).

Definition parseFloat_string (s : string) : number :=
  let '(neg, s') := read_sign (trim_start s) in
  let v := parse_unsigned s' in
  if neg then negate v else v.

(** parseFloat(v): the argument is converted to a string and parsed; a
    Number reads back as itself. *)
Definition parseFloat (v : prim) : number :=
  match v with
  | PNum x => x
  | PStr s => parseFloat_string s
  | PUndefined | PNull | PBool _ => NaN
  end.

(** Decimal digits of a non-negative integer. *)
Fixpoint digits_fuel (fuel : nat) (n : Z) (acc : string) : string :=
  match fuel with
  | O => acc
  | S fuel' =>
      let acc' := String (ascii_of_nat (48 + Z.to_nat (n mod 10))) acc in
      if (n <? 10)%Z then acc' else digits_fuel fuel' (n / 10)%Z acc'
  end.

Definition digits (n : Z) : string :=
  digits_fuel (S (Z.to_nat (Z.log2 n))) n "".

Fixpoint zeros (k : nat) : string :=
  match k with O => "" | S k' => String "0" (zeros k') end.

(** The least n with q < 10^n, searched upwards from [n]. *)
Fixpoint exp10_from (fuel : nat) (q : Q) (n : Z) : Z :=
  match fuel with
  | O => n
  | S fuel' =>
      if Qle_bool (if (0 <=? n)%Z then inject_Z (10 ^ n) else 1 # Z.to_pos (10 ^ (- n))) q
      then exp10_from fuel' q (n + 1)%Z
      else n
  end.

(** The integer nearest to n/d, ties to even. *)
Definition nearest (n d : Z) : Z :=
  let m := (n / d)%Z in
  let r := (n mod d)%Z in
  if (2 * r <? d)%Z then m
  else if (d <? 2 * r)%Z then (m + 1)%Z
  else if Z.even m then m else (m + 1)%Z.

(** q * 10^e as a fraction. *)
Definition scale10 (q : Q) (e : Z) : Z * Z :=
  if (0 <=? e)%Z then (Qnum q * 10 ^ e, Zpos (Qden q))%Z
  else (Qnum q, Zpos (Qden q) * 10 ^ (- e))%Z.

Definition same_number (x y : number) : bool :=
  match x, y with
  | Fin a, Fin b => Qeq_bool a b
  | PosInf, PosInf | NegInf, NegInf => true
  | _, _ => false
  end.

(** The shortest [k] digits [s], with their exponent [n], such that
    s * 10^(n-k) reads back to q; [n0] is the least n with q < 10^n.  When
    the nearest k-digit value rounds up to 10^k, it is 10^(k-1) one exponent
    higher. *)
Fixpoint shortest (fuel : nat) (q : Q) (n0 : Z) (k : Z) : Z * Z * Z :=
  let '(sn, sd) := scale10 q (k - n0) in
  let s0 := nearest sn sd in
  let '(s, n) := if (s0 <? 10 ^ k)%Z then (s0, n0)
                 else (10 ^ (k - 1), n0 + 1)%Z in
  match fuel with
  | O => (s, k, n)
  | S fuel' =>
      if same_number (decimal_value s (n - k)%Z) (Fin q) then (s, k, n)
      else shortest fuel' q n0 (k + 1)%Z
  end.

(** Number::toString on a positive finite value. *)
Definition positive_to_string (q : Q) : string :=
  let '(s, k, n) := shortest 16 q (exp10_from 640 q (-324)%Z) 1%Z in
  let ds := digits s in
  if ((k <=? n) && (n <=? 21))%Z then (ds ++ zeros (Z.to_nat (n - k)))%string
  else if ((0 <? n) && (n <=? 21))%Z then
    (substring 0 (Z.to_nat n) ds ++ "." ++
     substring (Z.to_nat n) (Z.to_nat (k - n)) ds)%string
  else if ((-6 <? n) && (n <=? 0))%Z then
    ("0." ++ zeros (Z.to_nat (- n)) ++ ds)%string
  else
    let e := (n - 1)%Z in
    let es := ((if (e <? 0)%Z then "-" else "+") ++ digits (Z.abs e))%string in
    if (k =? 1)%Z then (ds ++ "e" ++ es)%string
    else (substring 0 1 ds ++ "." ++ substring 1 (Z.to_nat (k - 1)) ds ++
          "e" ++ es)%string.

Definition Number_toString (x : number) : string :=
  match x with
  | NaN => "NaN"
  | PosInf => "Infinity"
  | NegInf => "-Infinity"
  | Fin q =>
      match Qcompare q 0 with
      | Eq => "0"
      | Gt => positive_to_string q
      | Lt => ("-" ++ positive_to_string (- q))%string
      end
  end.

(** ToString on a primitive value. *)
Definition ToString (v : prim) : string :=
  match v with
  | PUndefined => "undefined"
  | PNull => "null"
  | PBool true => "true"
  | PBool false => "false"
  | PNum x => Number_toString x
  | PStr s => s
  end.

(** s.localeCompare(v) *)
Definition localeCompare (s : string) (v : prim) : Z :=
  match String.compare s (ToString v) with
  | Lt => (-1)%Z
  | Eq => 0%Z
  | Gt => 1%Z
  end.

(** A Number value from an integer literal. *)
Definition int (n : Z) : prim := PNum (Fin (inject_Z n)).

End ExampleHost.

(** ** The contract [sort(records, key)] *)

Module Contract.
Import Js Store.

(** The key selector of the contract. *)
Inductive Key : Type := price | name.

Definition key_name (k : Key) : string :=
  match k with price => "price" | name => "name" end.

Section Contract.
Variable parseFloat : prim -> number.
Variable localeCompare : string -> prim -> Z.

(** [sort(records, price)] is sortByPrice, [sort(records, name)] is
    sortByName. *)
Definition sort (k : Key) : nat -> JsVal -> M loc :=
  match k with
  | price => Source.sortByPrice parseFloat localeCompare
  | name => Source.sortByName parseFloat localeCompare
  end.

(** key(a) <= key(b) under the comparison of the key. *)
Definition key_le (k : Key) : Product -> Product -> bool :=
  match k with
  | price => price_le parseFloat
  | name => name_le localeCompare
  end.

(** The selected key value of a record is well-formed. *)
Definition key_ok (k : Key) : Product -> Prop :=
  match k with
  | price => price_ok parseFloat
  | name => name_ok
  end.

(** What the comparison of names needs of the built-in: any two strings
    are ordered one way or the other. *)
Definition comparator_total (k : Key) : Prop :=
  match k with
  | price => True
  | name => lc_total localeCompare
  end.

(** The built-in is a consistent comparator: total and transitive. *)
Definition comparator_ok (k : Key) : Prop :=
  match k with
  | price => True
  | name => lc_total localeCompare /\ lc_trans localeCompare
  end.

(** Comparing [p] with any record under the key raises no error. *)
Definition comparable (k : Key) (p : Product) : Prop :=
  match k with
  | price => True
  | name => name_ok p
  end.

(** [sort(records, k)] on the array at [a] returns the array at [r], whose
    records are [out], in the store [h']. *)
Definition sorts_to (k : Key) (fuel : nat) (h : heap) (a : loc)
    (r : loc) (h' : heap) (out : list Product) : Prop :=
  sort k fuel (Ref a) h = Ok (r, h') /\ array_records h' r = Some out.

(** The elements of each key appear in [out] in the order they have in
    [ps]. *)
Definition stable (k : Key) (ps out : list Product) : Prop :=
  forall x, x ∈ ps ->
    List.filter (same_key (key_le k) x) out =
    List.filter (same_key (key_le k) x) ps.

(** The claim of stability on one input, without a condition on its keys. *)
Definition sort_is_stable_on (k : Key) (fuel : nat) (h : heap) (a : loc)
    (ps : list Product) : Prop :=
  exists r h' out, sorts_to k fuel h a r h' out /\ stable k ps out.

(** The claim of idempotence on one input, without a condition on its
    keys. *)
Definition sort_is_idempotent_on (k : Key) (fuel : nat) (h : heap) (a : loc) : Prop :=
  exists r1 h1 out r2 h2,
    sorts_to k fuel h a r1 h1 out /\ sorts_to k fuel h1 r1 r2 h2 out.

(** The claim that the sort signals a fault on one input. *)
Definition sort_fails_on (k : Key) (fuel : nat) (h : heap) (v : JsVal) : Prop :=
  exists e, sort k fuel v h = Err e.

End Contract.

(** A value that is not an array: a primitive, or a product object. *)
Definition not_an_array (h : heap) (v : JsVal) : Prop :=
  match v with
  | Prim _ => True
  | Ref l => exists p, h !! l = Some (CObj p)
  end.

(** What sortByPrice and sortByName are called with: something that is not
    an array, or an array of records (for which [fuel] is enough). *)
Definition sort_input (h : heap) (v : JsVal) (fuel : nat) : Prop :=
  not_an_array h v \/
  exists a ps, v = Ref a /\ array_records h a = Some ps /\ length ps + 2 <= fuel.

End Contract.

(** ** Example catalogues *)

Module Examples.
Import Js ExampleHost.

Definition product (i : Z) (n : string) (p : prim) (img : string) : Product :=
  new_Product (int i) (PStr n) p (PStr img).

(** defaultProducts of scripts/products.js. *)
Definition defaultProducts : list Product :=
  [ product 1 "Kissan Fresh Tomato Ketchup" (int 215) "assets/1.jpg";
    product 2 "Del Monte Tomato Ketchup" (int 75) "assets/2.jpg";
    product 3 "Veeba Truly Tomato Ketchup" (int 140) "assets/3.jpg";
    product 4 "Tata Salt" (int 25) "assets/4.jpg";
    product 5 "Aashirvaad Iodized Salt" (int 30) "assets/5.jpg";
    product 6 "Aashirvaad Himalayan Pink Salt" (int 106) "assets/6.jpg";
    product 7 "Fortune oil " (int 650) "assets/7.jpg";
    product 8 "Amami oil" (int 208) "assets/8.jpg";
    product 9 "Saffola oil" (int 1072) "assets/9.jpg" ].

(** A store holding the records [ps] and, after them, the array of their
    references. *)
Definition store_of (ps : list Product) : heap :=
  (CObj <$> ps) ++ [CArr (Ref <$> seq 0 (length ps))].

Definition catalogue : heap := store_of defaultProducts.

(** Two products of price 5 around one whose price does not parse. *)
Definition tie_x : Product := product 1 "x" (int 5) "x.jpg".
Definition bad_n : Product := product 2 "n" (PStr "abc") "n.jpg".
Definition tie_y : Product := product 3 "y" (int 5) "y.jpg".
Definition more_z : Product := product 4 "z" (int 9) "z.jpg".

Definition unstable_input : list Product := [tie_x; bad_n; tie_y; more_z].
Definition unstable_store : heap := store_of unstable_input.

Definition flip_input : list Product := [tie_x; bad_n].
Definition flip_store : heap := store_of flip_input.

(** [{price: "abc"}] *)
Definition abc : Product :=
  new_Product PUndefined PUndefined (PStr "abc") PUndefined.
Definition abc_store : heap := store_of [abc].

(** Two products of equal price, ids 1 and 2. *)
Definition tie_input : list Product :=
  [ product 1 "first" (int 100) "1.jpg"; product 2 "second" (int 100) "2.jpg" ].
Definition tie_store : heap := store_of tie_input.

(** The records of the concrete scenarios: [{price: n}] and [{name: s}]. *)
Definition priced (n : Z) : Product :=
  new_Product PUndefined PUndefined (int n) PUndefined.
Definition named (s : string) : Product :=
  new_Product PUndefined (PStr s) PUndefined PUndefined.

(** The store when merge is about to compare the two of them: [left] at 3,
    [right] at 4, the empty [result] at 5. *)
Definition tie_merge_store : heap :=
  tie_store ++ [CArr [Ref 0]; CArr [Ref 1]; CArr []].

End Examples.

(** ** Stores for merge and for arrays that hold more than products *)

Module Cases.
Import Js ExampleHost Examples.

(** Three priced records, then [left] = the first two at 3 and [right] = the
    third at 4: two arrays in price order. *)
Definition halves_store : heap :=
  (CObj <$> [priced 25; priced 140; priced 75]) ++
  [CArr [Ref 0; Ref 1]; CArr [Ref 2]].

(** The same with an [undefined] at the end of the left array. *)
Definition holed_store : heap :=
  (CObj <$> [priced 25; priced 140; priced 75]) ++
  [CArr [Ref 0; Ref 1; Prim PUndefined]; CArr [Ref 2]].

(** [[{name: "b"}, null]] *)
Definition null_store : heap :=
  [CObj (named "b"); CArr [Ref 0; Prim PNull]].

(** A product without a name before one with a name. *)
Definition nameless_input : list Product := [priced 5; named "a"].
Definition nameless_store : heap := store_of nameless_input.

(** Products that share names and prices, in no order. *)
Definition shelf : list Product :=
  [ product 1 "salt" (int 30) "1.jpg"; product 2 "oil" (int 208) "2.jpg";
    product 3 "salt" (int 25) "3.jpg"; product 4 "oil" (int 208) "4.jpg";
    product 5 "ketchup" (int 75) "5.jpg" ].
Definition shelf_store : heap := store_of shelf.

(** The default products in name order. *)
Definition by_name : list Product :=
  [ product 6 "Aashirvaad Himalayan Pink Salt" (int 106) "assets/6.jpg";
    product 5 "Aashirvaad Iodized Salt" (int 30) "assets/5.jpg";
    product 8 "Amami oil" (int 208) "assets/8.jpg";
    product 2 "Del Monte Tomato Ketchup" (int 75) "assets/2.jpg";
    product 7 "Fortune oil " (int 650) "assets/7.jpg";
    product 1 "Kissan Fresh Tomato Ketchup" (int 215) "assets/1.jpg";
    product 9 "Saffola oil" (int 1072) "assets/9.jpg";
    product 4 "Tata Salt" (int 25) "assets/4.jpg";
    product 3 "Veeba Truly Tomato Ketchup" (int 140) "assets/3.jpg" ].
Definition by_name_store : heap := store_of by_name.

(** [unstable_input] under other ids, names and images: the same prices at
    the same positions. *)
Definition renamed : list Product :=
  [ product 11 "k" (int 5) "k.jpg"; product 12 "l" (PStr "abc") "l.jpg";
    product 13 "m" (int 5) "m.jpg"; product 14 "n" (int 9) "n.jpg" ].

(** [unstable_input] and [renamed] in one store, arrays at 8 and 9. *)
Definition twin_store : heap :=
  (CObj <$> (unstable_input ++ renamed)) ++
  [CArr (Ref <$> seq 0 4); CArr (Ref <$> seq 4 4)].

End Cases.

(** ** The product store (scripts/backend.js, scripts/products.js)

    The catalogue is kept in [localStorage] under one key, as JSON text.
    [localStorage] is a finite map from keys to texts, passed through the
    functions beside the object store; [getItem] and [removeItem] do not
    throw.  The built-ins the code calls are the fields of [Host].  An
    exception other than a TypeError (the SyntaxError of [JSON.parse], the
    exception of [localStorage.setItem] on a full storage) is raised and
    caught inside one function: it is written as the branch its handler
    takes.  The calls of [console.error] are left out.  A plain object with
    the properties id, name, price and image (what [toJSON] makes, what
    [JSON.parse] returns) is a cell like a product; the code calls no method
    on one. *)

Module Backend.
Import Js Source.
Local Open Scope js_scope.

(** [localStorage]: [getItem] is the lookup ([None] for [null]), [setItem]
    the insertion, [removeItem] the deletion. *)
Abbreviation storage := (gmap string string) (only parsing).

(** const STORAGE_KEY = 'grocno_products' *)
Definition STORAGE_KEY : string := "grocno_products".

(** What [JSON.parse] returns, as far as the code looks at it: an element
    is a primitive value or an object (or array) seen through the four
    properties [Product.fromJSON] reads, each a primitive value; the
    document is an array of such elements or a single one. *)
Inductive item : Type :=
  | IPrim (p : prim)
  | IObj (p : Product).

Inductive json : Type :=
  | JValue (v : item)
  | JArray (items : list item).

(** The built-ins of the host.  [JSON_stringify] is [JSON.stringify] on an
    array of the plain objects [toJSON] makes; [JSON_parse] is [None] when
    [JSON.parse] throws its SyntaxError; [setItem_throws st k v] tells
    whether [localStorage.setItem(k, v)] throws in the storage [st];
    [StringToNumber] is the conversion of a string to a Number; [Number_add]
    is [+] on two Numbers. *)
Record Host : Type := {
  parseFloat : prim -> number;
  trim : string -> string;
  StringToNumber : string -> number;
  Number_add : number -> number -> number;
  JSON_stringify : list Product -> string;
  JSON_parse : string -> option json;
  setItem_throws : storage -> string -> string -> bool
}.

(** *** Conversions and operators *)

(** ToBoolean: what [!v] negates. *)
Definition ToBoolean (v : prim) : bool :=
  match v with
  | PUndefined | PNull => false
  | PBool b => b
  | PNum NaN => false
  | PNum (Fin q) => negb (Qeq_bool q 0)
  | PNum _ => true
  | PStr s => negb (String.length s =? 0)
  end.

(** The same on any value: an object is true. *)
Definition truthy (v : JsVal) : bool :=
  match v with
  | Prim p => ToBoolean p
  | Ref _ => true
  end.

(** [x === y] on Numbers. *)
Definition num_eqb (x y : number) : bool :=
  match x, y with
  | Fin a, Fin b => Qeq_bool a b
  | PosInf, PosInf | NegInf, NegInf => true
  | _, _ => false
  end.

(** [x < y] on Numbers. *)
Definition num_ltb (x y : number) : bool :=
  match x, y with
  | NaN, _ | _, NaN => false
  | Fin a, Fin b => negb (Qle_bool b a)
  | NegInf, NegInf | PosInf, _ | Fin _, NegInf => false
  | NegInf, _ | Fin _, PosInf => true
  end.

(** [x === y] on primitive values. *)
Definition strict_equals (x y : prim) : bool :=
  match x, y with
  | PUndefined, PUndefined | PNull, PNull => true
  | PBool a, PBool b => Bool.eqb a b
  | PNum a, PNum b => num_eqb a b
  | PStr s, PStr t => String.eqb s t
  | _, _ => false
  end.

(** [Math.max] on Numbers: NaN as soon as one argument is, -Infinity
    without arguments. *)
Definition num_max (x y : number) : number :=
  if isNaN x || isNaN y then NaN else if num_leb x y then y else x.

Definition Math_max (xs : list number) : number := fold_left num_max xs NegInf.

(** [p[prop] = v] on a product. *)
Definition set_field (p : Product) (prop : string) (v : prim) : Product :=
  if String.eqb prop "id" then
    new_Product v (prod_name p) (prod_price p) (prod_image p)
  else if String.eqb prop "name" then
    new_Product (prod_id p) v (prod_price p) (prod_image p)
  else if String.eqb prop "price" then
    new_Product (prod_id p) (prod_name p) v (prod_image p)
  else if String.eqb prop "image" then
    new_Product (prod_id p) (prod_name p) (prod_price p) v
  else p.

(** [target[prop] = v]: a TypeError on [undefined] and [null], no effect on
    the other primitives, the update of the cell on a product.  The code
    assigns to products only. *)
Definition set_prop (target : JsVal) (prop : string) (v : prim) : M unit :=
  match target with
  | Prim PUndefined | Prim PNull => throw TypeError
  | Prim _ => ret tt
  | Ref l => fun h => match h !! l with
                      | Some (CObj p) => Ok (tt, <[l := CObj (set_field p prop v)]> h)
                      | _ => Err BadRef
                      end
  end.

(** [try { block } catch (error) { handler }].  What the block allocated
    before it raised is unreachable from the handler, which runs in the
    store the block was entered in. *)
Definition try_catch {A} (block handler : M A) : M A :=
  fun h => match block h with
           | Err TypeError => handler h
           | r => r
           end.

(** [v.map(f)] on any value: a TypeError unless [v] is an array. *)
Definition call_map (f : JsVal -> M JsVal) (v : JsVal) : M loc :=
  let! arr := as_array v in
  match arr with
  | Some a => Array_map f a
  | None => throw TypeError
  end.

(** [a.filter(f)]: a new array of the elements [f] accepts, in order. *)
Fixpoint filter_loop (f : JsVal -> M bool) (elems : list JsVal) (A : loc) : M unit :=
  match elems with
  | [] => ret tt
  | p :: rest =>
      let! keep := f p in
      (if keep then array_push A p else ret tt) ;; filter_loop f rest A
  end.

Definition Array_filter (f : JsVal -> M bool) (a : loc) : M loc :=
  let! elems := array_elems a in
  let! A := alloc (CArr []) in
  filter_loop f elems A ;; ret A.

(** [a.findIndex(f)]: the first index [f] accepts, [None] for -1. *)
Fixpoint findIndex_loop (f : JsVal -> M bool) (elems : list JsVal) (k : nat)
    : M (option nat) :=
  match elems with
  | [] => ret None
  | p :: rest =>
      let! hit := f p in
      if hit then ret (Some k) else findIndex_loop f rest (S k)
  end.

Definition Array_findIndex (f : JsVal -> M bool) (a : loc) : M (option nat) :=
  let! elems := array_elems a in findIndex_loop f elems 0.

(** [a.find(f)]: the first element [f] accepts, or [undefined]. *)
Fixpoint find_loop (f : JsVal -> M bool) (elems : list JsVal) : M JsVal :=
  match elems with
  | [] => ret (Prim PUndefined)
  | p :: rest =>
      let! hit := f p in
      if hit then ret p else find_loop f rest
  end.

Definition Array_find (f : JsVal -> M bool) (a : loc) : M JsVal :=
  let! elems := array_elems a in find_loop f elems.

(** *** class Product (scripts/products.js) *)

(** toJSON(): a plain object with the four properties of [this]. *)
Definition Product_toJSON (this : JsVal) : M JsVal :=
  let! i := get_prop this "id" in
  let! n := get_prop this "name" in
  let! pr := get_prop this "price" in
  let! im := get_prop this "image" in
  let! o := alloc (CObj (new_Product i n pr im)) in
  ret (Ref o).

(** [p.toJSON()]: the method of a product; a TypeError on anything else
    ([undefined] and [null] have no properties, the other values no method
    [toJSON]). *)
Definition call_toJSON (p : JsVal) : M JsVal :=
  match p with
  | Prim _ => throw TypeError
  | Ref l => fun h => match h !! l with
                      | Some (CObj _) => Product_toJSON p h
                      | Some (CArr _) => Err TypeError
                      | None => Err BadRef
                      end
  end.

(** static fromJSON(data) *)
Definition Product_fromJSON (data : JsVal) : M JsVal :=
  let! i := get_prop data "id" in
  let! n := get_prop data "name" in
  let! pr := get_prop data "price" in
  let! im := get_prop data "image" in
  let! o := alloc (CObj (new_Product i n pr im)) in
  ret (Ref o).

(** *** The value [JSON.parse] returns, in the store *)

Definition allocate_item (i : item) : M JsVal :=
  match i with
  | IPrim p => ret (Prim p)
  | IObj p => let! o := alloc (CObj p) in ret (Ref o)
  end.

Fixpoint allocate_items (items : list item) : M (list JsVal) :=
  match items with
  | [] => ret []
  | i :: rest =>
      let! v := allocate_item i in
      let! vs := allocate_items rest in
      ret (v :: vs)
  end.

Definition allocate (doc : json) : M JsVal :=
  match doc with
  | JValue v => allocate_item v
  | JArray items =>
      let! vs := allocate_items items in
      let! a := alloc (CArr vs) in
      ret (Ref a)
  end.

(** The plain objects [JSON.stringify] is given, read from the store. *)
Definition plain_objects (a : loc) : M (list Product) :=
  fun h => match Store.array_records h a with
           | Some ps => Ok (ps, h)
           | None => Err BadRef
           end.

(** ToNumber on a primitive value. *)
Definition ToNumber (host : Host) (v : prim) : number :=
  match v with
  | PUndefined => NaN
  | PNull => Fin 0
  | PBool true => Fin 1
  | PBool false => Fin 0
  | PNum x => x
  | PStr s => StringToNumber host s
  end.

(** ToNumber on an argument of [Math.max].  The arguments are ids,
    primitive values; an object, which no product has for id, is no
    number. *)
Definition arg_ToNumber (host : Host) (v : JsVal) : number :=
  match v with
  | Prim p => ToNumber host p
  | Ref _ => NaN
  end.

(** [!id || isNaN(id)] *)
Definition bad_id (host : Host) (id : prim) : bool :=
  negb (ToBoolean id) || isNaN (ToNumber host id).

(** [!v || typeof v !== 'string' || v.trim().length === 0] *)
Definition blank (host : Host) (v : prim) : bool :=
  negb (ToBoolean v) ||
  match v with
  | PStr s => String.length (trim host s) =? 0
  | _ => true
  end.

(** [isNaN(priceNum) || priceNum < 0] *)
Definition bad_price (priceNum : number) : bool :=
  isNaN priceNum || num_ltb priceNum (Fin 0).

(** [v.trim()]: a TypeError unless [v] is a string. *)
Definition call_trim (host : Host) (v : prim) : M string :=
  match v with
  | PStr s => ret (trim host s)
  | _ => throw TypeError
  end.

(** The callbacks [p => p.id === id] and [p => p.id !== id]. *)
Definition has_id (id : prim) (p : JsVal) : M bool :=
  let! i := get_prop p "id" in ret (strict_equals i id).

Definition has_other_id (id : prim) (p : JsVal) : M bool :=
  let! i := get_prop p "id" in ret (negb (strict_equals i id)).

(** The callback [p => p.id]. *)
Definition id_of (p : JsVal) : M JsVal :=
  let! i := get_prop p "id" in ret (Prim i).

(** The argument [updates] of updateProduct: an object with the properties
    [name], [price] and [image], each [undefined] when absent. *)
Record Updates : Type := {
  upd_name : prim;
  upd_price : prim;
  upd_image : prim
}.

Section Backend.
Variable host : Host.

(** The global [defaultProducts] of scripts/products.js: an array of the
    store. *)
Variable defaultProducts : loc.

(** function saveProducts(products) *)
Definition saveProducts (products : JsVal) (st : storage) : M (bool * storage) :=
  try_catch
    (let! plain := call_map call_toJSON products in
     let! objects := plain_objects plain in
     let productsJson := JSON_stringify host objects in
     if setItem_throws host st STORAGE_KEY productsJson then ret (false, st)
     else ret (true, <[STORAGE_KEY := productsJson]> st))
    (ret (false, st)).

(** function getProducts() *)
Definition getProducts (st : storage) : M (loc * storage) :=
  try_catch
    (let productsJson := default EmptyString (st !! STORAGE_KEY) in
     if String.length productsJson =? 0 then
       let! (_, st') := saveProducts (Ref defaultProducts) st in
       ret (defaultProducts, st')
     else
       match JSON_parse host productsJson with
       | None => ret (defaultProducts, st)
       | Some doc =>
           let! productsData := allocate doc in
           let! products := call_map Product_fromJSON productsData in
           ret (products, st)
       end)
    (ret (defaultProducts, st)).

(** function addProduct(name, price, image), on primitive arguments *)
Definition addProduct (name price image : prim) (st : storage)
    : M (JsVal * storage) :=
  if blank host name then ret (Prim PNull, st)
  else
    let priceNum := parseFloat host price in
    if bad_price priceNum then ret (Prim PNull, st)
    else if blank host image then ret (Prim PNull, st)
    else
      let! (products, st1) := getProducts st in
      let! len := array_length products in
      let! maxId :=
        if 0 <? len then
          (let! ids := call_map id_of (Ref products) in
           let! args := array_elems ids in
           ret (Math_max (arg_ToNumber host <$> args)))
        else ret (Fin 0) in
      let newId := Number_add host maxId (Fin 1) in
      let! trimmedName := call_trim host name in
      let! trimmedImage := call_trim host image in
      let! newProduct :=
        alloc (CObj (new_Product (PNum newId) (PStr trimmedName)
                       (PNum priceNum) (PStr trimmedImage))) in
      array_push products (Ref newProduct) ;;
      let! (saved, st2) := saveProducts (Ref products) st1 in
      if saved then ret (Ref newProduct, st2) else ret (Prim PNull, st2).

(** function deleteProduct(id) *)
Definition deleteProduct (id : prim) (st : storage) : M (bool * storage) :=
  if bad_id host id then ret (false, st)
  else
    let! (products, st1) := getProducts st in
    let! filteredProducts := Array_filter (has_other_id id) products in
    let! flen := array_length filteredProducts in
    let! len := array_length products in
    if flen =? len then ret (false, st1)
    else saveProducts (Ref filteredProducts) st1.

(** One block [if (updates.x !== undefined) { ... }] of updateProduct:
    [true] when the function goes on, [false] when it returns [null]. *)
Definition update_text (target : JsVal) (prop : string) (v : prim) : M bool :=
  match v with
  | PUndefined => ret true
  | _ =>
      let! text := call_trim host v in
      if String.length text =? 0 then ret false
      else (set_prop target prop (PStr text) ;; ret true)
  end.

Definition update_price (target : JsVal) (v : prim) : M bool :=
  match v with
  | PUndefined => ret true
  | _ =>
      let priceNum := parseFloat host v in
      if bad_price priceNum then ret false
      else (set_prop target "price" (PNum priceNum) ;; ret true)
  end.

(** function updateProduct(id, updates) *)
Definition updateProduct (id : prim) (updates : Updates) (st : storage)
    : M (JsVal * storage) :=
  if bad_id host id then ret (Prim PNull, st)
  else
    let! (products, st1) := getProducts st in
    let! productIndex := Array_findIndex (has_id id) products in
    match productIndex with
    | None => ret (Prim PNull, st1)
    | Some index =>
        let! target := array_get products index in
        let! named := update_text target "name" (upd_name updates) in
        if negb named then ret (Prim PNull, st1)
        else
          let! priced := update_price target (upd_price updates) in
          if negb priced then ret (Prim PNull, st1)
          else
            let! pictured := update_text target "image" (upd_image updates) in
            if negb pictured then ret (Prim PNull, st1)
            else
              let! (saved, st2) := saveProducts (Ref products) st1 in
              if saved then (let! updated := array_get products index in
                             ret (updated, st2))
              else ret (Prim PNull, st2)
    end.

(** function getProductById(id) *)
Definition getProductById (id : prim) (st : storage) : M (JsVal * storage) :=
  if bad_id host id then ret (Prim PNull, st)
  else
    let! (products, st1) := getProducts st in
    let! found := Array_find (has_id id) products in
    ret (if truthy found then found else Prim PNull, st1).

(** function clearAllProducts() *)
Definition clearAllProducts (st : storage) : M (bool * storage) :=
  try_catch
    (let st1 := delete STORAGE_KEY st in
     let! (_, st2) := saveProducts (Ref defaultProducts) st1 in
     ret (true, st2))
    (ret (false, st)).

(** function getProductCount() *)
Definition getProductCount (st : storage) : M (nat * storage) :=
  let! (products, st1) := getProducts st in
  let! len := array_length products in
  ret (len, st1).

(** The array [sortByPrice()] and [sortByName()] of scripts/ui-user.js hand
    to [displayProducts]: [MergeSort.sortByPrice(getProducts())],
    respectively [MergeSort.sortByName(getProducts())]. *)
Definition sorted_products (localeCompare : string -> prim -> Z)
    (k : Contract.Key) (fuel : nat) (st : storage) : M (loc * storage) :=
  let! (products, st1) := getProducts st in
  let! sortedProducts :=
    Contract.sort (parseFloat host) localeCompare k fuel (Ref products) in
  ret (sortedProducts, st1).

End Backend.
End Backend.

(** ** Observations on the product store *)

Module Catalogue.
Import Js Backend.

(** The storage holds, under the key, the text of an array of the objects
    [ps]. *)
Definition holds (host : Host) (st : storage) (ps : list Product) : Prop :=
  exists text,
    st !! STORAGE_KEY = Some text /\ String.length text <> 0 /\
    JSON_parse host text = Some (JArray (IObj <$> ps)).

(** The storage holds no text under the key. *)
Definition vacant (st : storage) : Prop :=
  String.length (default EmptyString (st !! STORAGE_KEY)) = 0.

(** The text [JSON.stringify] prints for the objects [ps] reads back as
    these objects. *)
Definition reads_back (host : Host) (ps : list Product) : Prop :=
  String.length (JSON_stringify host ps) <> 0 /\
  JSON_parse host (JSON_stringify host ps) = Some (JArray (IObj <$> ps)).

(** The storage after [setItem(STORAGE_KEY, JSON.stringify(ps))]. *)
Definition written (host : Host) (st : storage) (ps : list Product) : storage :=
  <[STORAGE_KEY := JSON_stringify host ps]> st.

(** The store after [JSON.parse] returned an array of the objects [ps]:
    the objects, then the array. *)
Definition parsed (h : heap) (ps : list Product) : heap :=
  h ++ (CObj <$> ps) ++ [CArr (Ref <$> seq (length h) (length ps))].

(** [p.id === id] on a record. *)
Definition id_is (id : prim) (p : Product) : bool :=
  strict_equals (prod_id p) id.

(** [maxId] and [maxId + 1] for the products [ps]. *)
Definition max_id (host : Host) (ps : list Product) : number :=
  if 0 <? length ps
  then Math_max (ToNumber host <$> (prod_id <$> ps))
  else Fin 0.

Definition next_id (host : Host) (ps : list Product) : number :=
  Number_add host (max_id host ps) (Fin 1).

(** The product addProduct makes of a name, a price and an image. *)
Definition added (host : Host) (ps : list Product) (name : string)
    (price : prim) (image : string) : Product :=
  new_Product (PNum (next_id host ps)) (PStr (trim host name))
              (PNum (parseFloat host price)) (PStr (trim host image)).

(** What the three checks of addProduct accept: a name and an image that
    are strings with something left when trimmed, a price that parses to a
    number that is not negative. *)
Definition valid_text (host : Host) (v : prim) : Prop :=
  exists s, v = PStr s /\ String.length s <> 0 /\
            String.length (trim host s) <> 0.

Definition valid_price (host : Host) (v : prim) : Prop :=
  isNaN (parseFloat host v) = false /\
  num_ltb (parseFloat host v) (Fin 0) = false.

(** An id the functions look for: true as a condition, and a number when
    converted. *)
Definition valid_id (host : Host) (id : prim) : Prop :=
  ToBoolean id = true /\ isNaN (ToNumber host id) = false.

(** The first product with the id, and its index counted from [k]. *)
Fixpoint first_with (id : prim) (ps : list Product) (k : nat)
    : option (nat * Product) :=
  match ps with
  | [] => None
  | p :: rest => if id_is id p then Some (k, p) else first_with id rest (S k)
  end.

(** What one block of updateProduct makes of a product: the product with
    the property set, the product itself when the update has no such
    property, [None] when the block returns [null]. *)
Definition step_text (host : Host) (prop : string) (v : prim) (p : Product)
    : option Product :=
  match v with
  | PUndefined => Some p
  | PStr s =>
      if String.length (trim host s) =? 0 then None
      else Some (set_field p prop (PStr (trim host s)))
  | _ => None
  end.

Definition step_price (host : Host) (v : prim) (p : Product) : option Product :=
  match v with
  | PUndefined => Some p
  | _ =>
      if bad_price (parseFloat host v) then None
      else Some (set_field p "price" (PNum (parseFloat host v)))
  end.

(** The three blocks in turn: name, price, image. *)
Definition updated (host : Host) (u : Updates) (p : Product) : option Product :=
  match step_text host "name" (upd_name u) p with
  | Some p1 =>
      match step_price host (upd_price u) p1 with
      | Some p2 => step_text host "image" (upd_image u) p2
      | None => None
      end
  | None => None
  end.

(** A property of an update that is absent or a string, as the form of the
    admin page gives it. *)
Definition text_or_absent (v : prim) : Prop :=
  match v with
  | PUndefined | PStr _ => True
  | _ => False
  end.

End Catalogue.

(** ** An instance of the built-ins of the product store, for evaluation

    [trim] and the conversion of strings to Numbers follow the grammar of
    the language on one-byte characters; [+] rounds the exact sum to the
    nearest binary64 value; [JSON_stringify] prints the text
    [JSON.stringify] prints; [JSON_parse] reads the JSON texts that are an
    array of objects and primitive values, or one of these, the objects
    holding primitive values; [setItem] throws for an item of more than
    5 MiB. *)

Module ExampleBrowser.
Import Js ExampleHost Backend.

Definition string_rev (s : string) : string :=
  string_of_list_ascii (rev (list_ascii_of_string s)).

(** String.prototype.trim *)
Definition trim (s : string) : string :=
  string_rev (trim_start (string_rev (trim_start s))).

(** The binary64 value nearest to a rational. *)
Definition round_Q (q : Q) : number :=
  match Qcompare q 0 with
  | Eq => Fin 0
  | Gt => round_binary64 (Qnum q) (Zpos (Qden q))
  | Lt => negate (round_binary64 (- Qnum q) (Zpos (Qden q)))
  end.

(** [x + y] on Numbers *)
Definition Number_add (x y : number) : number :=
  match x, y with
  | NaN, _ | _, NaN => NaN
  | PosInf, NegInf | NegInf, PosInf => NaN
  | PosInf, _ | _, PosInf => PosInf
  | NegInf, _ | _, NegInf => NegInf
  | Fin a, Fin b => round_Q (a + b)
  end.

(** The value of a digit in a base up to 16. *)
Definition digit_in (base : Z) (c : ascii) : option Z :=
  let n := Z.of_nat (nat_of_ascii c) in
  let d := if ((48 <=? n) && (n <=? 57))%Z then (n - 48)%Z
           else if ((97 <=? n) && (n <=? 102))%Z then (n - 87)%Z
           else if ((65 <=? n) && (n <=? 70))%Z then (n - 55)%Z
           else 16%Z in
  if (d <? base)%Z then Some d else None.

(** A run of digits in [base] up to the end of the string. *)
Fixpoint read_radix (base : Z) (s : string) (acc : Z) : option Z :=
  match s with
  | EmptyString => Some acc
  | String c s' =>
      match digit_in base c with
      | Some d => read_radix base s' (base * acc + d)%Z
      | None => None
      end
  end.

(** NonDecimalIntegerLiteral: 0x, 0o, 0b and digits to the end. *)
Definition non_decimal (s : string) : option number :=
  match s with
  | String "0" (String c (String d rest)) =>
      let base := if (Ascii.eqb c "x" || Ascii.eqb c "X")%bool then 16%Z
                  else if (Ascii.eqb c "o" || Ascii.eqb c "O")%bool then 8%Z
                  else if (Ascii.eqb c "b" || Ascii.eqb c "B")%bool then 2%Z
                  else 0%Z in
      if (base =? 0)%Z then None
      else option_map (fun n => decimal_value n 0) (read_radix base (String d rest) 0)
  | _ => None
  end.

(** An ExponentPart, or nothing, up to the end of the string. *)
Definition exponent_to_end (s : string) : option Z :=
  match s with
  | EmptyString => Some 0%Z
  | String c s' =>
      if (Ascii.eqb c "e" || Ascii.eqb c "E")%bool then
        let '(neg, s'') := read_sign s' in
        match read_digits s'' 0%Z 0 with
        | (ev, S _, EmptyString) => Some (if neg then (- ev)%Z else ev)
        | _ => None
        end
      else None
  end.

(** StrDecimalLiteral up to the end of the string. *)
Definition decimal_to_end (s : string) : number :=
  let '(neg, s1) := read_sign s in
  let v :=
    if String.eqb s1 "Infinity" then PosInf
    else
      let '(m1, c1, rest1) := read_digits s1 0%Z 0 in
      let '(m2, c2, rest2) :=
        match rest1 with
        | String "." rest1' => read_digits rest1' m1 0
        | _ => (m1, 0, rest1)
        end in
      if c1 + c2 =? 0 then NaN
      else match exponent_to_end rest2 with
           | Some e => decimal_value m2 (e - Z.of_nat c2)
           | None => NaN
           end in
  if neg then negate v else v.

(** The conversion of a string to a Number: the whole string is a numeric
    literal between white space, or the result is NaN; the empty string
    is 0. *)
Definition StringToNumber (s : string) : number :=
  let t := trim s in
  if String.length t =? 0 then Fin 0
  else match non_decimal t with
       | Some x => x
       | None => decimal_to_end t
       end.

(** *** JSON.stringify *)

Definition quote : ascii := ascii_of_nat 34.
Definition backslash : ascii := ascii_of_nat 92.

Definition hex_char (n : nat) : ascii :=
  ascii_of_nat (if n <? 10 then 48 + n else 87 + n).

(** QuoteJSONString, without the quotes. *)
Fixpoint escape (s : string) : string :=
  match s with
  | EmptyString => EmptyString
  | String c s' =>
      let n := nat_of_ascii c in
      let rest := escape s' in
      if (n =? 34) || (n =? 92) then String backslash (String c rest)
      else if n =? 8 then String backslash (String "b" rest)
      else if n =? 9 then String backslash (String "t" rest)
      else if n =? 10 then String backslash (String "n" rest)
      else if n =? 12 then String backslash (String "f" rest)
      else if n =? 13 then String backslash (String "r" rest)
      else if n <? 32 then
        String backslash
          (String "u" (String "0" (String "0"
             (String (hex_char (n / 16)) (String (hex_char (n mod 16)) rest)))))
      else String c rest
  end.

Definition quoted (s : string) : string :=
  String quote (escape s ++ String quote EmptyString)%string.

(** The text of a value; [undefined] has none, and NaN and the infinities
    are printed as [null]. *)
Definition value_text (v : prim) : option string :=
  match v with
  | PUndefined => None
  | PNull => Some "null"
  | PBool true => Some "true"
  | PBool false => Some "false"
  | PNum (Fin q) => Some (Number_toString (Fin q))
  | PNum _ => Some "null"
  | PStr s => Some (quoted s)
  end.

(** A property with its value; a property whose value is [undefined] is
    left out. *)
Definition member (key : string) (v : prim) : list string :=
  match value_text v with
  | Some t => [(quoted key ++ ":" ++ t)%string]
  | None => []
  end.

Fixpoint join (sep : string) (l : list string) : string :=
  match l with
  | [] => EmptyString
  | [x] => x
  | x :: rest => (x ++ sep ++ join sep rest)%string
  end.

Definition object_text (p : Product) : string :=
  ("{" ++ join "," (member "id" (prod_id p) ++ member "name" (prod_name p) ++
                    member "price" (prod_price p) ++ member "image" (prod_image p))
       ++ "}")%string.

Definition JSON_stringify (ps : list Product) : string :=
  ("[" ++ join "," (object_text <$> ps) ++ "]")%string.

(** *** JSON.parse *)

Definition is_json_space (c : ascii) : bool :=
  let n := nat_of_ascii c in
  (n =? 9) || (n =? 10) || (n =? 13) || (n =? 32).

Fixpoint skip_space (s : string) : string :=
  match s with
  | String c s' => if is_json_space c then skip_space s' else s
  | EmptyString => s
  end.

(** The character a one-letter escape stands for. *)
Definition unescape (n : nat) : option ascii :=
  if (n =? 34) || (n =? 92) || (n =? 47) then Some (ascii_of_nat n)
  else if n =? 98 then Some (ascii_of_nat 8)
  else if n =? 116 then Some (ascii_of_nat 9)
  else if n =? 110 then Some (ascii_of_nat 10)
  else if n =? 102 then Some (ascii_of_nat 12)
  else if n =? 114 then Some (ascii_of_nat 13)
  else None.

Definition push_char (c : ascii) (r : option (string * string))
    : option (string * string) :=
  match r with
  | Some (t, rest) => Some (String c t, rest)
  | None => None
  end.

(** After the opening quote: the string, and what follows its closing
    quote. *)
Fixpoint read_string (s : string) : option (string * string) :=
  match s with
  | EmptyString => None
  | String c s' =>
      let n := nat_of_ascii c in
      if n =? 34 then Some (EmptyString, s')
      else if n =? 92 then
        match s' with
        | String e s'' =>
            if nat_of_ascii e =? 117 then
              match s'' with
              | String a (String b (String x (String y rest))) =>
                  match digit_in 16 a, digit_in 16 b, digit_in 16 x, digit_in 16 y with
                  | Some 0%Z, Some 0%Z, Some hi, Some lo =>
                      push_char (ascii_of_nat (Z.to_nat (16 * hi + lo)))
                        (read_string rest)
                  | _, _, _, _ => None
                  end
              | _ => None
              end
            else
              match unescape (nat_of_ascii e) with
              | Some ch => push_char ch (read_string s'')
              | None => None
              end
        | EmptyString => None
        end
      else if n <? 32 then None
      else push_char c (read_string s')
  end.

(** A JSON number, and what follows it. *)
Definition read_number (s : string) : option (number * string) :=
  let '(neg, s1) := match s with
                    | String "-" s' => (true, s')
                    | _ => (false, s)
                    end in
  let '(m1, c1, rest1) := read_digits s1 0%Z 0 in
  if (c1 =? 0) || ((1 <? c1) && String.prefix "0" s1) then None
  else
    let fraction :=
      match rest1 with
      | String "." rest1' =>
          match read_digits rest1' m1 0 with
          | (m2, S c2, rest2) => Some (m2, S c2, rest2)
          | _ => None
          end
      | _ => Some (m1, 0, rest1)
      end in
    match fraction with
    | None => None
    | Some (m2, c2, rest2) =>
        let exponent :=
          match rest2 with
          | String c rest2' =>
              if (Ascii.eqb c "e" || Ascii.eqb c "E")%bool then
                let '(eneg, rest3) := read_sign rest2' in
                match read_digits rest3 0%Z 0 with
                | (ev, S _, rest4) => Some (if eneg then (- ev)%Z else ev, rest4)
                | _ => None
                end
              else Some (0%Z, rest2)
          | EmptyString => Some (0%Z, rest2)
          end in
        match exponent with
        | None => None
        | Some (e, rest) =>
            let v := decimal_value m2 (e - Z.of_nat c2) in
            Some (if neg then negate v else v, rest)
        end
    end.

(** [s] without the prefix [p]. *)
Definition strip (p s : string) : option string :=
  if String.prefix p s
  then Some (substring (String.length p) (String.length s - String.length p) s)
  else None.

(** A primitive value, and what follows it. *)
Definition read_value (s : string) : option (prim * string) :=
  match s with
  | EmptyString => None
  | String c s' =>
      if nat_of_ascii c =? 34 then
        match read_string s' with
        | Some (t, rest) => Some (PStr t, rest)
        | None => None
        end
      else
        match strip "true" s, strip "false" s, strip "null" s with
        | Some rest, _, _ => Some (PBool true, rest)
        | _, Some rest, _ => Some (PBool false, rest)
        | _, _, Some rest => Some (PNull, rest)
        | _, _, _ =>
            match read_number s with
            | Some (x, rest) => Some (PNum x, rest)
            | None => None
            end
        end
  end.

(** The members of an object after the first quote was seen to come, up to
    the closing brace. *)
Fixpoint read_members (fuel : nat) (s : string) (acc : list (string * prim))
    : option (list (string * prim) * string) :=
  match fuel with
  | O => None
  | S fuel' =>
      match s with
      | String c s' =>
          if nat_of_ascii c =? 34 then
            match read_string s' with
            | Some (key, r) =>
                match skip_space r with
                | String ":" r1 =>
                    match read_value (skip_space r1) with
                    | Some (v, r2) =>
                        match skip_space r2 with
                        | String "," r3 =>
                            read_members fuel' (skip_space r3) (acc ++ [(key, v)])
                        | String "}" r3 => Some (acc ++ [(key, v)], r3)
                        | _ => None
                        end
                    | None => None
                    end
                | _ => None
                end
            | None => None
            end
          else None
      | EmptyString => None
      end
  end.

(** The value of a property: that of its last member, [undefined] without
    one. *)
Definition property (members : list (string * prim)) (key : string) : prim :=
  fold_left (fun v m => if String.eqb (fst m) key then snd m else v)
    members PUndefined.

Definition object_of (members : list (string * prim)) : Product :=
  new_Product (property members "id") (property members "name")
              (property members "price") (property members "image").

(** An element: an object or a primitive value. *)
Definition read_item (s : string) : option (item * string) :=
  match s with
  | String "{" s' =>
      match skip_space s' with
      | String "}" rest => Some (IObj (object_of []), rest)
      | s'' =>
          match read_members (String.length s) s'' [] with
          | Some (members, rest) => Some (IObj (object_of members), rest)
          | None => None
          end
      end
  | _ =>
      match read_value s with
      | Some (v, rest) => Some (IPrim v, rest)
      | None => None
      end
  end.

(** The elements of an array, up to the closing bracket. *)
Fixpoint read_items (fuel : nat) (s : string) (acc : list item)
    : option (list item * string) :=
  match fuel with
  | O => None
  | S fuel' =>
      match read_item s with
      | Some (i, r) =>
          match skip_space r with
          | String "," r1 => read_items fuel' (skip_space r1) (acc ++ [i])
          | String "]" r1 => Some (acc ++ [i], r1)
          | _ => None
          end
      | None => None
      end
  end.

Definition read_json (s : string) : option (json * string) :=
  match s with
  | String "[" s' =>
      match skip_space s' with
      | String "]" rest => Some (JArray [], rest)
      | s'' =>
          match read_items (String.length s) s'' [] with
          | Some (items, rest) => Some (JArray items, rest)
          | None => None
          end
      end
  | _ =>
      match read_item s with
      | Some (i, rest) => Some (JValue i, rest)
      | None => None
      end
  end.

Definition JSON_parse (s : string) : option json :=
  match read_json (skip_space s) with
  | Some (doc, rest) =>
      if String.length (skip_space rest) =? 0 then Some doc else None
  | None => None
  end.

(** localStorage.setItem throws when the item is larger than 5 MiB. *)
Definition setItem_throws (st : storage) (key value : string) : bool :=
  (5 * 1024 * 1024 <? Z.of_nat (String.length key + String.length value))%Z.

Definition browser : Host := {|
  Backend.parseFloat := ExampleHost.parseFloat;
  Backend.trim := trim;
  Backend.StringToNumber := StringToNumber;
  Backend.Number_add := Number_add;
  Backend.JSON_stringify := JSON_stringify;
  Backend.JSON_parse := JSON_parse;
  Backend.setItem_throws := setItem_throws
|}.

End ExampleBrowser.

(** ** Example storages *)

Module Shops.
Import Js Backend ExampleBrowser Examples.

(** A storage that was never written. *)
Definition unused : storage := ∅.


(** A storage that holds the text of an array with [null] in it. *)
Definition holed : storage := {[ STORAGE_KEY := "[{}, null]" ]}.

(** A storage that holds the text of the two products of [tie_input], and
    another item. *)
Definition small : storage :=
  {[ STORAGE_KEY := ExampleBrowser.JSON_stringify tie_input;
     "grocno_cart" := "[]" ]}.

(** The form of the edit dialogue: a new name and a new price, no image. *)
Definition edit : Updates :=
  {| upd_name := PStr " Second best ";
     upd_price := PStr "99";
     upd_image := PUndefined |}.

(** An update whose name is [null]. *)
Definition bad_edit : Updates :=
  {| upd_name := PNull; upd_price := PUndefined; upd_image := PUndefined |}.

End Shops.

(** * Facts *)

(** ** The reference algorithm: permutation, order, stability, fixpoint *)

Module SorterFacts.
Import Sorter.

Section Facts.
Context {A : Type}.
Variable le : A -> A -> bool.

Lemma merge_nil_l (r : list A) : merge_halves le [] r = r.
Proof. by destruct r. Qed.

Lemma merge_nil_r (l : list A) : merge_halves le l [] = l.
Proof. by destruct l. Qed.

Lemma merge_cons (a b : A) (l r : list A) :
  merge_halves le (a :: l) (b :: r) =
  if le a b then a :: merge_halves le l (b :: r)
  else b :: merge_halves le (a :: l) r.
Proof. reflexivity. Qed.

Lemma merge_perm (l r : list A) : merge_halves le l r ≡ₚ l ++ r.
Proof.
  revert r. induction l as [|a l IHl]; intros r.
  - by rewrite merge_nil_l.
  - induction r as [|b r IHr].
    + by rewrite merge_nil_r, app_nil_r.
    + rewrite merge_cons. destruct (le a b).
      * simpl. by rewrite IHl.
      * rewrite IHr. by rewrite (Permutation_middle (a :: l) r b).
Qed.

Lemma half_lt (n : nat) : 2 <= n -> 1 <= n / 2 /\ n / 2 < n.
Proof.
  intros Hn. split.
  - apply Nat.div_str_pos. lia.
  - apply Nat.div_lt; lia.
Qed.

Lemma sort_n_S (n : nat) (s : list A) :
  sort_n le (S n) s =
  if length s <=? 1 then s
  else merge_halves le (sort_n le n (take (length s / 2) s))
                       (sort_n le n (drop (length s / 2) s)).
Proof. reflexivity. Qed.

Lemma sort_n_perm (n : nat) (s : list A) : sort_n le n s ≡ₚ s.
Proof.
  revert s. induction n as [|n IH]; intros s; [done|].
  rewrite sort_n_S. destruct (length s <=? 1); [done|].
  rewrite merge_perm, !IH. by rewrite take_drop.
Qed.

Lemma sort_perm (s : list A) : sort le s ≡ₚ s.
Proof. apply sort_n_perm. Qed.

(** The bound on the depth does not matter once it covers the length. *)
Lemma sort_n_enough (n m : nat) (s : list A) :
  length s <= n -> length s <= m -> sort_n le n s = sort_n le m s.
Proof.
  revert m s. induction n as [|n IH]; intros m s Hn Hm.
  - destruct s; [|simpl in Hn; lia]. by destruct m.
  - destruct m as [|m].
    { destruct s; [done|simpl in Hm; lia]. }
    rewrite !sort_n_S. destruct (length s <=? 1) eqn:E; [done|].
    apply Nat.leb_gt in E.
    destruct (half_lt (length s)) as [H1 H2]; [lia|].
    f_equal; apply IH; rewrite ?length_take, ?length_drop; lia.
Qed.

(** Unfolding of [sort] on a sequence of length at least 2. *)
Lemma sort_unfold (s : list A) :
  2 <= length s ->
  sort le s = merge_halves le (sort le (take (length s / 2) s))
                              (sort le (drop (length s / 2) s)).
Proof.
  intros Hs. unfold sort at 1.
  rewrite (sort_n_enough (length s) (S (length s)) s), sort_n_S by lia.
  destruct (length s <=? 1) eqn:E1; [apply Nat.leb_le in E1; lia|].
  destruct (half_lt (length s)) as [H1 H2]; [lia|].
  unfold sort. f_equal; apply sort_n_enough;
    rewrite ?length_take, ?length_drop; lia.
Qed.

(** *** Order *)

Variable P : A -> Prop.
Hypothesis le_total : forall a b, P a -> P b -> le a b = false -> le b a = true.


Lemma merge_HdRel (x : A) (l r : list A) :
  HdRel (ordered le) x l -> HdRel (ordered le) x r -> HdRel (ordered le) x (merge_halves le l r).
Proof.
  intros Hl Hr. destruct l as [|a l]; [by rewrite merge_nil_l|].
  destruct r as [|b r]; [by rewrite merge_nil_r|].
  rewrite merge_cons. inversion Hl; inversion Hr; subst.
  destruct (le a b); by constructor.
Qed.

Lemma merge_Sorted (l r : list A) :
  Forall P l -> Forall P r -> Sorted (ordered le) l -> Sorted (ordered le) r ->
  Sorted (ordered le) (merge_halves le l r).
Proof.
  revert r. induction l as [|a l IHl]; intros r Pl Pr Sl Sr.
  - by rewrite merge_nil_l.
  - induction r as [|b r IHr]; [by rewrite merge_nil_r|].
    rewrite merge_cons.
    inversion Pl; inversion Pr; inversion Sl; inversion Sr; subst.
    destruct (le a b) eqn:E.
    + constructor; [by apply IHl|]. apply merge_HdRel; [done|by constructor].
    + constructor; [by apply IHr|]. apply merge_HdRel; [|done].
      constructor. by apply le_total.
Qed.

Lemma sort_n_Sorted (n : nat) (s : list A) :
  length s <= n -> Forall P s -> Sorted (ordered le) (sort_n le n s).
Proof.
  revert s. induction n as [|n IH]; intros s Hn Ps.
  - destruct s; [constructor|simpl in Hn; lia].
  - rewrite sort_n_S. destruct (length s <=? 1) eqn:E.
    + apply Nat.leb_le in E. destruct s as [|a [|b s]]; simpl in E;
        [constructor|repeat constructor|lia].
    + apply Nat.leb_gt in E.
      destruct (half_lt (length s)) as [H1 H2]; [lia|].
      apply merge_Sorted.
      * rewrite sort_n_perm. by apply Forall_take.
      * rewrite sort_n_perm. by apply Forall_drop.
      * apply IH; [rewrite length_take; lia|by apply Forall_take].
      * apply IH; [rewrite length_drop; lia|by apply Forall_drop].
Qed.

Lemma sort_Sorted (s : list A) : Forall P s -> Sorted (ordered le) (sort le s).
Proof. by apply sort_n_Sorted. Qed.

(** In a sorted list, neighbours are in order. *)
Lemma Sorted_adjacent (l : list A) (i : nat) (a b : A) :
  Sorted (ordered le) l -> l !! i = Some a -> l !! (S i) = Some b -> le a b = true.
Proof.
  intros Hs. revert i. induction Hs as [|x l Hs IH Hd]; intros i Ha Hb; [done|].
  destruct i as [|i].
  - simpl in *. injection Ha as ->. destruct l; [done|].
    simpl in Hb. injection Hb as ->. by inversion Hd.
  - simpl in *. by apply (IH i).
Qed.

(** *** Stability and idempotence *)

Hypothesis le_trans : forall a b c, P a -> P b -> P c ->
  le a b = true -> le b c = true -> le a c = true.

Lemma Sorted_strong (l : list A) :
  Forall P l -> Sorted (ordered le) l -> StronglySorted (ordered le) l.
Proof.
  intros Pl Sl. induction Sl as [|a l Sl IH Hd]; [constructor|].
  inversion Pl as [|? ? Pa Pl']; subst.
  specialize (IH Pl'). constructor; [done|].
  destruct Hd as [|b l Hab]; [constructor|].
  inversion IH as [|? ? _ Hall]; subst.
  inversion Pl' as [|? ? Pb Pl'']; subst.
  constructor; [done|].
  rewrite Forall_forall in Hall, Pl'' |- *.
  intros c Hc. apply (le_trans a b c); auto. by apply Hall.
Qed.

Lemma le_refl (a : A) : P a -> le a a = true.
Proof.
  intros Pa. destruct (le a a) eqn:E; [done|].
  pose proof (le_total a a Pa Pa E). congruence.
Qed.

Lemma filter_none (f : A -> bool) (l : list A) :
  (forall y, y ∈ l -> f y = false) -> List.filter f l = [].
Proof.
  induction l as [|a l IH]; intros H; [done|].
  simpl. rewrite (H a) by constructor. apply IH. intros y Hy.
  apply H. by constructor.
Qed.

(** When the head of the right half is emitted first, no element waiting in
    the left half has the key of the emitted one. *)
Lemma left_has_no_tie (x a b : A) (l : list A) :
  P x -> P a -> P b -> Forall P l ->
  StronglySorted (ordered le) (a :: l) ->
  le a b = false -> Store.same_key le x b = true ->
  List.filter (Store.same_key le x) (a :: l) = [].
Proof.
  intros Px Pa Pb Pl Hs Hab Hxb. apply filter_none. intros y Hy.
  destruct (Store.same_key le x y) eqn:Hxy; [|done]. exfalso.
  unfold Store.same_key in Hxb, Hxy.
  apply andb_true_iff in Hxb as [Hxb Hbx].
  apply andb_true_iff in Hxy as [Hxy Hyx].
  assert (Py : P y).
  { apply elem_of_cons in Hy as [->|Hy]; [done|].
    rewrite Forall_forall in Pl. by apply Pl. }
  assert (Hay : le a y = true).
  { apply elem_of_cons in Hy as [->|Hy]; [by apply le_refl|].
    apply StronglySorted_inv in Hs as [_ Hall].
    rewrite Forall_forall in Hall. by apply Hall. }
  assert (le a b = true); [|congruence].
  apply (le_trans a y b); try done.
  by apply (le_trans y x b).
Qed.

Lemma merge_filter (x : A) (l r : list A) :
  P x -> Forall P l -> Forall P r -> StronglySorted (ordered le) l ->
  List.filter (Store.same_key le x) (merge_halves le l r) =
  List.filter (Store.same_key le x) l ++ List.filter (Store.same_key le x) r.
Proof.
  intros Px. revert r. induction l as [|a l IHl]; intros r Pl Pr Sl.
  - by rewrite merge_nil_l.
  - induction r as [|b r IHr]; [by rewrite merge_nil_r, app_nil_r|].
    rewrite merge_cons.
    inversion Pl; inversion Pr; subst.
    destruct (le a b) eqn:E.
    + change (List.filter ?f (a :: ?t)) with
        (if f a then a :: List.filter f t else List.filter f t).
      rewrite IHl; [|done|done|by apply StronglySorted_inv in Sl as []].
      by destruct (Store.same_key le x a).
    + change (List.filter ?f (b :: ?t)) with
        (if f b then b :: List.filter f t else List.filter f t).
      rewrite IHr by done.
      destruct (Store.same_key le x b) eqn:Hxb; [|done].
      by rewrite (left_has_no_tie x a b l).
Qed.

(** Stability: the elements of one key appear in the order of the input. *)
Lemma sort_n_stable (x : A) (n : nat) (s : list A) :
  P x -> length s <= n -> Forall P s ->
  List.filter (Store.same_key le x) (sort_n le n s) =
  List.filter (Store.same_key le x) s.
Proof.
  intros Px. revert s. induction n as [|n IH]; intros s Hn Ps; [done|].
  rewrite sort_n_S. destruct (length s <=? 1) eqn:E; [done|].
  apply Nat.leb_gt in E.
  destruct (half_lt (length s)) as [H1 H2]; [lia|].
  assert (length (take (length s / 2) s) <= n) by (rewrite length_take; lia).
  assert (length (drop (length s / 2) s) <= n) by (rewrite length_drop; lia).
  rewrite merge_filter; try done.
  - rewrite !IH; try done; [|by apply Forall_drop|by apply Forall_take].
    by rewrite <- List.filter_app, take_drop.
  - rewrite sort_n_perm. by apply Forall_take.
  - rewrite sort_n_perm. by apply Forall_drop.
  - apply Sorted_strong.
    + rewrite sort_n_perm. by apply Forall_take.
    + apply sort_n_Sorted; [done|by apply Forall_take].
Qed.

Lemma sort_stable (x : A) (s : list A) :
  P x -> Forall P s ->
  List.filter (Store.same_key le x) (sort le s) =
  List.filter (Store.same_key le x) s.
Proof. intros. by apply sort_n_stable. Qed.

(** Merging two halves that are already in order one after the other. *)
Lemma merge_in_order (l r : list A) :
  (forall a b, a ∈ l -> b ∈ r -> le a b = true) ->
  merge_halves le l r = l ++ r.
Proof.
  revert r. induction l as [|a l IHl]; intros r H; [by rewrite merge_nil_l|].
  destruct r as [|b r]; [by rewrite merge_nil_r, app_nil_r|].
  rewrite merge_cons, (H a b) by constructor.
  simpl. f_equal. apply IHl. intros x y Hx Hy. apply H; [by constructor|done].
Qed.

Lemma sort_n_fixed (n : nat) (s : list A) :
  StronglySorted (ordered le) s -> sort_n le n s = s.
Proof.
  revert s. induction n as [|n IH]; intros s Hs; [done|].
  rewrite sort_n_S. destruct (length s <=? 1); [done|].
  rewrite <- (take_drop (length s / 2) s) in Hs.
  apply StronglySorted_app in Hs as (Hlr & Hl & Hr).
  rewrite !IH by done. rewrite merge_in_order by exact Hlr.
  apply take_drop.
Qed.

(** Idempotence: sorting the output again gives the output. *)
Lemma sort_idempotent (s : list A) :
  Forall P s -> sort le (sort le s) = sort le s.
Proof.
  intros Ps. apply sort_n_fixed, Sorted_strong.
  - by rewrite sort_perm.
  - by apply sort_Sorted.
Qed.

End Facts.
End SorterFacts.

(** ** The functional reading: permutation, agreement with the reference *)

Module FunFacts.
Import Js Fun.

Section Facts.
Context {A : Type}.
Variable cmp : A -> A -> res Z.

Lemma merge_fun_nil_l (r : list A) : merge cmp [] r = Ok r.
Proof. by destruct r. Qed.

Lemma merge_fun_nil_r (l : list A) : merge cmp l [] = Ok l.
Proof. by destruct l. Qed.

Lemma merge_fun_cons (a b : A) (l r : list A) :
  merge cmp (a :: l) (b :: r) =
  res_bind (cmp a b) (fun comparison =>
    if (comparison <=? 0)%Z then res_map (cons a) (merge cmp l (b :: r))
    else res_map (cons b) (merge cmp (a :: l) r)).
Proof. reflexivity. Qed.

Lemma mergeSort_n_S (n : nat) (items : list A) :
  mergeSort_n cmp (S n) items =
  if length items <=? 1 then Ok items
  else
    res_bind (mergeSort_n cmp n (take (length items / 2) items)) (fun sortedLeft =>
    res_bind (mergeSort_n cmp n (drop (length items / 2) items)) (fun sortedRight =>
    merge cmp sortedLeft sortedRight)).
Proof. reflexivity. Qed.

Lemma merge_fun_perm (l r out : list A) :
  merge cmp l r = Ok out -> out ≡ₚ l ++ r.
Proof.
  revert r out. induction l as [|a l IHl]; intros r out.
  - rewrite merge_fun_nil_l. by intros [= ->].
  - revert out. induction r as [|b r IHr]; intros out.
    + rewrite merge_fun_nil_r, app_nil_r. by intros [= ->].
    + rewrite merge_fun_cons. destruct (cmp a b) as [c|]; cbn [res_bind]; [|done].
      destruct (c <=? 0)%Z.
      * destruct (merge cmp l (b :: r)) as [o|] eqn:E; [|done].
        intros [= <-]. simpl. by rewrite (IHl _ _ E).
      * destruct (merge cmp (a :: l) r) as [o|] eqn:E; [|done].
        intros [= <-]. rewrite (IHr o eq_refl).
        by rewrite (Permutation_middle (a :: l) r b).
Qed.

Lemma mergeSort_n_perm (n : nat) (items out : list A) :
  mergeSort_n cmp n items = Ok out -> out ≡ₚ items.
Proof.
  revert items out. induction n as [|n IH]; intros items out.
  - by intros [= ->].
  - rewrite mergeSort_n_S. destruct (length items <=? 1); [by intros [= ->]|].
    destruct (mergeSort_n cmp n (take _ items)) as [sl|] eqn:El; cbn [res_bind]; [|done].
    destruct (mergeSort_n cmp n (drop _ items)) as [sr|] eqn:Er; cbn [res_bind]; [|done].
    intros Hm. rewrite (merge_fun_perm _ _ _ Hm), (IH _ _ El), (IH _ _ Er).
    by rewrite take_drop.
Qed.

Lemma mergeSort_perm (items out : list A) :
  mergeSort cmp items = Ok out -> out ≡ₚ items.
Proof. apply mergeSort_n_perm. Qed.

Lemma mergeSort_n_enough (n m : nat) (items : list A) :
  length items <= n -> length items <= m ->
  mergeSort_n cmp n items = mergeSort_n cmp m items.
Proof.
  revert m items. induction n as [|n IH]; intros m items Hn Hm.
  - destruct items; [|simpl in Hn; lia]. by destruct m.
  - destruct m as [|m].
    { destruct items; [done|simpl in Hm; lia]. }
    rewrite !mergeSort_n_S. destruct (length items <=? 1) eqn:E; [done|].
    apply Nat.leb_gt in E.
    destruct (SorterFacts.half_lt (length items)) as [H1 H2]; [lia|].
    rewrite (IH m (take _ items)), (IH m (drop _ items));
      rewrite ?length_take, ?length_drop; try lia. done.
Qed.

Lemma mergeSort_short (items : list A) :
  length items <= 1 -> mergeSort cmp items = Ok items.
Proof.
  intros H. unfold mergeSort. destruct (length items) eqn:E; [done|].
  rewrite mergeSort_n_S, E. destruct (S n <=? 1) eqn:E1; [done|].
  apply Nat.leb_gt in E1. lia.
Qed.

Lemma mergeSort_unfold (items : list A) :
  2 <= length items ->
  mergeSort cmp items =
  res_bind (mergeSort cmp (take (length items / 2) items)) (fun sortedLeft =>
  res_bind (mergeSort cmp (drop (length items / 2) items)) (fun sortedRight =>
  merge cmp sortedLeft sortedRight)).
Proof.
  intros H. unfold mergeSort at 1.
  rewrite (mergeSort_n_enough (length items) (S (length items)) items) by lia.
  rewrite mergeSort_n_S.
  destruct (length items <=? 1) eqn:E1; [apply Nat.leb_le in E1; lia|].
  destruct (SorterFacts.half_lt (length items)) as [H1 H2]; [lia|].
  unfold mergeSort.
  rewrite (mergeSort_n_enough (length items)
             (length (take (length items / 2) items))),
          (mergeSort_n_enough (length items)
             (length (drop (length items / 2) items)));
    rewrite ?length_take, ?length_drop; try lia. done.
Qed.

(** An error of the sort is the error of one comparison of two elements. *)
Lemma merge_error (l r : list A) (e : error) :
  merge cmp l r = Err e -> exists a b, a ∈ l /\ b ∈ r /\ cmp a b = Err e.
Proof.
  revert r. induction l as [|a l IHl]; intros r.
  - by rewrite merge_fun_nil_l.
  - induction r as [|b r IHr]; [by rewrite merge_fun_nil_r|].
    rewrite merge_fun_cons. destruct (cmp a b) as [c|e'] eqn:Ec; cbn [res_bind].
    + destruct (c <=? 0)%Z.
      * destruct (merge cmp l (b :: r)) eqn:E; [done|]. intros [= ->].
        destruct (IHl _ E) as (x & y & Hx & Hy & Hxy).
        exists x, y. split; [by constructor|done].
      * destruct (merge cmp (a :: l) r) eqn:E; [done|]. intros [= ->].
        destruct (IHr eq_refl) as (x & y & Hx & Hy & Hxy).
        exists x, y. split; [done|]. split; [by constructor|done].
    + intros [= ->]. exists a, b. repeat split; [constructor..|done].
Qed.

Lemma mergeSort_n_error (n : nat) (items : list A) (e : error) :
  mergeSort_n cmp n items = Err e ->
  exists a b, a ∈ items /\ b ∈ items /\ cmp a b = Err e.
Proof.
  revert items. induction n as [|n IH]; intros items; [done|].
  rewrite mergeSort_n_S. destruct (length items <=? 1); [done|].
  destruct (mergeSort_n cmp n (take _ items)) as [sl|] eqn:El; cbn [res_bind].
  - destruct (mergeSort_n cmp n (drop _ items)) as [sr|] eqn:Er; cbn [res_bind].
    + intros Hm. destruct (merge_error _ _ _ Hm) as (a & b & Ha & Hb & Hab).
      exists a, b. repeat split; [| |done].
      * rewrite (mergeSort_n_perm _ _ _ El) in Ha. by apply subseteq_take in Ha.
      * rewrite (mergeSort_n_perm _ _ _ Er) in Hb. by apply subseteq_drop in Hb.
    + intros [= ->]. destruct (IH _ Er) as (a & b & Ha & Hb & Hab).
      exists a, b.
      apply subseteq_drop in Ha, Hb. by repeat split.
  - intros [= ->]. destruct (IH _ El) as (a & b & Ha & Hb & Hab).
    exists a, b.
    apply subseteq_take in Ha, Hb. by repeat split.
Qed.

End Facts.

Section Refines.
Context {A : Type}.
Variable cmp : A -> A -> res Z.
Variable le : A -> A -> bool.

Lemma merge_refines (l r : list A) :
  (forall a b, a ∈ l -> b ∈ r -> decides cmp le a b) ->
  merge cmp l r = Ok (Sorter.merge_halves le l r).
Proof.
  revert r. induction l as [|a l IHl]; intros r H.
  - by rewrite merge_fun_nil_l, SorterFacts.merge_nil_l.
  - induction r as [|b r IHr].
    + by rewrite merge_fun_nil_r, SorterFacts.merge_nil_r.
    + rewrite merge_fun_cons, SorterFacts.merge_cons.
      destruct (H a b) as (z & -> & <-); [constructor..|]. cbn [res_bind].
      destruct (z <=? 0)%Z.
      * rewrite IHl; [done|]. intros x y Hx Hy. apply H; [by constructor|done].
      * rewrite IHr; [done|]. intros x y Hx Hy. apply H; [done|by constructor].
Qed.

Lemma mergeSort_n_refines (n : nat) (items : list A) :
  (forall a b, a ∈ items -> b ∈ items -> decides cmp le a b) ->
  mergeSort_n cmp n items = Ok (Sorter.sort_n le n items).
Proof.
  revert items. induction n as [|n IH]; intros items H; [done|].
  rewrite mergeSort_n_S, SorterFacts.sort_n_S.
  destruct (length items <=? 1); [done|].
  rewrite !IH; cbn [res_bind].
  - apply merge_refines. intros a b Ha Hb.
    rewrite SorterFacts.sort_n_perm in Ha, Hb.
    apply subseteq_take in Ha. apply subseteq_drop in Hb. by apply H.
  - intros a b Ha%subseteq_drop Hb%subseteq_drop. by apply H.
  - intros a b Ha%subseteq_take Hb%subseteq_take. by apply H.
Qed.

Lemma mergeSort_refines (items : list A) :
  (forall a b, a ∈ items -> b ∈ items -> decides cmp le a b) ->
  mergeSort cmp items = Ok (Sorter.sort le items).
Proof. apply mergeSort_n_refines. Qed.

End Refines.

Section Related.
Context {A B : Type}.
Variable R : A -> B -> Prop.
Variable cmpA : A -> A -> res Z.
Variable cmpB : B -> B -> res Z.
Hypothesis cmp_rel : forall a b a' b', R a a' -> R b b' -> cmpA a b = cmpB a' b'.

Lemma res_map_rel (a : A) (a' : B) (x : res (list A)) (y : res (list B)) :
  R a a' -> res_rel (Forall2 R) x y ->
  res_rel (Forall2 R) (res_map (cons a) x) (res_map (cons a') y).
Proof.
  intros Ha. destruct x, y; simpl; try done. by constructor.
Qed.

Lemma merge_rel (l r : list A) (l' r' : list B) :
  Forall2 R l l' -> Forall2 R r r' ->
  res_rel (Forall2 R) (merge cmpA l r) (merge cmpB l' r').
Proof.
  intros Hl. revert r r'.
  induction Hl as [|a a' l l' Ha Hl IHl]; intros r r' Hr.
  - by rewrite !merge_fun_nil_l.
  - induction Hr as [|b b' r r' Hb Hr IHr].
    + rewrite !merge_fun_nil_r. simpl. by constructor.
    + rewrite !merge_fun_cons, (cmp_rel a b a' b') by done.
      destruct (cmpB a' b') as [c|]; cbn [res_bind]; [|done].
      destruct (c <=? 0)%Z.
      * apply res_map_rel; [done|]. apply IHl. by constructor.
      * by apply res_map_rel.
Qed.

Lemma mergeSort_n_rel (n : nat) (l : list A) (l' : list B) :
  Forall2 R l l' ->
  res_rel (Forall2 R) (mergeSort_n cmpA n l) (mergeSort_n cmpB n l').
Proof.
  revert l l'. induction n as [|n IH]; intros l l' Hl; [done|].
  rewrite !mergeSort_n_S, <- (Forall2_length _ _ _ Hl).
  destruct (length l <=? 1); [done|].
  pose proof (IH _ _ (Forall2_take _ _ _ (length l / 2) Hl)) as H1.
  pose proof (IH _ _ (Forall2_drop _ _ _ (length l / 2) Hl)) as H2.
  destruct (mergeSort_n cmpA n (take _ l)), (mergeSort_n cmpB n (take _ l'));
    simpl in H1; try done; cbn [res_bind].
  destruct (mergeSort_n cmpA n (drop _ l)), (mergeSort_n cmpB n (drop _ l'));
    simpl in H2; try done; cbn [res_bind].
  by apply merge_rel.
Qed.

Lemma mergeSort_rel (l : list A) (l' : list B) :
  Forall2 R l l' ->
  res_rel (Forall2 R) (mergeSort cmpA l) (mergeSort cmpB l').
Proof.
  intros Hl. unfold mergeSort. rewrite <- (Forall2_length _ _ _ Hl).
  by apply mergeSort_n_rel.
Qed.

End Related.
End FunFacts.

(** ** Runs of the source functions *)

Module RunFacts.
Import Js Source Store.
Local Open Scope js_scope.

Lemma bind_ok {A B} (m : M A) (k : A -> M B) (h h' : heap) (a : A) :
  m h = Ok (a, h') -> bind m k h = k a h'.
Proof. unfold bind. by intros ->. Qed.

Lemma bind_err {A B} (m : M A) (k : A -> M B) (h : heap) (e : error) :
  m h = Err e -> bind m k h = Err e.
Proof. unfold bind. by intros ->. Qed.

Lemma bind_assoc {A B C} (m : M A) (f : A -> M B) (g : B -> M C) (h : heap) :
  bind (bind m f) g h = bind m (fun x => bind (f x) g) h.
Proof. unfold bind. by destruct (m h) as [[a h']|]. Qed.

Lemma bind_ret {A B} (a : A) (k : A -> M B) (h : heap) :
  bind (ret a) k h = k a h.
Proof. reflexivity. Qed.

(** One step of a run: the operation at the head evaluates by [H]. *)
Ltac mstep H :=
  rewrite ?bind_assoc; rewrite (bind_ok _ _ _ _ _ H); cbn beta iota.

Lemma bind_lift_ok {A B} (a : A) (k : A -> M B) (h : heap) :
  bind (lift (Ok a)) k h = k a h.
Proof. reflexivity. Qed.

Lemma while_S {S} (fuel : nat) (cond : S -> M bool) (body : S -> M S) (s : S) :
  while (Datatypes.S fuel) cond body s =
  (let! c := cond s in
   if c then (let! s' := body s in while fuel cond body s') else ret s).
Proof. reflexivity. Qed.

Lemma array_length_ok (h : heap) (a : loc) (L : list JsVal) :
  h !! a = Some (CArr L) -> array_length a h = Ok (length L, h).
Proof. intros H. unfold array_length, array_elems, bind, ret. by rewrite H. Qed.

Lemma array_get_ok (h : heap) (a : loc) (L : list JsVal) (i : nat) :
  h !! a = Some (CArr L) ->
  array_get a i h = Ok (default (Prim PUndefined) (L !! i), h).
Proof. intros H. unfold array_get, array_elems, bind, ret. by rewrite H. Qed.

Lemma lookup_result (h : heap) (c : cell) : (h ++ [c]) !! length h = Some c.
Proof. by rewrite list_lookup_middle. Qed.

Lemma push_result (h : heap) (acc : list JsVal) (v : JsVal) :
  array_push (length h) v (h ++ [CArr acc]) = Ok (tt, h ++ [CArr (acc ++ [v])]).
Proof.
  unfold array_push. rewrite lookup_result. cbn beta iota.
  rewrite insert_app_r_alt, Nat.sub_diag by lia. done.
Qed.

Lemma read_prop_app (h h' : heap) (v : JsVal) (prop : string) :
  valid h v -> read_prop (h ++ h') v prop = read_prop h v prop.
Proof.
  destruct v as [p|l]; simpl; [done|]. intros Hl. by rewrite lookup_app_l.
Qed.

(** A trailing loop appends what is left of its side. *)
Lemma rest_run (h0 : heap) (src : loc) (xs : list JsVal) (fuel : nat) :
  h0 !! src = Some (CArr xs) ->
  forall (i : nat) (acc : list JsVal),
  length xs - i < fuel ->
  while fuel (rest_cond src) (rest_body src (length h0)) i (h0 ++ [CArr acc]) =
  Ok (Nat.max i (length xs), h0 ++ [CArr (acc ++ drop i xs)]).
Proof.
  intros Hsrc. induction fuel as [|fuel IH]; intros i acc Hf; [lia|].
  assert (Hsrc' : forall acc', (h0 ++ [CArr acc']) !! src = Some (CArr xs)).
  { intros acc'. rewrite lookup_app_l; [done|]. by eapply lookup_lt_Some. }
  rewrite while_S. unfold rest_cond at 1.
  mstep (array_length_ok _ _ _ (Hsrc' acc)). rewrite bind_ret.
  destruct (i <? length xs) eqn:E; cbn beta iota.
  - apply Nat.ltb_lt in E.
    destruct (lookup_lt_is_Some_2 xs i E) as [v Hv].
    unfold rest_body at 1.
    mstep (array_get_ok _ _ _ i (Hsrc' acc)). rewrite Hv. simpl default.
    mstep (push_result h0 acc v). rewrite bind_ret, Nat.add_1_r, IH by lia.
    rewrite (drop_S _ _ _ Hv), <- app_assoc. simpl.
    do 2 f_equal. lia.
  - apply Nat.ltb_ge in E. rewrite drop_ge, app_nil_r by done.
    unfold ret. do 2 f_equal. lia.
Qed.

Lemma read_prop_prefix (hb h : heap) (v : JsVal) (prop : string) :
  hb `prefix_of` h -> valid hb v -> read_prop h v prop = read_prop hb v prop.
Proof. intros [k ->]. apply read_prop_app. Qed.

Lemma get_prop_ok (hb h : heap) (v : JsVal) (prop : string) (p : prim) :
  hb `prefix_of` h -> valid hb v -> read_prop hb v prop = Ok p ->
  get_prop v prop h = Ok (p, h).
Proof.
  intros Hp Hv Hr. unfold get_prop. by rewrite (read_prop_prefix hb), Hr.
Qed.

Lemma get_prop_err (hb h : heap) (v : JsVal) (prop : string) (e : error) :
  hb `prefix_of` h -> valid hb v -> read_prop hb v prop = Err e ->
  get_prop v prop h = Err e.
Proof.
  intros Hp Hv Hr. unfold get_prop. by rewrite (read_prop_prefix hb), Hr.
Qed.

Lemma alloc_ok (c : cell) (h : heap) : alloc c h = Ok (length h, h ++ [c]).
Proof. reflexivity. Qed.

Lemma lookup_ext (h h' : heap) (a : loc) (c : cell) :
  h !! a = Some c -> (h ++ h') !! a = Some c.
Proof. apply lookup_app_l_Some. Qed.

Section Loops.
Variable parseFloat : prim -> number.
Variable localeCompare : string -> prim -> Z.

Lemma keycmp_unfold (h : heap) (sortBy : string) (a b : JsVal) :
  keycmp parseFloat localeCompare h sortBy a b =
  res_bind (read_prop h a sortBy) (fun leftProp =>
  res_bind (read_prop h b sortBy) (fun rightProp =>
  compare_keys parseFloat localeCompare sortBy leftProp rightProp)).
Proof. reflexivity. Qed.

(** The store while merge runs: [hb] holds the elements of both sides, [h0]
    extends it, and [result] is the cell after [h0]. *)
Variables hb h0 : heap.
Hypothesis base : hb `prefix_of` h0.

Variables left right : loc.
Variables L R : list JsVal.
Hypothesis left_arr : h0 !! left = Some (CArr L).
Hypothesis right_arr : h0 !! right = Some (CArr R).
Hypothesis left_valid : Forall (valid hb) L.
Hypothesis right_valid : Forall (valid hb) R.
Variable sortBy : string.

(** The first loop of merge emits a prefix of the merged list and stops
    when one side is consumed. *)
Lemma merge_loop_run (fuel : nat) :
  forall (li ri : nat) (acc : list JsVal),
  (length L - li) + (length R - ri) < fuel ->
  match Fun.merge (keycmp parseFloat localeCompare hb sortBy)
          (drop li L) (drop ri R) with
  | Ok out =>
      exists li' ri' out1,
        while fuel (merge_cond left right)
          (merge_body parseFloat localeCompare left right (length h0) sortBy)
          (li, ri) (h0 ++ [CArr acc]) =
        Ok ((li', ri'), h0 ++ [CArr (acc ++ out1)]) /\
        out = out1 ++ drop li' L ++ drop ri' R
  | Err e =>
      while fuel (merge_cond left right)
        (merge_body parseFloat localeCompare left right (length h0) sortBy)
        (li, ri) (h0 ++ [CArr acc]) = Err e
  end.
Proof.
  induction fuel as [|fuel IH]; intros li ri acc Hf; [lia|].
  assert (Hl : forall acc', (h0 ++ [CArr acc']) !! left = Some (CArr L))
    by (intros; by apply lookup_ext).
  assert (Hr : forall acc', (h0 ++ [CArr acc']) !! right = Some (CArr R))
    by (intros; by apply lookup_ext).
  assert (Hb : forall acc', hb `prefix_of` h0 ++ [CArr acc'])
    by (intros; by apply prefix_app_r).
  rewrite while_S. unfold merge_cond at 1 3.
  mstep (array_length_ok _ _ _ (Hl acc)).
  destruct (li <? length L) eqn:El; cbn beta iota.
  2:{ apply Nat.ltb_ge in El. rewrite bind_ret. cbn beta iota.
      rewrite (drop_ge L li), FunFacts.merge_fun_nil_l by done.
      exists li, ri, []. by rewrite app_nil_r, (drop_ge L li). }
  mstep (array_length_ok _ _ _ (Hr acc)). rewrite bind_ret.
  destruct (ri <? length R) eqn:Er; cbn beta iota.
  2:{ apply Nat.ltb_ge in Er.
      rewrite (drop_ge R ri), FunFacts.merge_fun_nil_r by done.
      exists li, ri, []. by rewrite !app_nil_r, (drop_ge R ri), app_nil_r. }
  apply Nat.ltb_lt in El, Er.
  destruct (lookup_lt_is_Some_2 L li El) as [a Ha].
  destruct (lookup_lt_is_Some_2 R ri Er) as [b Hb'].
  assert (Va : valid hb a).
  { rewrite Forall_forall in left_valid. apply left_valid.
    by eapply list_elem_of_lookup_2. }
  assert (Vb : valid hb b).
  { rewrite Forall_forall in right_valid. apply right_valid.
    by eapply list_elem_of_lookup_2. }
  rewrite (drop_S _ _ _ Ha), (drop_S _ _ _ Hb'), FunFacts.merge_fun_cons.
  rewrite keycmp_unfold. unfold merge_body at 1 3.
  mstep (array_get_ok _ _ _ li (Hl acc)). rewrite Ha. simpl default.
  destruct (read_prop hb a sortBy) as [leftProp|e] eqn:Elp; cbn [res_bind].
  2:{ rewrite ?bind_assoc. apply bind_err.
      by apply (get_prop_err hb); [apply Hb|..]. }
  mstep (get_prop_ok hb _ a sortBy leftProp (Hb acc) Va Elp).
  mstep (array_get_ok _ _ _ ri (Hr acc)). rewrite Hb'. simpl default.
  destruct (read_prop hb b sortBy) as [rightProp|e] eqn:Erp; cbn [res_bind].
  2:{ rewrite ?bind_assoc. apply bind_err.
      by apply (get_prop_err hb); [apply Hb|..]. }
  mstep (get_prop_ok hb _ b sortBy rightProp (Hb acc) Vb Erp).
  rewrite ?bind_assoc.
  destruct (compare_keys parseFloat localeCompare sortBy leftProp rightProp)
    as [c|e]; cbn [res_bind]; [|done].
  rewrite !bind_lift_ok.
  destruct (c <=? 0)%Z.
  - mstep (push_result h0 acc a). rewrite bind_ret, Nat.add_1_r.
    specialize (IH (S li) ri (acc ++ [a])).
    rewrite (drop_S _ _ _ Hb') in IH.
    destruct (Fun.merge _ (drop (S li) L) (b :: drop (S ri) R)) as [out|e];
      cbn [res_map].
    + destruct IH as (li' & ri' & out1 & Hw & ->); [lia|].
      exists li', ri', (a :: out1). rewrite Hw. by rewrite <- app_assoc.
    + apply IH. lia.
  - mstep (push_result h0 acc b). rewrite bind_ret, Nat.add_1_r.
    specialize (IH li (S ri) (acc ++ [b])).
    rewrite (drop_S _ _ _ Ha) in IH.
    destruct (Fun.merge _ (a :: drop (S li) L) (drop (S ri) R)) as [out|e];
      cbn [res_map].
    + destruct IH as (li' & ri' & out1 & Hw & ->); [lia|].
      exists li', ri', (b :: out1). rewrite Hw. by rewrite <- app_assoc.
    + apply IH. lia.
Qed.

(** merge allocates one cell, the result, and fills it with the merged
    list; it raises the error of the first comparison that fails. *)
Lemma merge_run (fuel : nat) :
  length L + length R < fuel ->
  merge parseFloat localeCompare fuel left right sortBy h0 =
  match Fun.merge (keycmp parseFloat localeCompare hb sortBy) L R with
  | Ok out => Ok (length h0, h0 ++ [CArr out])
  | Err e => Err e
  end.
Proof.
  intros Hf. unfold merge. mstep (alloc_ok (CArr []) h0).
  pose proof (merge_loop_run fuel 0 0 [] ltac:(lia)) as Hloop.
  rewrite !drop_0 in Hloop.
  destruct (Fun.merge _ L R) as [out|e].
  - destruct Hloop as (li & ri & out1 & Hw & ->).
    mstep Hw. simpl app at 1.
    mstep (rest_run h0 left L fuel left_arr li out1 ltac:(lia)).
    mstep (rest_run h0 right R fuel right_arr ri (out1 ++ drop li L) ltac:(lia)).
    unfold ret. by rewrite <- app_assoc.
  - rewrite ?bind_assoc. by apply bind_err.
Qed.

End Loops.

Lemma array_slice_ok (h : heap) (a : loc) (L : list JsVal) (start stop : nat) :
  h !! a = Some (CArr L) ->
  array_slice a start stop h =
  Ok (length h,
      h ++ [CArr (take (Nat.min stop (length L) - start) (drop start L))]).
Proof. intros H. unfold array_slice, array_elems, bind, alloc. by rewrite H. Qed.

Lemma array_slice_from_ok (h : heap) (a : loc) (L : list JsVal) (start : nat) :
  h !! a = Some (CArr L) ->
  array_slice_from a start h = Ok (length h, h ++ [CArr (drop start L)]).
Proof.
  intros H. unfold array_slice_from, array_elems, bind, alloc. by rewrite H.
Qed.

Section Sort.
Variable parseFloat : prim -> number.
Variable localeCompare : string -> prim -> Z.

Lemma mergeSort_S (fuel : nat) (items : loc) (sortBy : string) :
  mergeSort parseFloat localeCompare (S fuel) items sortBy =
  (let! len := array_length items in
   if len <=? 1 then ret items
   else
     let! left := array_slice items 0 (len / 2) in
     let! right := array_slice_from items (len / 2) in
     let! sortedLeft := mergeSort parseFloat localeCompare fuel left sortBy in
     let! sortedRight := mergeSort parseFloat localeCompare fuel right sortBy in
     merge parseFloat localeCompare fuel sortedLeft sortedRight sortBy).
Proof. reflexivity. Qed.

(** mergeSort on the array at [items] computes the functional mergeSort of
    its elements, leaves every cell of the store as it was, and returns
    either [items] itself (length at most 1) or a new array. *)
Lemma mergeSort_run (hb : heap) (sortBy : string) (fuel : nat) :
  forall (h : heap) (items : loc) (L : list JsVal),
  hb `prefix_of` h -> h !! items = Some (CArr L) -> Forall (valid hb) L ->
  length L + 2 <= fuel ->
  match Fun.mergeSort (keycmp parseFloat localeCompare hb sortBy) L with
  | Ok out =>
      exists r hy,
        mergeSort parseFloat localeCompare fuel items sortBy h = Ok (r, h ++ hy) /\
        (h ++ hy) !! r = Some (CArr out) /\
        (r = items \/ length h <= r)
  | Err e => mergeSort parseFloat localeCompare fuel items sortBy h = Err e
  end.
Proof.
  induction fuel as [|fuel IH]; intros h items L Hb Hit HL Hf; [lia|].
  rewrite mergeSort_S. mstep (array_length_ok _ _ _ Hit).
  destruct (length L <=? 1) eqn:E.
  { apply Nat.leb_le in E. rewrite FunFacts.mergeSort_short by done.
    exists items, []. rewrite app_nil_r. unfold ret. auto. }
  apply Nat.leb_gt in E. rewrite FunFacts.mergeSort_unfold by lia.
  destruct (SorterFacts.half_lt (length L)) as [Hm1 Hm2]; [lia|].
  set (mid := length L / 2) in *.
  mstep (array_slice_ok h items L 0 mid Hit).
  rewrite Nat.min_l, Nat.sub_0_r, drop_0 by lia.
  set (h1 := h ++ [CArr (take mid L)]).
  mstep (array_slice_from_ok h1 items L mid (lookup_ext _ _ _ _ Hit)).
  set (h2 := h1 ++ [CArr (drop mid L)]).
  assert (Hb2 : hb `prefix_of` h2) by (by do 2 apply prefix_app_r).
  pose proof (IH h2 (length h) (take mid L) Hb2
    (lookup_ext _ _ _ _ (lookup_result h _)) (Forall_take _ _ _ HL)) as IHl.
  rewrite length_take in IHl. specialize (IHl ltac:(lia)).
  destruct (Fun.mergeSort _ (take mid L)) as [sl|e] eqn:Esl; cbn [res_bind].
  2:{ rewrite ?bind_assoc. by apply bind_err. }
  destruct IHl as (r1 & hy1 & Hrun1 & Hlk1 & _). mstep Hrun1.
  pose proof (IH (h2 ++ hy1) (length h1) (drop mid L)
    (prefix_app_r _ _ _ Hb2)
    (lookup_ext _ _ _ _ (lookup_result h1 _)) (Forall_drop _ _ _ HL)) as IHr.
  rewrite length_drop in IHr. specialize (IHr ltac:(lia)).
  destruct (Fun.mergeSort _ (drop mid L)) as [sr|e] eqn:Esr; cbn [res_bind].
  2:{ rewrite ?bind_assoc. by apply bind_err. }
  destruct IHr as (r2 & hy2 & Hrun2 & Hlk2 & _). mstep Hrun2.
  pose proof (FunFacts.mergeSort_perm _ _ _ Esl) as Psl.
  pose proof (FunFacts.mergeSort_perm _ _ _ Esr) as Psr.
  rewrite (merge_run parseFloat localeCompare hb _
             (prefix_app_r _ _ _ (prefix_app_r _ _ _ Hb2)) r1 r2 sl sr).
  - destruct (Fun.merge _ sl sr) as [out|e]; [|done].
    exists (length ((h2 ++ hy1) ++ hy2)),
           ([CArr (take mid L)] ++ [CArr (drop mid L)] ++ hy1 ++ hy2 ++ [CArr out]).
    split; [|split].
    + unfold h2, h1. by rewrite <- !app_assoc.
    + replace (h ++ _) with (((h2 ++ hy1) ++ hy2) ++ [CArr out])
        by (unfold h2, h1; by rewrite <- !app_assoc).
      apply lookup_result.
    + right. unfold h2, h1. rewrite !length_app. lia.
  - by apply lookup_ext.
  - done.
  - rewrite Psl. by apply Forall_take.
  - rewrite Psr. by apply Forall_drop.
  - rewrite Psl, Psr, length_take, length_drop. lia.
Qed.

End Sort.

(** *** Copying the products *)

Lemma get_field_eta (p : Product) :
  new_Product (get_field p "id") (get_field p "name")
              (get_field p "price") (get_field p "image") = p.
Proof. by destruct p. Qed.

Lemma record_of_inv (h : heap) (v : JsVal) (p : Product) :
  record_of h v = Some p -> exists l, v = Ref l /\ h !! l = Some (CObj p).
Proof.
  destruct v as [|l]; simpl; [done|].
  destruct (h !! l) as [[q|]|] eqn:E; try done. intros [= ->]. eauto.
Qed.

Lemma record_of_valid (h : heap) (v : JsVal) (p : Product) :
  record_of h v = Some p -> valid h v.
Proof.
  intros (l & -> & Hl)%record_of_inv. simpl. by eapply lookup_lt_Some.
Qed.

Lemma record_of_read (h : heap) (v : JsVal) (p : Product) (prop : string) :
  record_of h v = Some p -> read_prop h v prop = Ok (get_field p prop).
Proof. intros (l & -> & Hl)%record_of_inv. simpl. by rewrite Hl. Qed.

Lemma record_of_app (h h' : heap) (v : JsVal) (p : Product) :
  record_of h v = Some p -> record_of (h ++ h') v = Some p.
Proof.
  intros (l & -> & Hl)%record_of_inv. simpl.
  by rewrite (lookup_app_l_Some _ _ _ _ Hl).
Qed.

Lemma records_Forall2 (h : heap) (elems : list JsVal) (ps : list Product) :
  records h elems = Some ps <->
  Forall2 (fun v p => record_of h v = Some p) elems ps.
Proof. apply mapM_Some. Qed.

Lemma array_records_inv (h : heap) (a : loc) (ps : list Product) :
  array_records h a = Some ps ->
  exists elems, h !! a = Some (CArr elems) /\ records h elems = Some ps.
Proof.
  unfold array_records. destruct (h !! a) as [[|elems]|]; try done. eauto.
Qed.

Lemma copy_product_run (hb h : heap) (v : JsVal) (p : Product) :
  hb `prefix_of` h -> record_of hb v = Some p ->
  copy_product v h = Ok (Ref (length h), h ++ [CObj p]).
Proof.
  intros Hb Hv. pose proof (record_of_valid _ _ _ Hv) as Vv.
  unfold copy_product.
  mstep (get_prop_ok hb h v "id" _ Hb Vv (record_of_read _ _ _ _ Hv)).
  mstep (get_prop_ok hb h v "name" _ Hb Vv (record_of_read _ _ _ _ Hv)).
  mstep (get_prop_ok hb h v "price" _ Hb Vv (record_of_read _ _ _ _ Hv)).
  mstep (get_prop_ok hb h v "image" _ Hb Vv (record_of_read _ _ _ _ Hv)).
  mstep (alloc_ok (CObj (new_Product (get_field p "id") (get_field p "name")
                           (get_field p "price") (get_field p "image"))) h).
  unfold ret. by rewrite get_field_eta.
Qed.

Lemma push_middle (h rest : heap) (acc : list JsVal) (v : JsVal) :
  array_push (length h) v (h ++ CArr acc :: rest) =
  Ok (tt, h ++ CArr (acc ++ [v]) :: rest).
Proof.
  unfold array_push. rewrite list_lookup_middle by done. cbn beta iota.
  rewrite insert_app_r_alt, Nat.sub_diag by lia. done.
Qed.

Lemma map_loop_run (h : heap) (elems : list JsVal) (ps : list Product) :
  Forall2 (fun v p => record_of h v = Some p) elems ps ->
  forall done : list Product,
  map_loop copy_product elems (length h) (copied h done) =
  Ok (tt, copied h (done ++ ps)).
Proof.
  induction 1 as [|v p elems ps Hv Hrest IH]; intros done.
  - simpl. unfold ret. by rewrite app_nil_r.
  - simpl map_loop.
    assert (Hb : h `prefix_of` copied h done) by apply prefix_app_r, reflexivity.
    mstep (copy_product_run h _ v p Hb Hv).
    replace (copied h done ++ [CObj p]) with
      (h ++ CArr (Ref <$> seq (S (length h)) (length done)) :: (CObj <$> (done ++ [p]))).
    2:{ unfold copied. by rewrite fmap_app, <- app_assoc. }
    mstep (push_middle h (CObj <$> (done ++ [p]))
             (Ref <$> seq (S (length h)) (length done))
             (Ref (length (copied h done)))).
    replace (h ++ _ :: _) with (copied h (done ++ [p])).
    + rewrite IH. by rewrite <- app_assoc.
    + unfold copied. rewrite !length_app. simpl length.
      rewrite length_fmap, Nat.add_1_r, seq_S, fmap_app. simpl.
      by rewrite Nat.add_succ_r.
Qed.

Lemma array_elems_ok (h : heap) (a : loc) (L : list JsVal) :
  h !! a = Some (CArr L) -> array_elems a h = Ok (L, h).
Proof. intros H. unfold array_elems. by rewrite H. Qed.

Lemma Array_map_run (h : heap) (a : loc) (elems : list JsVal) (ps : list Product) :
  h !! a = Some (CArr elems) -> records h elems = Some ps ->
  Array_map copy_product a h = Ok (length h, copied h ps).
Proof.
  intros Ha Hps%records_Forall2. unfold Array_map.
  mstep (array_elems_ok _ _ _ Ha). mstep (alloc_ok (CArr []) h).
  change (h ++ [CArr []]) with (copied h []).
  by mstep (map_loop_run h elems ps Hps []).
Qed.

Lemma copied_records_from (pre : heap) (ps : list Product) :
  Forall2 (fun v p => record_of (pre ++ (CObj <$> ps)) v = Some p)
    (Ref <$> seq (length pre) (length ps)) ps.
Proof.
  revert pre. induction ps as [|p ps IH]; intros pre; [constructor|].
  rewrite fmap_cons. change (length (p :: ps)) with (S (length ps)).
  rewrite <- cons_seq, fmap_cons. constructor.
  - unfold record_of. by rewrite list_lookup_middle.
  - specialize (IH (pre ++ [CObj p])).
    rewrite length_app, Nat.add_1_r, <- app_assoc in IH. exact IH.
Qed.

(** The copies denote the records of the input, in the same order. *)
Lemma copied_records (h : heap) (ps : list Product) :
  Forall2 (fun v p => record_of (copied h ps) v = Some p)
    (Ref <$> seq (S (length h)) (length ps)) ps.
Proof.
  pose proof (copied_records_from (h ++ [CArr (Ref <$> seq (S (length h)) (length ps))]) ps) as H.
  rewrite length_app, Nat.add_1_r, <- app_assoc in H. exact H.
Qed.

(** *** sortByPrice and sortByName *)

Lemma as_array_ok (h : heap) (a : loc) (L : list JsVal) :
  h !! a = Some (CArr L) -> as_array (Ref a) h = Ok (Some a, h).
Proof. intros H. unfold as_array, Array_isArray, bind, ret. by rewrite H. Qed.

Lemma as_array_prim (h : heap) (p : prim) : as_array (Prim p) h = Ok (None, h).
Proof. reflexivity. Qed.

Lemma as_array_object (h : heap) (l : loc) (p : Product) :
  h !! l = Some (CObj p) -> as_array (Ref l) h = Ok (None, h).
Proof. intros H. unfold as_array, Array_isArray, bind, ret. by rewrite H. Qed.

Lemma copies_fresh (h : heap) (n : nat) (out : list JsVal) :
  out ≡ₚ Ref <$> seq (S (length h)) n ->
  Forall (fun v => match v with Ref l => length h <= l | Prim _ => False end) out.
Proof.
  intros ->. rewrite Forall_fmap, Forall_forall. intros l Hl. simpl.
  apply elem_of_seq in Hl. lia.
Qed.

Section Products.
Variable parseFloat : prim -> number.
Variable localeCompare : string -> prim -> Z.

Lemma keycmp_product (h : heap) (sortBy : string) (v w : JsVal) (p q : Product) :
  record_of h v = Some p -> record_of h w = Some q ->
  keycmp parseFloat localeCompare h sortBy v w =
  product_cmp parseFloat localeCompare sortBy p q.
Proof.
  intros Hv Hw. unfold keycmp, product_cmp.
  by rewrite (record_of_read _ _ _ _ Hv), (record_of_read _ _ _ _ Hw).
Qed.

(** The common run of sortByPrice and sortByName on an array of records:
    the records of the result are the functional mergeSort of the records
    of the input; the store is only extended; the result and its elements
    are new. *)
Lemma sort_products_run (sortBy : string) (fuel : nat) (h : heap) (a : loc)
    (ps : list Product) :
  array_records h a = Some ps -> length ps + 2 <= fuel ->
  match Fun.mergeSort (product_cmp parseFloat localeCompare sortBy) ps with
  | Ok out =>
      exists r hy,
        sort_products parseFloat localeCompare sortBy fuel (Ref a) h =
          Ok (r, h ++ hy) /\
        array_records (h ++ hy) r = Some out /\
        length h <= r /\
        fresh_elems h (h ++ hy) r
  | Err e =>
      sort_products parseFloat localeCompare sortBy fuel (Ref a) h = Err e
  end.
Proof.
  intros (elems & Ha & Hps)%array_records_inv Hf.
  pose proof (Forall2_length _ _ _ (proj1 (records_Forall2 _ _ _) Hps)) as Hlen.
  unfold sort_products. mstep (as_array_ok _ _ _ Ha).
  mstep (array_length_ok _ _ _ Ha).
  destruct (length elems =? 0) eqn:E.
  { apply Nat.eqb_eq in E. rewrite E in Hlen.
    destruct ps; [|done]. simpl.
    exists (length h), [CArr []]. rewrite alloc_ok.
    unfold array_records, fresh_elems. rewrite lookup_result.
    repeat split; [done|]. exists []. by split. }
  mstep (Array_map_run _ _ _ _ Ha Hps).
  set (copies := Ref <$> seq (S (length h)) (length ps)).
  pose proof (copied_records h ps) as Hcopies. fold copies in Hcopies.
  assert (Hlk : copied h ps !! length h = Some (CArr copies))
    by (unfold copied; by rewrite list_lookup_middle).
  assert (Hvalid : Forall (valid (copied h ps)) copies).
  { apply Forall2_Forall_l with (1 := Hcopies). apply Forall_true.
    intros v p. apply record_of_valid. }
  assert (length copies = length ps) as Hlc
    by (unfold copies; by rewrite length_fmap, length_seq).
  pose proof (mergeSort_run parseFloat localeCompare (copied h ps) sortBy fuel
    (copied h ps) (length h) copies (reflexivity _) Hlk Hvalid ltac:(lia)) as Hrun.
  pose proof (FunFacts.mergeSort_rel
    (fun v p => record_of (copied h ps) v = Some p)
    (keycmp parseFloat localeCompare (copied h ps) sortBy)
    (product_cmp parseFloat localeCompare sortBy)
    (fun v w p q Hv Hw => keycmp_product _ sortBy v w p q Hv Hw)
    copies ps Hcopies) as Hrel.
  destruct (Fun.mergeSort (keycmp _ _ _ _) copies) as [out|e] eqn:Eout,
           (Fun.mergeSort (product_cmp _ _ _) ps) as [outps|e'];
    simpl in Hrel; try done; [|by subst].
  destruct Hrun as (r & hy & Hrun & Hr & Hfresh).
  exists r, (CArr copies :: (CObj <$> ps) ++ hy).
  replace (h ++ CArr copies :: (CObj <$> ps) ++ hy) with (copied h ps ++ hy)
    by (unfold copied; by rewrite <- app_assoc).
  split; [done|]. split; [|split].
  - unfold array_records. rewrite Hr. apply records_Forall2.
    eapply Forall2_impl; [exact Hrel|]. intros v p. apply record_of_app.
  - destruct Hfresh as [->|Hge]; [done|].
    unfold copied in Hge. rewrite length_app in Hge. lia.
  - exists out. split; [done|].
    apply (copies_fresh h (length ps)). by apply FunFacts.mergeSort_perm in Eout.
Qed.

End Products.

(** *** One iteration of the loops of merge *)

Section Steps.
Variable parseFloat : prim -> number.
Variable localeCompare : string -> prim -> Z.

(** One iteration of the first loop: the side whose head is emitted
    advances by one, the emitted head is pushed on [result]. *)
Lemma merge_body_run (left right result : loc) (sortBy : string) (li ri : nat)
    (h : heap) (L R acc : list JsVal) (x y : JsVal) (c : Z) :
  h !! left = Some (CArr L) -> h !! right = Some (CArr R) ->
  h !! result = Some (CArr acc) ->
  L !! li = Some x -> R !! ri = Some y ->
  keycmp parseFloat localeCompare h sortBy x y = Ok c ->
  merge_body parseFloat localeCompare left right result sortBy (li, ri) h =
  if (c <=? 0)%Z
  then Ok ((li + 1, ri), <[result := CArr (acc ++ [x])]> h)
  else Ok ((li, ri + 1), <[result := CArr (acc ++ [y])]> h).
Proof.
  intros Hl Hr Hres Hx Hy Hc. unfold keycmp in Hc.
  destruct (read_prop h x sortBy) as [lp|] eqn:Elp; [|done].
  destruct (read_prop h y sortBy) as [rp|] eqn:Erp; [|done].
  cbn [res_bind] in Hc. unfold merge_body.
  mstep (array_get_ok _ _ _ li Hl). rewrite Hx. simpl default.
  mstep (get_prop_ok h h x sortBy lp (reflexivity _)
           ltac:(destruct x as [|l]; simpl; [done|]; simpl in Elp;
                 destruct (h !! l) eqn:E; [by eapply lookup_lt_Some|done]) Elp).
  mstep (array_get_ok _ _ _ ri Hr). rewrite Hy. simpl default.
  mstep (get_prop_ok h h y sortBy rp (reflexivity _)
           ltac:(destruct y as [|l]; simpl; [done|]; simpl in Erp;
                 destruct (h !! l) eqn:E; [by eapply lookup_lt_Some|done]) Erp).
  rewrite ?bind_assoc, Hc, bind_lift_ok.
  unfold bind, array_push, ret.
  destruct (c <=? 0)%Z; by rewrite Hres.
Qed.

(** Whatever the heads are, an iteration that completes advances exactly
    one of the two indices by one. *)
Lemma merge_body_advances (left right result : loc) (sortBy : string)
    (li ri li' ri' : nat) (h h' : heap) :
  merge_body parseFloat localeCompare left right result sortBy (li, ri) h =
    Ok ((li', ri'), h') ->
  (li' = li + 1 /\ ri' = ri) \/ (li' = li /\ ri' = ri + 1).
Proof.
  unfold merge_body, bind, array_get, array_elems, get_prop, lift, array_push, ret.
  repeat (case_match; try done); intros [= <- <- <-]; auto.
Qed.

Lemma merge_cond_true (left right : loc) (li ri : nat) (h h' : heap)
    (L R : list JsVal) :
  h !! left = Some (CArr L) -> h !! right = Some (CArr R) ->
  merge_cond left right (li, ri) h = Ok (true, h') ->
  li < length L /\ ri < length R.
Proof.
  intros Hl Hr. unfold merge_cond. mstep (array_length_ok _ _ _ Hl).
  destruct (li <? length L) eqn:El; [|done].
  mstep (array_length_ok _ _ _ Hr). unfold ret.
  intros [= Er _]. apply Nat.ltb_lt in El, Er. done.
Qed.

End Steps.

Lemma rest_body_advances (src result : loc) (i i' : nat) (h h' : heap) :
  rest_body src result i h = Ok (i', h') -> i' = i + 1.
Proof.
  unfold rest_body, bind, array_get, array_elems, array_push, ret.
  repeat (case_match; try done); by intros [= <- <-].
Qed.

Lemma rest_cond_true (src : loc) (i : nat) (h h' : heap) (xs : list JsVal) :
  h !! src = Some (CArr xs) -> rest_cond src i h = Ok (true, h') ->
  i < length xs.
Proof.
  intros Hs. unfold rest_cond. mstep (array_length_ok _ _ _ Hs). unfold ret.
  intros [= E _]. by apply Nat.ltb_lt in E.
Qed.

Lemma array_records_app (h hy : heap) (a : loc) (ps : list Product) :
  array_records h a = Some ps -> array_records (h ++ hy) a = Some ps.
Proof.
  intros (elems & Ha & Hps)%array_records_inv. unfold array_records.
  rewrite (lookup_ext _ _ _ _ Ha). apply records_Forall2.
  apply records_Forall2 in Hps.
  eapply Forall2_impl; [exact Hps|]. intros v p. apply record_of_app.
Qed.

Lemma read_prop_error (h : heap) (v : JsVal) (prop : string) (e : error) :
  valid h v -> read_prop h v prop = Err e -> e = TypeError.
Proof.
  destruct v as [[]|l]; simpl; try done; try by intros _ [= <-].
  intros Hl. destruct (lookup_lt_is_Some_2 h l Hl) as [c ->]. by destruct c.
Qed.

Lemma keycmp_error (parseFloat : prim -> number)
    (localeCompare : string -> prim -> Z) (h : heap) (sortBy : string)
    (a b : JsVal) (e : error) :
  valid h a -> valid h b ->
  keycmp parseFloat localeCompare h sortBy a b = Err e -> e = TypeError.
Proof.
  intros Va Vb. unfold keycmp.
  destruct (read_prop h a sortBy) as [lp|e1] eqn:Ea; cbn [res_bind].
  2:{ intros [= <-]. by apply (read_prop_error h a sortBy). }
  destruct (read_prop h b sortBy) as [rp|e2] eqn:Eb; cbn [res_bind].
  2:{ intros [= <-]. by apply (read_prop_error h b sortBy). }
  unfold compare_keys. destruct (String.eqb sortBy "price"); [done|].
  destruct lp; try done; by intros [= <-].
Qed.
End RunFacts.

(** ** The contract on arrays of records *)

Module SortFacts.
Import Js Store Contract.

(** *** The order on Numbers *)

Lemma num_leb_total (x y : number) :
  isNaN x = false -> isNaN y = false -> num_leb x y = false -> num_leb y x = true.
Proof.
  destruct x as [| |a|], y as [| |b|]; simpl; try done.
  intros _ _ H. apply Qle_bool_iff, Qlt_le_weak, Qnot_le_lt.
  intros Hab%Qle_bool_iff. congruence.
Qed.

Lemma num_leb_trans (x y z : number) :
  num_leb x y = true -> num_leb y z = true -> num_leb x z = true.
Proof.
  destruct x as [| |a|], y as [| |b|], z as [| |c|]; simpl; try done.
  rewrite !Qle_bool_iff. apply Qle_trans.
Qed.

Section Keys.
Variable parseFloat : prim -> number.
Variable localeCompare : string -> prim -> Z.

Lemma sort_eq (k : Key) :
  sort parseFloat localeCompare k =
  Source.sort_products parseFloat localeCompare (key_name k).
Proof. by destruct k. Qed.

Lemma key_decides (k : Key) (p q : Product) :
  comparable k p ->
  Fun.decides (product_cmp parseFloat localeCompare (key_name k))
    (key_le parseFloat localeCompare k) p q.
Proof.
  destruct k; simpl; intros Hp.
  - eexists. split; [reflexivity|]. unfold price_le.
    change (get_field p "price") with (prod_price p).
    change (get_field q "price") with (prod_price q).
    by destruct (num_leb _ _).
  - unfold Fun.decides, product_cmp, name_ok, name_le in *.
    change (get_field p "name") with (prod_name p).
    change (get_field q "name") with (prod_name q).
    unfold Source.compare_keys. simpl String.eqb. cbn iota.
    destruct (prod_name p); try done. by eexists.
Qed.

Lemma key_ok_comparable (k : Key) (p : Product) :
  key_ok parseFloat k p -> comparable k p.
Proof. by destruct k. Qed.

Lemma key_le_total (k : Key) (p q : Product) :
  comparator_total localeCompare k ->
  key_ok parseFloat k p -> key_ok parseFloat k q ->
  key_le parseFloat localeCompare k p q = false ->
  key_le parseFloat localeCompare k q p = true.
Proof.
  destruct k; simpl.
  - intros _. apply num_leb_total.
  - unfold name_ok, name_le. intros Htot.
    destruct (prod_name p) as [| | | |s], (prod_name q) as [| | | |t]; try done.
    intros _ _ H%Z.leb_gt. by apply Z.leb_le, Htot.
Qed.

Lemma key_le_trans (k : Key) (p q r : Product) :
  comparator_ok localeCompare k ->
  key_ok parseFloat k p -> key_ok parseFloat k q -> key_ok parseFloat k r ->
  key_le parseFloat localeCompare k p q = true ->
  key_le parseFloat localeCompare k q r = true ->
  key_le parseFloat localeCompare k p r = true.
Proof.
  destruct k; simpl.
  - intros _ _ _ _. apply num_leb_trans.
  - unfold name_ok, name_le. intros [_ Htr].
    destruct (prod_name p) as [| | | |s], (prod_name q) as [| | | |t],
             (prod_name r) as [| | | |u]; try done.
    intros _ _ _ H1%Z.leb_le H2%Z.leb_le. apply Z.leb_le. by eapply Htr.
Qed.

Lemma comparator_ok_total (k : Key) :
  comparator_ok localeCompare k -> comparator_total localeCompare k.
Proof. destruct k; simpl; [done|]. by intros []. Qed.

(** On records that compare without error, the sort returns the records in
    the order of the reference algorithm, in a new array of new elements,
    and leaves the store it found in place. *)
Lemma sort_run (k : Key) (fuel : nat) (h : heap) (a : loc) (ps : list Product) :
  array_records h a = Some ps -> Forall (comparable k) ps ->
  length ps + 2 <= fuel ->
  exists r hy,
    sorts_to parseFloat localeCompare k fuel h a r (h ++ hy)
      (Sorter.sort (key_le parseFloat localeCompare k) ps) /\
    length h <= r /\ fresh_elems h (h ++ hy) r.
Proof.
  intros Ha Hps Hf. unfold sorts_to. rewrite sort_eq.
  pose proof (RunFacts.sort_products_run parseFloat localeCompare
                (key_name k) fuel h a ps Ha Hf) as Hrun.
  rewrite (FunFacts.mergeSort_refines _ (key_le parseFloat localeCompare k)) in Hrun.
  - destruct Hrun as (r & hy & H1 & H2 & H3 & H4). by exists r, hy.
  - intros p q Hp _. apply key_decides.
    rewrite Forall_forall in Hps. by apply Hps.
Qed.

(** On any records, the sort returns a permutation of them, unless a name
    that is no string meets [localeCompare]: then it raises a TypeError. *)
Lemma sort_run_any (k : Key) (fuel : nat) (h : heap) (a : loc) (ps : list Product) :
  array_records h a = Some ps -> length ps + 2 <= fuel ->
  match sort parseFloat localeCompare k fuel (Ref a) h with
  | Ok (r, h') =>
      exists hy out,
        h' = h ++ hy /\ array_records h' r = Some out /\ out ≡ₚ ps /\
        length h <= r /\ fresh_elems h h' r
  | Err e => e = TypeError /\ k = name /\ exists p, p ∈ ps /\ ~ name_ok p
  end.
Proof.
  intros Ha Hf. rewrite sort_eq.
  pose proof (RunFacts.sort_products_run parseFloat localeCompare
                (key_name k) fuel h a ps Ha Hf) as Hrun.
  destruct (Fun.mergeSort _ ps) as [out|e] eqn:E.
  - destruct Hrun as (r & hy & -> & H2 & H3 & H4).
    exists hy, out. repeat split; try done. by eapply FunFacts.mergeSort_perm.
  - rewrite Hrun.
    destruct (FunFacts.mergeSort_n_error _ _ _ _ E) as (p & q & Hp & _ & Hpq).
    destruct k.
    + by destruct (key_decides price p q I) as (z & Hz & _); rewrite Hz in Hpq.
    + unfold product_cmp in Hpq. simpl in Hpq.
      change (get_field p "name") with (prod_name p) in Hpq.
      assert (~ name_ok p /\ e = TypeError) as [Hn ->].
      { unfold name_ok, Source.compare_keys in *. simpl String.eqb in Hpq.
        cbn iota in Hpq.
        destruct (prod_name p); try done; injection Hpq as <-; by split; auto. }
      repeat split. by exists p.
Qed.

(** On what is no array, the guard answers with a new empty array. *)
Lemma sort_not_array (k : Key) (fuel : nat) (h : heap) (v : JsVal) :
  not_an_array h v ->
  sort parseFloat localeCompare k fuel v h = Ok (length h, h ++ [CArr []]).
Proof.
  intros Hv. rewrite sort_eq. unfold Source.sort_products.
  destruct v as [p|l].
  - by rewrite (RunFacts.bind_ok _ _ _ _ _ (RunFacts.as_array_prim h p)).
  - destruct Hv as [p Hp].
    by rewrite (RunFacts.bind_ok _ _ _ _ _ (RunFacts.as_array_object h l p Hp)).
Qed.

End Keys.
End SortFacts.

(** ** The example instance of localeCompare is a consistent comparator *)

Module HostFacts.
Import Js Store ExampleHost.

Lemma ascii_compare_trans (a b c : ascii) (o : comparison) :
  Ascii.compare a b = o -> Ascii.compare b c = o -> Ascii.compare a c = o.
Proof.
  unfold Ascii.compare. destruct o.
  - rewrite !N.compare_eq_iff. congruence.
  - rewrite !N.compare_lt_iff. apply N.lt_trans.
  - rewrite !N.compare_gt_iff. intros H1 H2. by apply N.lt_trans with (N_of_ascii b).
Qed.

Lemma string_compare_le_trans (s t u : string) :
  String.compare s t <> Gt -> String.compare t u <> Gt -> String.compare s u <> Gt.
Proof.
  revert t u. induction s as [|a s IH]; intros [|b t] [|c u]; simpl; try done.
  destruct (Ascii.compare a b) eqn:Eab; [| |done].
  - apply Ascii.compare_eq_iff in Eab as ->.
    destruct (Ascii.compare b c); [apply IH|done|done].
  - destruct (Ascii.compare b c) eqn:Ebc; [| |done].
    + apply Ascii.compare_eq_iff in Ebc as <-. by rewrite Eab.
    + by rewrite (ascii_compare_trans a b c Lt).
Qed.

Lemma host_lc_total : lc_total localeCompare.
Proof.
  intros s t. unfold localeCompare. simpl ToString.
  rewrite (String.compare_antisym t s). by destruct (String.compare s t).
Qed.

Lemma host_lc_trans : lc_trans localeCompare.
Proof.
  intros s t u. unfold localeCompare. simpl ToString.
  pose proof (string_compare_le_trans s t u) as H.
  destruct (String.compare s t), (String.compare t u), (String.compare s u);
    try done; intros _ _; exfalso; by apply H.
Qed.

End HostFacts.

(** ** The concrete scenarios, evaluated *)

Module Scenarios.
Import Js Store Contract Examples.

Example three_prices :
  exists r h',
    sorts_to ExampleHost.parseFloat ExampleHost.localeCompare price 5
      (store_of [priced 215; priced 75; priced 140]) 3 r h'
      [priced 75; priced 140; priced 215].
Proof. eexists _, _. split; [vm_compute; reflexivity|]. vm_compute. reflexivity. Qed.

Example three_names :
  exists r h',
    sorts_to ExampleHost.parseFloat ExampleHost.localeCompare name 5
      (store_of [named "Tata Salt"; named "Amami oil";
                 named "Aashirvaad Iodized Salt"]) 3 r h'
      [named "Aashirvaad Iodized Salt"; named "Amami oil"; named "Tata Salt"].
Proof. eexists _, _. split; [vm_compute; reflexivity|]. vm_compute. reflexivity. Qed.

Example equal_prices_keep_their_order :
  exists r h',
    sorts_to ExampleHost.parseFloat ExampleHost.localeCompare price 4
      tie_store 2 r h' tie_input.
Proof. eexists _, _. split; [vm_compute; reflexivity|]. vm_compute. reflexivity. Qed.

Example no_product :
  sort ExampleHost.parseFloat ExampleHost.localeCompare price 2 (Ref 0)
    (store_of []) = Ok (1, [CArr []; CArr []]).
Proof. reflexivity. Qed.

Example catalogue_by_price :
  exists r h' out,
    sorts_to ExampleHost.parseFloat ExampleHost.localeCompare price 11
      catalogue 9 r h' out /\
    prod_price <$> out =
    ExampleHost.int <$> [25; 30; 75; 106; 140; 208; 215; 650; 1072]%Z.
Proof.
  eexists _, _, _. split; [split; [vm_compute; reflexivity|]|].
  - vm_compute. reflexivity.
  - reflexivity.
Qed.

End Scenarios.

(** * Properties of the specification *)

Import Js Store Contract.

(** C1. Order invariant: for every array of records whose selected key
    values are well-formed (the price parses to a number; the name is a
    string, and localeCompare orders any two strings one way or the other),
    the sort returns, and every pair of adjacent elements (x, y) of its
    output satisfies key(x) <= key(y) under the comparison of the key:
    numeric for price, textual for name. *)
Theorem sort_output_ordered (parseFloat : prim -> number)
    (localeCompare : string -> prim -> Z) (k : Key) (fuel : nat) (h : heap)
    (a : loc) (ps : list Product) :
  array_records h a = Some ps ->
  Forall (key_ok parseFloat k) ps ->
  comparator_total localeCompare k ->
  length ps + 2 <= fuel ->
  exists r h' out,
    sorts_to parseFloat localeCompare k fuel h a r h' out /\
    forall i x y, out !! i = Some x -> out !! (S i) = Some y ->
      key_le parseFloat localeCompare k x y = true.
Proof.
  intros Ha Hok Htot Hf.
  destruct (SortFacts.sort_run parseFloat localeCompare k fuel h a ps Ha)
    as (r & hy & Hs & _); [|done|].
  { eapply Forall_impl; [exact Hok|]. apply SortFacts.key_ok_comparable. }
  exists r, (h ++ hy), (Sorter.sort (key_le parseFloat localeCompare k) ps).
  split; [exact Hs|]. intros i x y Hx Hy.
  eapply SorterFacts.Sorted_adjacent; [|exact Hx|exact Hy].
  apply (SorterFacts.sort_Sorted _ (key_ok parseFloat k)); [|done].
  intros p q. by apply SortFacts.key_le_total.
Qed.

Lemma sort_output_ordered_witness :
  exists r h' out,
    sorts_to ExampleHost.parseFloat ExampleHost.localeCompare name 11
      Examples.catalogue 9 r h' out /\
    forall i x y, out !! i = Some x -> out !! (S i) = Some y ->
      key_le ExampleHost.parseFloat ExampleHost.localeCompare name x y = true.
Proof.
  apply (sort_output_ordered ExampleHost.parseFloat ExampleHost.localeCompare
           name 11 Examples.catalogue 9 Examples.defaultProducts).
  - reflexivity.
  - repeat constructor.
  - exact HostFacts.host_lc_total.
  - simpl. lia.
Defined.

(** C2. Permutation invariant: for every array of records, the records of
    the output are a permutation of the records of the input, of the same
    length.  The sort by price always returns; the sort by name returns
    unless it raises the TypeError of calling localeCompare on a name that
    is no string, and it returns whenever every name is a string. *)
Theorem sort_output_permutation (parseFloat : prim -> number)
    (localeCompare : string -> prim -> Z) (k : Key) (fuel : nat) (h : heap)
    (a : loc) (ps : list Product) :
  array_records h a = Some ps ->
  length ps + 2 <= fuel ->
  match sort parseFloat localeCompare k fuel (Ref a) h with
  | Ok (r, h') =>
      exists out, array_records h' r = Some out /\ out ≡ₚ ps /\
                  length out = length ps
  | Err e => e = TypeError /\ k = name /\ exists p, p ∈ ps /\ ~ name_ok p
  end /\
  (Forall (comparable k) ps ->
   exists r h' out,
     sorts_to parseFloat localeCompare k fuel h a r h' out /\ out ≡ₚ ps /\
     length out = length ps).
Proof.
  intros Ha Hf. split.
  - pose proof (SortFacts.sort_run_any parseFloat localeCompare k fuel h a ps
                  Ha Hf) as H.
    destruct (sort parseFloat localeCompare k fuel (Ref a) h) as [[r h']|e];
      [|done].
    destruct H as (hy & out & _ & Hrec & Hperm & _).
    exists out. repeat split; [done..|]. by rewrite Hperm.
  - intros Hc.
    destruct (SortFacts.sort_run parseFloat localeCompare k fuel h a ps Ha Hc Hf)
      as (r & hy & Hs & _).
    exists r, (h ++ hy), (Sorter.sort (key_le parseFloat localeCompare k) ps).
    split; [done|]. split; [apply SorterFacts.sort_perm|].
    by rewrite SorterFacts.sort_perm.
Qed.

Lemma sort_output_permutation_witness :
  match sort ExampleHost.parseFloat ExampleHost.localeCompare price 6
          (Ref 4) Examples.unstable_store with
  | Ok (r, h') =>
      exists out, array_records h' r = Some out /\
                  out ≡ₚ Examples.unstable_input /\
                  length out = length Examples.unstable_input
  | Err e => e = TypeError /\ price = name /\
             exists p, p ∈ Examples.unstable_input /\ ~ name_ok p
  end /\
  exists r h' out,
    sorts_to ExampleHost.parseFloat ExampleHost.localeCompare price 6
      Examples.unstable_store 4 r h' out /\
    out ≡ₚ Examples.unstable_input /\
    length out = length Examples.unstable_input.
Proof.
  destruct (sort_output_permutation ExampleHost.parseFloat
              ExampleHost.localeCompare price 6 Examples.unstable_store 4
              Examples.unstable_input eq_refl ltac:(simpl; lia)) as [H1 H2].
  split; [exact H1|]. apply H2. repeat constructor.
Defined.

(** C3, amended. Stability: for every array of records whose selected key
    values are well-formed (and, for names, localeCompare a consistent
    comparator), the sort returns and the elements of each key appear in
    the output in the order they have in the input; and in the merge step,
    when the two heads compare equal, the left-hand one is emitted and the
    left index advances. *)
Theorem sort_stable_on_wellformed_keys (parseFloat : prim -> number)
    (localeCompare : string -> prim -> Z) (k : Key) (fuel : nat) (h : heap)
    (a : loc) (ps : list Product) :
  array_records h a = Some ps ->
  Forall (key_ok parseFloat k) ps ->
  comparator_ok localeCompare k ->
  length ps + 2 <= fuel ->
  (exists r h' out,
     sorts_to parseFloat localeCompare k fuel h a r h' out /\
     stable parseFloat localeCompare k ps out) /\
  (forall (left right result : loc) (li ri : nat) (hm : heap)
          (L R acc : list JsVal) (x y : JsVal) (p q : Product),
     hm !! left = Some (CArr L) -> hm !! right = Some (CArr R) ->
     hm !! result = Some (CArr acc) ->
     L !! li = Some x -> R !! ri = Some y ->
     record_of hm x = Some p -> record_of hm y = Some q ->
     comparable k p ->
     same_key (key_le parseFloat localeCompare k) p q = true ->
     Source.merge_body parseFloat localeCompare left right result (key_name k)
       (li, ri) hm =
     Ok ((li + 1, ri), <[result := CArr (acc ++ [x])]> hm)).
Proof.
  intros Ha Hok Hcmp Hf. split.
  - destruct (SortFacts.sort_run parseFloat localeCompare k fuel h a ps Ha)
      as (r & hy & Hs & _); [|done|].
    { eapply Forall_impl; [exact Hok|]. apply SortFacts.key_ok_comparable. }
    exists r, (h ++ hy), (Sorter.sort (key_le parseFloat localeCompare k) ps).
    split; [exact Hs|]. intros x Hx.
    apply (SorterFacts.sort_stable _ (key_ok parseFloat k)).
    + intros p q. apply SortFacts.key_le_total.
      by apply SortFacts.comparator_ok_total.
    + intros p q r'. by apply SortFacts.key_le_trans.
    + rewrite Forall_forall in Hok. by apply Hok.
    + done.
  - intros left right result li ri hm L R acc x y p q Hl Hr Hres Hx Hy Hp Hq
      Hc Htie.
    destruct (SortFacts.key_decides parseFloat localeCompare k p q Hc)
      as (z & Hz & Hle).
    rewrite (RunFacts.merge_body_run parseFloat localeCompare left right result
               (key_name k) li ri hm L R acc x y z); try done.
    + unfold same_key in Htie. apply andb_true_iff in Htie as [Hpq _].
      by rewrite Hle, Hpq.
    + by rewrite (RunFacts.keycmp_product parseFloat localeCompare hm
                    (key_name k) x y p q).
Qed.

Lemma sort_stable_on_wellformed_keys_witness :
  (exists r h' out,
     sorts_to ExampleHost.parseFloat ExampleHost.localeCompare price 4
       Examples.tie_store 2 r h' out /\
     stable ExampleHost.parseFloat ExampleHost.localeCompare price
       Examples.tie_input out) /\
  Source.merge_body ExampleHost.parseFloat ExampleHost.localeCompare 3 4 5
    "price" (0, 0) Examples.tie_merge_store =
  Ok ((1, 0), <[5 := CArr [Ref 0]]> Examples.tie_merge_store).
Proof.
  destruct (sort_stable_on_wellformed_keys ExampleHost.parseFloat
              ExampleHost.localeCompare price 4 Examples.tie_store 2
              Examples.tie_input eq_refl ltac:(repeat constructor) I
              ltac:(simpl; lia)) as [H1 H2].
  split; [exact H1|].
  apply (H2 3 4 5 0 0 Examples.tie_merge_store [Ref 0] [Ref 1] [] (Ref 0) (Ref 1)
            (Examples.product 1 "first" (ExampleHost.int 100) "1.jpg")
            (Examples.product 2 "second" (ExampleHost.int 100) "2.jpg"));
    reflexivity || exact I.
Defined.

(** C3 as stated fails: on the four products x (price 5), n (price "abc"),
    y (price 5), z (price 9), sortByPrice returns y, z, n, x, so that y
    precedes x although both have price 5 and x comes first in the input. *)
Lemma sort_unstable_on_unparsed_price :
  (exists r h',
     sorts_to ExampleHost.parseFloat ExampleHost.localeCompare price 6
       Examples.unstable_store 4 r h'
       [Examples.tie_y; Examples.more_z; Examples.bad_n; Examples.tie_x]) /\
  ~ sort_is_stable_on ExampleHost.parseFloat ExampleHost.localeCompare price 6
      Examples.unstable_store 4 Examples.unstable_input.
Proof.
  split.
  - eexists _, _. split; [vm_compute; reflexivity|]. vm_compute. reflexivity.
  - intros (r & h' & out & [Hrun Hrec] & Hst).
    vm_compute in Hrun. injection Hrun as <- <-.
    vm_compute in Hrec. injection Hrec as <-.
    specialize (Hst Examples.tie_x ltac:(constructor)).
    vm_compute in Hst. discriminate Hst.
Qed.

(** C4, amended. A price that fails to parse raises no error: for every
    array of records with such an element, sortByPrice returns, and the
    records of its output are a permutation of the records of the input. *)
Theorem unparsed_price_raises_no_error (parseFloat : prim -> number)
    (localeCompare : string -> prim -> Z) (fuel : nat) (h : heap) (a : loc)
    (ps : list Product) :
  array_records h a = Some ps ->
  Exists (fun p => isNaN (parseFloat (prod_price p)) = true) ps ->
  length ps + 2 <= fuel ->
  exists r h' out,
    sorts_to parseFloat localeCompare price fuel h a r h' out /\ out ≡ₚ ps.
Proof.
  intros Ha _ Hf.
  destruct (SortFacts.sort_run parseFloat localeCompare price fuel h a ps Ha)
    as (r & hy & Hs & _); [by apply Forall_true|done|].
  exists r, (h ++ hy), (Sorter.sort (key_le parseFloat localeCompare price) ps).
  split; [exact Hs|]. apply SorterFacts.sort_perm.
Qed.

Lemma unparsed_price_raises_no_error_witness :
  exists r h' out,
    sorts_to ExampleHost.parseFloat ExampleHost.localeCompare price 3
      Examples.abc_store 1 r h' out /\ out ≡ₚ [Examples.abc].
Proof.
  apply (unparsed_price_raises_no_error ExampleHost.parseFloat
           ExampleHost.localeCompare 3 Examples.abc_store 1 [Examples.abc]).
  - reflexivity.
  - constructor. reflexivity.
  - simpl. lia.
Defined.

(** C4 as stated fails: sortByPrice on [{price: "abc"}] returns a new
    array holding that one record; it raises nothing. *)
Lemma unparsed_price_is_returned :
  (exists r h',
     sorts_to ExampleHost.parseFloat ExampleHost.localeCompare price 3
       Examples.abc_store 1 r h' [Examples.abc]) /\
  ~ sort_fails_on ExampleHost.parseFloat ExampleHost.localeCompare price 3
      Examples.abc_store (Ref 1).
Proof.
  split.
  - eexists _, _. split; [vm_compute; reflexivity|]. vm_compute. reflexivity.
  - intros [e He]. vm_compute in He. discriminate He.
Qed.

(** C5. No side effects: when sortByPrice or sortByName returns, every cell
    of the store it was called in is as it was, so the input array and each
    of its elements are unchanged and every array of records still denotes
    the same records; the result is a new array, and each of its elements
    is a new object: a copy.  (The only error is the TypeError of the sort
    by name.) *)
Theorem sort_leaves_input_unchanged (parseFloat : prim -> number)
    (localeCompare : string -> prim -> Z) (k : Key) (fuel : nat) (h : heap)
    (v : JsVal) :
  sort_input h v fuel ->
  match sort parseFloat localeCompare k fuel v h with
  | Ok (r, h') =>
      (forall l c, h !! l = Some c -> h' !! l = Some c) /\
      (forall a ps, array_records h a = Some ps -> array_records h' a = Some ps) /\
      length h <= r /\
      fresh_elems h h' r /\
      (forall a ps, v = Ref a -> array_records h a = Some ps ->
         exists out, array_records h' r = Some out /\ out ≡ₚ ps)
  | Err e => e = TypeError /\ k = name
  end.
Proof.
  intros [Hv|(a & ps & -> & Ha & Hf)].
  - rewrite SortFacts.sort_not_array by done.
    split; [|split; [|split; [|split]]].
    + intros l c. apply lookup_app_l_Some.
    + intros a ps. apply RunFacts.array_records_app.
    + done.
    + exists []. split; [apply RunFacts.lookup_result|constructor].
    + intros a ps -> Ha. destruct Hv as [p Hp].
      apply RunFacts.array_records_inv in Ha as (elems & Ha & _). congruence.
  - pose proof (SortFacts.sort_run_any parseFloat localeCompare k fuel h a ps
                  Ha Hf) as H.
    destruct (sort parseFloat localeCompare k fuel (Ref a) h) as [[r h']|e].
    + destruct H as (hy & out & -> & Hrec & Hperm & Hr & Hfresh).
      split; [|split; [|split; [|split]]]; try done.
      * intros l c. apply lookup_app_l_Some.
      * intros a' ps'. apply RunFacts.array_records_app.
      * intros a' ps' [= <-] Ha'. exists out. split; [done|]. congruence.
    + by destruct H as (-> & -> & _).
Qed.

Lemma sort_leaves_input_unchanged_witness :
  match sort ExampleHost.parseFloat ExampleHost.localeCompare name 4
          (Ref 2) Examples.tie_store with
  | Ok (r, h') =>
      (forall l c, Examples.tie_store !! l = Some c -> h' !! l = Some c) /\
      (forall a ps, array_records Examples.tie_store a = Some ps ->
                    array_records h' a = Some ps) /\
      length Examples.tie_store <= r /\
      fresh_elems Examples.tie_store h' r /\
      (forall a ps, Ref 2 = Ref a -> array_records Examples.tie_store a = Some ps ->
         exists out, array_records h' r = Some out /\ out ≡ₚ ps)
  | Err e => e = TypeError /\ name = name
  end.
Proof.
  apply (sort_leaves_input_unchanged ExampleHost.parseFloat
           ExampleHost.localeCompare name 4 Examples.tie_store (Ref 2)).
  right. exists 2, Examples.tie_input.
  split; [reflexivity|]. split; [reflexivity|]. simpl. lia.
Defined.

(** C6, amended. What is not an array raises no error: given a primitive
    value or a product object, sortByPrice and sortByName return a new
    empty array and change nothing else. *)
Theorem non_array_gives_empty (parseFloat : prim -> number)
    (localeCompare : string -> prim -> Z) (k : Key) (fuel : nat) (h : heap)
    (v : JsVal) :
  not_an_array h v ->
  sort parseFloat localeCompare k fuel v h = Ok (length h, h ++ [CArr []]).
Proof. apply SortFacts.sort_not_array. Qed.

Lemma non_array_gives_empty_witness :
  sort ExampleHost.parseFloat ExampleHost.localeCompare name 0 (Ref 0)
    Examples.tie_store =
  Ok (length Examples.tie_store, Examples.tie_store ++ [CArr []]).
Proof.
  apply (non_array_gives_empty ExampleHost.parseFloat ExampleHost.localeCompare
           name 0 Examples.tie_store (Ref 0)).
  eexists. reflexivity.
Defined.

(** C6 as stated fails: sortByPrice(undefined) returns [[]]; it raises
    nothing. *)
Lemma undefined_is_answered_with_empty :
  sort ExampleHost.parseFloat ExampleHost.localeCompare price 0
    (Prim PUndefined) [] = Ok (0, [CArr []]) /\
  ~ sort_fails_on ExampleHost.parseFloat ExampleHost.localeCompare price 0
      [] (Prim PUndefined).
Proof.
  split; [reflexivity|]. intros [e He]. vm_compute in He. discriminate He.
Qed.

(** C7, amended. Idempotence: for every array of records whose selected key
    values are well-formed (and, for names, localeCompare a consistent
    comparator), sorting the output of the sort again returns the same
    records in the same order. *)
Theorem sort_idempotent_on_wellformed_keys (parseFloat : prim -> number)
    (localeCompare : string -> prim -> Z) (k : Key) (fuel : nat) (h : heap)
    (a : loc) (ps : list Product) :
  array_records h a = Some ps ->
  Forall (key_ok parseFloat k) ps ->
  comparator_ok localeCompare k ->
  length ps + 2 <= fuel ->
  sort_is_idempotent_on parseFloat localeCompare k fuel h a.
Proof.
  intros Ha Hok Hcmp Hf.
  assert (Hc : Forall (comparable k) ps).
  { eapply Forall_impl; [exact Hok|]. apply SortFacts.key_ok_comparable. }
  destruct (SortFacts.sort_run parseFloat localeCompare k fuel h a ps Ha Hc Hf)
    as (r1 & hy1 & Hs1 & _).
  set (out := Sorter.sort (key_le parseFloat localeCompare k) ps) in *.
  assert (Hperm : out ≡ₚ ps) by apply SorterFacts.sort_perm.
  destruct (SortFacts.sort_run parseFloat localeCompare k fuel (h ++ hy1) r1 out)
    as (r2 & hy2 & Hs2 & _).
  - by destruct Hs1.
  - by rewrite Hperm.
  - by rewrite Hperm.
  - exists r1, (h ++ hy1), out, r2, ((h ++ hy1) ++ hy2). split; [done|].
    unfold out in Hs2.
    rewrite (SorterFacts.sort_idempotent _ (key_ok parseFloat k)) in Hs2;
      try done.
    + intros p q. apply SortFacts.key_le_total.
      by apply SortFacts.comparator_ok_total.
    + intros p q r'. by apply SortFacts.key_le_trans.
Qed.

Lemma sort_idempotent_on_wellformed_keys_witness :
  sort_is_idempotent_on ExampleHost.parseFloat ExampleHost.localeCompare name
    11 Examples.catalogue 9.
Proof.
  apply (sort_idempotent_on_wellformed_keys ExampleHost.parseFloat
           ExampleHost.localeCompare name 11 Examples.catalogue 9
           Examples.defaultProducts).
  - reflexivity.
  - repeat constructor.
  - split; [exact HostFacts.host_lc_total|exact HostFacts.host_lc_trans].
  - simpl. lia.
Defined.

(** C7 as stated fails: on the two products x (price 5) and n (price
    "abc"), sortByPrice returns n, x; sorting that again returns x, n. *)
Lemma sort_not_idempotent_on_unparsed_price :
  (exists r1 h1 r2 h2,
     sorts_to ExampleHost.parseFloat ExampleHost.localeCompare price 4
       Examples.flip_store 2 r1 h1 [Examples.bad_n; Examples.tie_x] /\
     sorts_to ExampleHost.parseFloat ExampleHost.localeCompare price 4
       h1 r1 r2 h2 [Examples.tie_x; Examples.bad_n]) /\
  ~ sort_is_idempotent_on ExampleHost.parseFloat ExampleHost.localeCompare
      price 4 Examples.flip_store 2.
Proof.
  split.
  - eexists _, _, _, _. split.
    + split; [vm_compute; reflexivity|]. vm_compute. reflexivity.
    + split; [vm_compute; reflexivity|]. vm_compute. reflexivity.
  - intros (r1 & h1 & out & r2 & h2 & [Hrun1 Hrec1] & [Hrun2 Hrec2]).
    vm_compute in Hrun1. injection Hrun1 as <- <-.
    vm_compute in Hrec1. injection Hrec1 as <-.
    vm_compute in Hrun2. injection Hrun2 as <- <-.
    vm_compute in Hrec2. discriminate Hrec2.
Qed.

(** C8. Empty and singleton: for an array of no record or of one record x,
    the sort returns a new array of no record, respectively of the one
    record x, a copy equal to it, whatever its key values. *)
Theorem sort_empty_and_singleton (parseFloat : prim -> number)
    (localeCompare : string -> prim -> Z) (k : Key) (fuel : nat) (h : heap)
    (a : loc) (ps : list Product) :
  array_records h a = Some ps ->
  length ps <= 1 ->
  length ps + 2 <= fuel ->
  exists r h',
    sorts_to parseFloat localeCompare k fuel h a r h' ps /\
    length h <= r /\ fresh_elems h h' r.
Proof.
  intros Ha Hlen Hf. unfold sorts_to. rewrite SortFacts.sort_eq.
  pose proof (RunFacts.sort_products_run parseFloat localeCompare
                (key_name k) fuel h a ps Ha Hf) as Hrun.
  rewrite FunFacts.mergeSort_short in Hrun by done.
  destruct Hrun as (r & hy & H1 & H2 & H3 & H4). by exists r, (h ++ hy).
Qed.

Lemma sort_empty_and_singleton_witness :
  exists r h',
    sorts_to ExampleHost.parseFloat ExampleHost.localeCompare name 3
      Examples.abc_store 1 r h' [Examples.abc] /\
    length Examples.abc_store <= r /\ fresh_elems Examples.abc_store h' r.
Proof.
  apply (sort_empty_and_singleton ExampleHost.parseFloat
           ExampleHost.localeCompare name 3 Examples.abc_store 1 [Examples.abc]).
  - reflexivity.
  - simpl. lia.
  - simpl. lia.
Defined.

(** C9. Refinement: mergeSort computes what the top-down merge sort of the
    specification computes.  For every array whose elements compare without
    error, the array mergeSort returns holds [Sorter.sort] of the elements
    under the order the comparison decides; that reference splits a
    sequence of length at least 2 at floor(n/2) into its first half and the
    remainder, whatever the keys, sorts each half with the same order and
    merges them, and its merge appends what is left of one half, in its
    order, once the other is exhausted. *)
Theorem mergeSort_refines_reference (parseFloat : prim -> number)
    (localeCompare : string -> prim -> Z) (k : Key) (fuel : nat)
    (h : heap) (items : loc) (L : list JsVal) :
  h !! items = Some (CArr L) ->
  Forall (valid h) L ->
  (forall a b, a ∈ L -> b ∈ L ->
     exists z, keycmp parseFloat localeCompare h (key_name k) a b = Ok z) ->
  length L + 2 <= fuel ->
  (exists r hy,
     Source.mergeSort parseFloat localeCompare fuel items (key_name k) h =
       Ok (r, h ++ hy) /\
     (h ++ hy) !! r =
       Some (CArr (Sorter.sort
                     (cmp_le parseFloat localeCompare h (key_name k)) L))) /\
  (forall (le : JsVal -> JsVal -> bool) (s : list JsVal),
     2 <= length s ->
     Sorter.sort le s =
     Sorter.merge_halves le (Sorter.sort le (take (length s / 2) s))
                            (Sorter.sort le (drop (length s / 2) s))) /\
  (forall (le : JsVal -> JsVal -> bool) (rest : list JsVal),
     Sorter.merge_halves le rest [] = rest /\
     Sorter.merge_halves le [] rest = rest).
Proof.
  intros Hit HL Hle Hf. split; [|split].
  - pose proof (RunFacts.mergeSort_run parseFloat localeCompare h (key_name k)
                  fuel h items L (reflexivity _) Hit HL Hf) as Hrun.
    rewrite (FunFacts.mergeSort_refines _
               (cmp_le parseFloat localeCompare h (key_name k))) in Hrun.
    + destruct Hrun as (r & hy & H1 & H2 & _). by exists r, hy.
    + intros a b Ha Hb. destruct (Hle a b Ha Hb) as [z Hz].
      exists z. split; [done|]. unfold cmp_le. by rewrite Hz.
  - intros le s. apply SorterFacts.sort_unfold.
  - intros le rest. split;
      [apply SorterFacts.merge_nil_r|apply SorterFacts.merge_nil_l].
Qed.

Lemma mergeSort_refines_reference_witness :
  (exists r hy,
     Source.mergeSort ExampleHost.parseFloat ExampleHost.localeCompare 6 4
       "price" Examples.unstable_store = Ok (r, Examples.unstable_store ++ hy) /\
     (Examples.unstable_store ++ hy) !! r =
       Some (CArr (Sorter.sort
                     (cmp_le ExampleHost.parseFloat ExampleHost.localeCompare
                        Examples.unstable_store "price")
                     [Ref 0; Ref 1; Ref 2; Ref 3]))) /\
  Sorter.sort (cmp_le ExampleHost.parseFloat ExampleHost.localeCompare
                 Examples.unstable_store "price")
    [Ref 0; Ref 1; Ref 2; Ref 3] =
  Sorter.merge_halves
    (cmp_le ExampleHost.parseFloat ExampleHost.localeCompare
       Examples.unstable_store "price")
    (Sorter.sort (cmp_le ExampleHost.parseFloat ExampleHost.localeCompare
                    Examples.unstable_store "price") [Ref 0; Ref 1])
    (Sorter.sort (cmp_le ExampleHost.parseFloat ExampleHost.localeCompare
                    Examples.unstable_store "price") [Ref 2; Ref 3]).
Proof.
  destruct (mergeSort_refines_reference ExampleHost.parseFloat
              ExampleHost.localeCompare price 6 Examples.unstable_store 4
              [Ref 0; Ref 1; Ref 2; Ref 3] eq_refl) as (H1 & H2 & _).
  - repeat constructor.
  - intros a b Ha Hb.
    repeat (apply elem_of_cons in Ha as [->|Ha]);
      try (by apply elem_of_nil in Ha);
      repeat (apply elem_of_cons in Hb as [->|Hb]);
      try (by apply elem_of_nil in Hb);
      (eexists; vm_compute; reflexivity).
  - simpl. lia.
  - split; [exact H1|].
    apply (H2 (cmp_le ExampleHost.parseFloat ExampleHost.localeCompare
                 Examples.unstable_store "price")
              [Ref 0; Ref 1; Ref 2; Ref 3]).
    simpl. lia.
Defined.

(** C10. Termination: on every array of values of the store and for either
    key, mergeSort with fuel for the length of the array ends: it returns,
    or raises the TypeError of a comparison; the fuel does not run out.
    For a length of at least 2 the two halves have at least one element and
    are strictly shorter than the array; an iteration of the first loop of
    merge, and of each trailing loop, strictly decreases the number of
    elements not yet consumed. *)
Theorem mergeSort_terminates (parseFloat : prim -> number)
    (localeCompare : string -> prim -> Z) (k : Key) (fuel : nat)
    (h : heap) (items : loc) (L : list JsVal) :
  h !! items = Some (CArr L) ->
  Forall (valid h) L ->
  length L + 2 <= fuel ->
  match Source.mergeSort parseFloat localeCompare fuel items (key_name k) h with
  | Ok (r, h') => exists out, h' !! r = Some (CArr out) /\ length out = length L
  | Err e => e = TypeError
  end /\
  (2 <= length L ->
   1 <= length L / 2 /\ 1 <= length L - length L / 2 /\
   length (take (length L / 2) L) < length L /\
   length (drop (length L / 2) L) < length L) /\
  (forall (left right result : loc) (li ri li' ri' : nat) (hm hm' hm'' : heap)
          (A B : list JsVal),
     hm !! left = Some (CArr A) -> hm !! right = Some (CArr B) ->
     Source.merge_cond left right (li, ri) hm = Ok (true, hm') ->
     Source.merge_body parseFloat localeCompare left right result (key_name k)
       (li, ri) hm = Ok ((li', ri'), hm'') ->
     (length A - li') + (length B - ri') < (length A - li) + (length B - ri)) /\
  (forall (src result : loc) (i i' : nat) (hm hm' hm'' : heap) (A : list JsVal),
     hm !! src = Some (CArr A) ->
     Source.rest_cond src i hm = Ok (true, hm') ->
     Source.rest_body src result i hm = Ok (i', hm'') ->
     length A - i' < length A - i).
Proof.
  intros Hit HL Hf. split; [|split; [|split]].
  - pose proof (RunFacts.mergeSort_run parseFloat localeCompare h (key_name k)
                  fuel h items L (reflexivity _) Hit HL Hf) as Hrun.
    destruct (Fun.mergeSort _ L) as [out|e] eqn:E.
    + destruct Hrun as (r & hy & -> & Hr & _). exists out. split; [done|].
      by rewrite (FunFacts.mergeSort_perm _ _ _ E).
    + rewrite Hrun.
      destruct (FunFacts.mergeSort_n_error _ _ _ _ E) as (a & b & Ha & Hb & Hab).
      rewrite Forall_forall in HL.
      eapply RunFacts.keycmp_error; [| |exact Hab]; by apply HL.
  - intros H2. destruct (SorterFacts.half_lt (length L) H2) as [H3 H4].
    rewrite length_take, length_drop. lia.
  - intros left right result li ri li' ri' hm hm' hm'' A B Hl Hr Hc Hb.
    destruct (RunFacts.merge_cond_true _ _ _ _ _ _ _ _ Hl Hr Hc).
    destruct (RunFacts.merge_body_advances _ _ _ _ _ _ _ _ _ _ _ _ Hb)
      as [[-> ->]|[-> ->]]; lia.
  - intros src result i i' hm hm' hm'' A Hs Hc Hb.
    pose proof (RunFacts.rest_cond_true _ _ _ _ _ Hs Hc).
    rewrite (RunFacts.rest_body_advances _ _ _ _ _ _ Hb). lia.
Qed.

Lemma mergeSort_terminates_witness :
  match Source.mergeSort ExampleHost.parseFloat ExampleHost.localeCompare 11
          9 "name" Examples.catalogue with
  | Ok (r, h') => exists out, h' !! r = Some (CArr out) /\ length out = 9
  | Err e => e = TypeError
  end /\
  (1 <= 9 / 2 /\ 1 <= 9 - 9 / 2 /\
   length (take (9 / 2) (Ref <$> seq 0 9)) < 9 /\
   length (drop (9 / 2) (Ref <$> seq 0 9)) < 9) /\
  (1 - 1) + (1 - 0) < (1 - 0) + (1 - 0) /\
  1 - 1 < 1 - 0.
Proof.
  destruct (mergeSort_terminates ExampleHost.parseFloat
              ExampleHost.localeCompare name 11 Examples.catalogue 9
              (Ref <$> seq 0 9) eq_refl) as (H1 & H2 & H3 & H4).
  - repeat constructor.
  - simpl. lia.
  - split; [exact H1|]. split; [apply H2; simpl; lia|]. split.
    + apply (H3 3 4 5 0 0 1 0 Examples.tie_merge_store Examples.tie_merge_store
               (<[5 := CArr [Ref 0]]> Examples.tie_merge_store)
               [Ref 0] [Ref 1]); reflexivity.
    + apply (H4 3 5 0 1 Examples.tie_merge_store Examples.tie_merge_store
               (<[5 := CArr [Ref 0]]> Examples.tie_merge_store) [Ref 0]);
        reflexivity.
Defined.

(** * Further properties of the code *)

(** ** merge and mergeSort on their own *)

Module MergeFacts.
Import Js Source Store Contract.
Local Open Scope js_scope.

Section Lists.
Context {A : Type}.
Variable cmp : A -> A -> res Z.

(** Each side of a merge is found in the result, in its order. *)
Lemma merge_fun_sublist (l r out : list A) :
  Fun.merge cmp l r = Ok out -> l `sublist_of` out /\ r `sublist_of` out.
Proof.
  revert r out. induction l as [|a l IHl]; intros r out.
  - rewrite FunFacts.merge_fun_nil_l. intros [= ->].
    split; [apply sublist_nil_l|done].
  - revert out. induction r as [|b r IHr]; intros out.
    + rewrite FunFacts.merge_fun_nil_r. intros [= ->].
      split; [done|apply sublist_nil_l].
    + rewrite FunFacts.merge_fun_cons.
      destruct (cmp a b) as [c|]; cbn [res_bind]; [|done].
      destruct (c <=? 0)%Z.
      * destruct (Fun.merge cmp l (b :: r)) as [o|] eqn:E; [|done].
        intros [= <-]. destruct (IHl _ _ E) as [H1 H2].
        split; [by apply sublist_skip|by apply sublist_cons].
      * destruct (Fun.merge cmp (a :: l) r) as [o|] eqn:E; [|done].
        intros [= <-]. destruct (IHr o eq_refl) as [H1 H2].
        split; [by apply sublist_cons|by apply sublist_skip].
Qed.

(** When every comparison with [x] on the left fails, the sort of a list of
    at least two elements that starts with [x] fails: [x] stays the head of
    the left half down to a half of one element, which is then merged with
    a sorted right half that is not empty. *)
Lemma mergeSort_n_first_fails (e0 : error) (x : A) :
  (forall b, cmp x b = Err e0) ->
  (forall a b e, cmp a b = Err e -> e = e0) ->
  forall (n : nat) (rest : list A),
  rest <> [] -> length (x :: rest) <= n ->
  Fun.mergeSort_n cmp n (x :: rest) = Err e0.
Proof.
  intros Hx Hall. induction n as [|n IH]; intros rest Hrest Hn.
  { simpl in Hn. lia. }
  rewrite FunFacts.mergeSort_n_S.
  assert (Hlen : 2 <= length (x :: rest)).
  { destruct rest; [done|]. simpl. lia. }
  destruct (length (x :: rest) <=? 1) eqn:E; [apply Nat.leb_le in E; lia|].
  destruct (SorterFacts.half_lt _ Hlen) as [Hm1 Hm2].
  destruct (length (x :: rest) / 2) as [|m] eqn:Em; [lia|].
  rewrite firstn_cons.
  destruct (take m rest) as [|y ys] eqn:Et.
  - assert (Hone : Fun.mergeSort_n cmp n [x] = Ok [x]) by (by destruct n).
    rewrite Hone. cbn [res_bind].
    destruct (Fun.mergeSort_n cmp n (drop (S m) (x :: rest))) as [sr|e] eqn:Er;
      cbn [res_bind].
    + pose proof (FunFacts.mergeSort_n_perm _ _ _ _ Er) as Hp.
      apply Permutation_length in Hp. rewrite length_drop in Hp.
      destruct sr as [|b sr]; [cbn [length] in *; lia|].
      by rewrite FunFacts.merge_fun_cons, Hx.
    + destruct (FunFacts.mergeSort_n_error _ _ _ _ Er) as (a & b & _ & _ & Hab).
      by rewrite (Hall _ _ _ Hab).
  - rewrite IH; [done|done|].
    assert (length (take m rest) = S (length ys)) as Hl by (by rewrite Et).
    rewrite length_take in Hl. cbn [length] in *. lia.
Qed.

End Lists.

(** A filter keeps a strongly sorted list strongly sorted. *)
Lemma StronglySorted_filter {A} (R : A -> A -> Prop) (f : A -> bool) (l : list A) :
  StronglySorted R l -> StronglySorted R (List.filter f l).
Proof.
  induction 1 as [|a l Hl IH Ha]; simpl; [constructor|].
  destruct (f a); [|done]. constructor; [done|].
  rewrite List.Forall_forall in *. intros y [Hy _]%List.filter_In. by apply Ha.
Qed.

Section Runs.
Variable parseFloat : prim -> number.
Variable localeCompare : string -> prim -> Z.

(** merge on two arrays of records: the records of the result are the
    functional merge of the records of the two sides. *)
Lemma merge_records_run (sortBy : string) (fuel : nat) (h : heap)
    (left right : loc) (ls rs : list Product) :
  array_records h left = Some ls -> array_records h right = Some rs ->
  length ls + length rs < fuel ->
  match Fun.merge (product_cmp parseFloat localeCompare sortBy) ls rs with
  | Ok out =>
      exists vals,
        merge parseFloat localeCompare fuel left right sortBy h =
          Ok (length h, h ++ [CArr vals]) /\
        array_records (h ++ [CArr vals]) (length h) = Some out
  | Err e => merge parseFloat localeCompare fuel left right sortBy h = Err e
  end.
Proof.
  intros (L & Hl & HL%RunFacts.records_Forall2)%RunFacts.array_records_inv
         (R & Hr & HR%RunFacts.records_Forall2)%RunFacts.array_records_inv Hf.
  assert (VL : Forall (valid h) L).
  { apply Forall2_Forall_l with (1 := HL). apply Forall_true.
    intros v p. apply RunFacts.record_of_valid. }
  assert (VR : Forall (valid h) R).
  { apply Forall2_Forall_l with (1 := HR). apply Forall_true.
    intros v p. apply RunFacts.record_of_valid. }
  rewrite (RunFacts.merge_run parseFloat localeCompare h h (reflexivity _)
             left right L R Hl Hr VL VR sortBy fuel).
  2:{ by rewrite (Forall2_length _ _ _ HL), (Forall2_length _ _ _ HR). }
  pose proof (FunFacts.merge_rel
    (fun v p => record_of h v = Some p)
    (keycmp parseFloat localeCompare h sortBy)
    (product_cmp parseFloat localeCompare sortBy)
    (fun v w p q Hv Hw =>
       RunFacts.keycmp_product parseFloat localeCompare _ sortBy v w p q Hv Hw)
    L R ls rs HL HR) as Hrel.
  destruct (Fun.merge (keycmp _ _ _ _) L R) as [vals|e],
           (Fun.merge (product_cmp _ _ _) ls rs) as [out|e'];
    simpl in Hrel; try done; [|by subst].
  exists vals. split; [done|].
  unfold array_records. rewrite RunFacts.lookup_result.
  apply RunFacts.records_Forall2.
  eapply Forall2_impl; [exact Hrel|]. intros v p. apply RunFacts.record_of_app.
Qed.

(** On an array of two elements or more, mergeSort returns an array
    allocated after the store it was called in. *)
Lemma mergeSort_long_new (sortBy : string) (fuel : nat) (h h' : heap)
    (items r : loc) (L : list JsVal) :
  h !! items = Some (CArr L) -> Forall (valid h) L ->
  length L + 2 <= fuel -> 2 <= length L ->
  mergeSort parseFloat localeCompare fuel items sortBy h = Ok (r, h') ->
  length h <= r.
Proof.
  intros Hit HL Hf Hlen. destruct fuel as [|fuel]; [lia|].
  rewrite RunFacts.mergeSort_S.
  RunFacts.mstep (RunFacts.array_length_ok _ _ _ Hit).
  destruct (length L <=? 1) eqn:E; [apply Nat.leb_le in E; lia|].
  destruct (SorterFacts.half_lt (length L)) as [Hm1 Hm2]; [lia|].
  set (mid := length L / 2) in *.
  RunFacts.mstep (RunFacts.array_slice_ok h items L 0 mid Hit).
  rewrite Nat.min_l, Nat.sub_0_r, drop_0 by lia.
  set (h1 := h ++ [CArr (take mid L)]).
  RunFacts.mstep (RunFacts.array_slice_from_ok h1 items L mid
                    (RunFacts.lookup_ext _ _ _ _ Hit)).
  set (h2 := h1 ++ [CArr (drop mid L)]).
  assert (Hb2 : h `prefix_of` h2) by (by do 2 apply prefix_app_r).
  pose proof (RunFacts.mergeSort_run parseFloat localeCompare h sortBy fuel
    h2 (length h) (take mid L) Hb2
    (RunFacts.lookup_ext _ _ _ _ (RunFacts.lookup_result h _))
    (Forall_take _ _ _ HL)) as IHl.
  rewrite length_take in IHl. specialize (IHl ltac:(lia)).
  destruct (Fun.mergeSort _ (take mid L)) as [sl|e] eqn:Esl.
  2:{ rewrite ?RunFacts.bind_assoc, (RunFacts.bind_err _ _ _ _ IHl). done. }
  destruct IHl as (r1 & hy1 & Hrun1 & Hlk1 & _). RunFacts.mstep Hrun1.
  pose proof (RunFacts.mergeSort_run parseFloat localeCompare h sortBy fuel
    (h2 ++ hy1) (length h1) (drop mid L)
    (prefix_app_r _ _ _ Hb2)
    (RunFacts.lookup_ext _ _ _ _ (RunFacts.lookup_result h1 _))
    (Forall_drop _ _ _ HL)) as IHr.
  rewrite length_drop in IHr. specialize (IHr ltac:(lia)).
  destruct (Fun.mergeSort _ (drop mid L)) as [sr|e] eqn:Esr.
  2:{ rewrite ?RunFacts.bind_assoc, (RunFacts.bind_err _ _ _ _ IHr). done. }
  destruct IHr as (r2 & hy2 & Hrun2 & Hlk2 & _). RunFacts.mstep Hrun2.
  pose proof (FunFacts.mergeSort_perm _ _ _ Esl) as Psl.
  pose proof (FunFacts.mergeSort_perm _ _ _ Esr) as Psr.
  rewrite (RunFacts.merge_run parseFloat localeCompare h _
             (prefix_app_r _ _ _ (prefix_app_r _ _ _ Hb2)) r1 r2 sl sr).
  - destruct (Fun.merge _ sl sr) as [out|e]; [|done].
    intros [= <- <-]. unfold h2, h1. rewrite !length_app. lia.
  - by apply RunFacts.lookup_ext.
  - done.
  - rewrite Psl. by apply Forall_take.
  - rewrite Psr. by apply Forall_drop.
  - rewrite Psl, Psr, length_take, length_drop. lia.
Qed.

(** The comparison of two records raises no error but the TypeError of a
    name that is no string. *)
Lemma product_cmp_error (sortBy : string) (p q : Product) (e : error) :
  product_cmp parseFloat localeCompare sortBy p q = Err e -> e = TypeError.
Proof.
  unfold product_cmp, compare_keys.
  destruct (String.eqb sortBy "price"); [done|].
  destruct (get_field p sortBy); try done; by intros [= <-].
Qed.

Lemma name_cmp_fails (p q : Product) :
  ~ name_ok p -> product_cmp parseFloat localeCompare "name" p q = Err TypeError.
Proof.
  unfold name_ok, product_cmp, compare_keys. simpl String.eqb. cbn iota.
  change (get_field p "name") with (prod_name p).
  by destruct (prod_name p).
Qed.

(** *** An element that has no properties *)

(** A value other than [undefined] and [null] is copied without error; what
    it lacks of the four properties is [undefined] in the copy. *)
Lemma copy_product_any (h : heap) (v : JsVal) :
  valid h v -> v <> Prim PUndefined -> v <> Prim PNull ->
  exists p, copy_product v h = Ok (Ref (length h), h ++ [CObj p]).
Proof.
  intros Vv Hu Hn.
  assert (Hread : forall prop, exists x, get_prop v prop h = Ok (x, h)).
  { intros prop. unfold get_prop, read_prop.
    destruct v as [[]|l]; try done; eauto.
    destruct (lookup_lt_is_Some_2 h l Vv) as [c ->]. destruct c; eauto. }
  destruct (Hread "id") as [i Hi], (Hread "name") as [n Hnm],
           (Hread "price") as [pr Hpr], (Hread "image") as [im Him].
  exists (new_Product i n pr im). unfold copy_product.
  RunFacts.mstep Hi. RunFacts.mstep Hnm. RunFacts.mstep Hpr. RunFacts.mstep Him.
  by RunFacts.mstep (RunFacts.alloc_ok (CObj (new_Product i n pr im)) h).
Qed.

Lemma copy_product_null (h : heap) (v : JsVal) :
  v = Prim PUndefined \/ v = Prim PNull -> copy_product v h = Err TypeError.
Proof. by intros [-> | ->]. Qed.

(** The loop of [map] stops with the TypeError at the first element that
    is [undefined] or [null]. *)
Lemma map_loop_null (elems : list JsVal) :
  forall (h : heap) (A : loc) (acc : list JsVal),
  h !! A = Some (CArr acc) -> Forall (valid h) elems ->
  Exists (fun v => v = Prim PUndefined \/ v = Prim PNull) elems ->
  map_loop copy_product elems A h = Err TypeError.
Proof.
  induction elems as [|v elems IH]; intros h A acc HA Hv Hex.
  { by apply Exists_nil in Hex. }
  apply Forall_cons in Hv as [Vv Hv]. simpl map_loop.
  assert (Hcase : (v = Prim PUndefined \/ v = Prim PNull) \/
                  (v <> Prim PUndefined /\ v <> Prim PNull)).
  { destruct v as [[]|]; auto; right; by split. }
  destruct Hcase as [Hnull|[Hu Hn]].
  { by rewrite (RunFacts.bind_err _ _ _ _ (copy_product_null h v Hnull)). }
  apply Exists_cons in Hex as [[Hex|Hex]|Hex]; [done..|].
  destruct (copy_product_any h v Vv Hu Hn) as [p Hp].
  RunFacts.mstep Hp.
  assert (Hlk : (h ++ [CObj p]) !! A = Some (CArr acc))
    by (by apply RunFacts.lookup_ext).
  unfold array_push at 1, bind at 1. rewrite Hlk. cbn beta iota.
  apply (IH _ A (acc ++ [Ref (length h)])).
  - apply list_lookup_insert_eq. by eapply lookup_lt_Some.
  - rewrite Forall_forall in Hv |- *. intros w Hw. specialize (Hv w Hw).
    destruct w as [|l]; [done|]. simpl in *.
    rewrite length_insert, length_app. lia.
  - done.
Qed.

End Runs.
End MergeFacts.

(** X1. merge on sorted halves: for two arrays of records whose selected
    key values are well-formed and which are each in key order, merge
    returns a new array whose records are those of the left array and of
    the right array together, in key order. *)
Theorem merge_of_sorted_arrays (parseFloat : prim -> number)
    (localeCompare : string -> prim -> Z) (k : Key) (fuel : nat) (h : heap)
    (left right : loc) (ls rs : list Product) :
  array_records h left = Some ls -> array_records h right = Some rs ->
  Forall (key_ok parseFloat k) ls -> Forall (key_ok parseFloat k) rs ->
  comparator_total localeCompare k ->
  Sorted (Sorter.ordered (key_le parseFloat localeCompare k)) ls ->
  Sorted (Sorter.ordered (key_le parseFloat localeCompare k)) rs ->
  length ls + length rs < fuel ->
  exists vals out,
    Source.merge parseFloat localeCompare fuel left right (key_name k) h =
      Ok (length h, h ++ [CArr vals]) /\
    array_records (h ++ [CArr vals]) (length h) = Some out /\
    out ≡ₚ ls ++ rs /\
    Sorted (Sorter.ordered (key_le parseFloat localeCompare k)) out.
Proof.
  intros Hl Hr Hls Hrs Htot Sl Sr Hf.
  pose proof (MergeFacts.merge_records_run parseFloat localeCompare (key_name k)
                fuel h left right ls rs Hl Hr Hf) as Hrun.
  rewrite (FunFacts.merge_refines _ (key_le parseFloat localeCompare k)) in Hrun.
  - destruct Hrun as (vals & Hrun & Hrec).
    exists vals, (Sorter.merge_halves (key_le parseFloat localeCompare k) ls rs).
    split; [done|]. split; [done|]. split; [apply SorterFacts.merge_perm|].
    apply (SorterFacts.merge_Sorted _ (key_ok parseFloat k)); try done.
    intros p q. by apply SortFacts.key_le_total.
  - intros p q Hp _.
    apply SortFacts.key_decides, (SortFacts.key_ok_comparable parseFloat).
    rewrite Forall_forall in Hls. by apply Hls.
Qed.

Lemma merge_of_sorted_arrays_witness :
  exists vals out,
    Source.merge ExampleHost.parseFloat ExampleHost.localeCompare 4 3 4 "price"
      Cases.halves_store =
      Ok (length Cases.halves_store, Cases.halves_store ++ [CArr vals]) /\
    array_records (Cases.halves_store ++ [CArr vals])
      (length Cases.halves_store) = Some out /\
    out ≡ₚ [Examples.priced 25; Examples.priced 140] ++ [Examples.priced 75] /\
    Sorted (Sorter.ordered
              (key_le ExampleHost.parseFloat ExampleHost.localeCompare price)) out.
Proof.
  apply (merge_of_sorted_arrays ExampleHost.parseFloat ExampleHost.localeCompare
           price 4 Cases.halves_store 3 4
           [Examples.priced 25; Examples.priced 140] [Examples.priced 75]).
  - reflexivity.
  - reflexivity.
  - repeat constructor.
  - repeat constructor.
  - exact I.
  - repeat constructor.
  - repeat constructor.
  - simpl. lia.
Defined.

(** X2. merge keeps each side in its order: for any two arrays of values of
    the store, whatever their keys, merge either raises a TypeError or
    returns a new array, the one cell it adds to the store, in which the
    elements of the left array appear in their order and so do the elements
    of the right array, and which has as many elements as both together. *)
Theorem merge_keeps_each_side_in_order (parseFloat : prim -> number)
    (localeCompare : string -> prim -> Z) (k : Key) (fuel : nat) (h : heap)
    (left right : loc) (L R : list JsVal) :
  h !! left = Some (CArr L) -> h !! right = Some (CArr R) ->
  Forall (valid h) L -> Forall (valid h) R ->
  length L + length R < fuel ->
  match Source.merge parseFloat localeCompare fuel left right (key_name k) h with
  | Ok (r, h') =>
      exists out,
        r = length h /\ h' = h ++ [CArr out] /\
        L `sublist_of` out /\ R `sublist_of` out /\
        length out = length L + length R
  | Err e => e = TypeError
  end.
Proof.
  intros Hl Hr VL VR Hf.
  rewrite (RunFacts.merge_run parseFloat localeCompare h h (reflexivity _)
             left right L R Hl Hr VL VR (key_name k) fuel Hf).
  destruct (Fun.merge _ L R) as [out|e] eqn:E.
  - exists out. destruct (MergeFacts.merge_fun_sublist _ _ _ _ E) as [H1 H2].
    repeat split; try done.
    by rewrite (FunFacts.merge_fun_perm _ _ _ _ E), length_app.
  - destruct (FunFacts.merge_error _ _ _ _ E) as (a & b & Ha & Hb & Hab).
    rewrite Forall_forall in VL, VR.
    eapply RunFacts.keycmp_error; [| |exact Hab]; auto.
Qed.

Lemma merge_keeps_each_side_in_order_witness :
  match Source.merge ExampleHost.parseFloat ExampleHost.localeCompare 5 3 4
          "price" Cases.holed_store with
  | Ok (r, h') =>
      exists out,
        r = length Cases.holed_store /\ h' = Cases.holed_store ++ [CArr out] /\
        [Ref 0; Ref 1; Prim PUndefined] `sublist_of` out /\
        [Ref 2] `sublist_of` out /\
        length out = 3 + 1
  | Err e => e = TypeError
  end.
Proof.
  apply (merge_keeps_each_side_in_order ExampleHost.parseFloat
           ExampleHost.localeCompare price 5 Cases.holed_store 3 4
           [Ref 0; Ref 1; Prim PUndefined] [Ref 2]).
  - reflexivity.
  - reflexivity.
  - repeat constructor.
  - repeat constructor.
  - simpl. lia.
Defined.

(** X3. What mergeSort returns: on an array of values of the store,
    mergeSort leaves every cell of the store as it was; for a length of at
    most 1 it returns the array it was given, not a copy, and allocates
    nothing; for a length of at least 2 it returns an array allocated during
    the call, or raises. *)
Theorem mergeSort_returns_input_or_new_array (parseFloat : prim -> number)
    (localeCompare : string -> prim -> Z) (k : Key) (fuel : nat) (h : heap)
    (items : loc) (L : list JsVal) :
  h !! items = Some (CArr L) -> Forall (valid h) L ->
  length L + 2 <= fuel ->
  match Source.mergeSort parseFloat localeCompare fuel items (key_name k) h with
  | Ok (r, h') =>
      (forall l c, h !! l = Some c -> h' !! l = Some c) /\
      (length L <= 1 -> r = items /\ h' = h) /\
      (2 <= length L -> length h <= r /\ r < length h')
  | Err e => 2 <= length L
  end.
Proof.
  intros Hit HL Hf.
  pose proof (RunFacts.mergeSort_run parseFloat localeCompare h (key_name k)
                fuel h items L (reflexivity _) Hit HL Hf) as Hrun.
  destruct (Nat.le_gt_cases (length L) 1) as [Hshort|Hlong].
  - destruct fuel as [|fuel]; [lia|].
    rewrite RunFacts.mergeSort_S.
    RunFacts.mstep (RunFacts.array_length_ok _ _ _ Hit).
    apply Nat.leb_le in Hshort as E. rewrite E. unfold ret.
    split; [done|]. split; [done|]. lia.
  - destruct (Source.mergeSort _ _ fuel items (key_name k) h) as [[r h']|e] eqn:E;
      [|lia].
    destruct (Fun.mergeSort _ L) as [out|e]; [|congruence].
    destruct Hrun as (r' & hy & [= -> ->] & Hlk & _).
    split; [|split; [lia|]].
    + intros l c. apply lookup_app_l_Some.
    + intros _. split.
      * by apply (MergeFacts.mergeSort_long_new parseFloat localeCompare
                    (key_name k) fuel h (h ++ hy) items r' L).
      * by eapply lookup_lt_Some.
Qed.

Lemma mergeSort_returns_input_or_new_array_witness :
  match Source.mergeSort ExampleHost.parseFloat ExampleHost.localeCompare 4 4
          "price" Cases.halves_store with
  | Ok (r, h') =>
      (forall l c, Cases.halves_store !! l = Some c -> h' !! l = Some c) /\
      (1 <= 1 -> r = 4 /\ h' = Cases.halves_store) /\
      (2 <= 1 -> length Cases.halves_store <= r /\ r < length h')
  | Err e => 2 <= 1
  end.
Proof.
  apply (mergeSort_returns_input_or_new_array ExampleHost.parseFloat
           ExampleHost.localeCompare price 4 Cases.halves_store 4 [Ref 2]).
  - reflexivity.
  - repeat constructor.
  - simpl. lia.
Defined.

(** X4. A catalogue that is already in order: for every array of records
    whose selected key values are well-formed (and, for names,
    localeCompare a consistent comparator) and which is already in key
    order, the sort returns the same records in the same order. *)
Theorem sort_keeps_sorted_input (parseFloat : prim -> number)
    (localeCompare : string -> prim -> Z) (k : Key) (fuel : nat) (h : heap)
    (a : loc) (ps : list Product) :
  array_records h a = Some ps ->
  Forall (key_ok parseFloat k) ps ->
  comparator_ok localeCompare k ->
  Sorted (Sorter.ordered (key_le parseFloat localeCompare k)) ps ->
  length ps + 2 <= fuel ->
  exists r h', sorts_to parseFloat localeCompare k fuel h a r h' ps.
Proof.
  intros Ha Hok Hcmp Hs Hf.
  destruct (SortFacts.sort_run parseFloat localeCompare k fuel h a ps Ha)
    as (r & hy & Hrun & _); [|done|].
  { eapply Forall_impl; [exact Hok|]. apply SortFacts.key_ok_comparable. }
  exists r, (h ++ hy). unfold Sorter.sort in Hrun.
  rewrite SorterFacts.sort_n_fixed in Hrun; [done|].
  apply (SorterFacts.Sorted_strong _ (key_ok parseFloat k)); try done.
  intros p q r'. by apply SortFacts.key_le_trans.
Qed.

Lemma sort_keeps_sorted_input_witness :
  exists r h',
    sorts_to ExampleHost.parseFloat ExampleHost.localeCompare name 11
      Cases.by_name_store 9 r h' Cases.by_name.
Proof.
  apply (sort_keeps_sorted_input ExampleHost.parseFloat ExampleHost.localeCompare
           name 11 Cases.by_name_store 9 Cases.by_name).
  - reflexivity.
  - repeat constructor.
  - split; [exact HostFacts.host_lc_total|exact HostFacts.host_lc_trans].
  - repeat constructor.
  - simpl. lia.
Defined.

(** X5. Sorting by name what was sorted by price: for every array of
    records whose prices parse to numbers and whose names are strings (and
    localeCompare a consistent comparator), sortByName applied to the
    result of sortByPrice returns the records in name order, and the
    records that share a name in price order. *)
Theorem sort_by_name_after_price (parseFloat : prim -> number)
    (localeCompare : string -> prim -> Z) (fuel : nat) (h : heap)
    (a : loc) (ps : list Product) :
  array_records h a = Some ps ->
  Forall (price_ok parseFloat) ps -> Forall name_ok ps ->
  lc_total localeCompare -> lc_trans localeCompare ->
  length ps + 2 <= fuel ->
  exists r1 h1 byPrice r2 h2 out,
    sorts_to parseFloat localeCompare price fuel h a r1 h1 byPrice /\
    sorts_to parseFloat localeCompare name fuel h1 r1 r2 h2 out /\
    out ≡ₚ ps /\
    Sorted (Sorter.ordered (name_le localeCompare)) out /\
    forall x, x ∈ ps ->
      StronglySorted (Sorter.ordered (price_le parseFloat))
        (List.filter (same_key (name_le localeCompare) x) out).
Proof.
  intros Ha Hpr Hnm Htot Htr Hf.
  destruct (SortFacts.sort_run parseFloat localeCompare price fuel h a ps Ha)
    as (r1 & hy1 & Hs1 & _); [by apply Forall_true|done|].
  set (byPrice := Sorter.sort (key_le parseFloat localeCompare price) ps) in *.
  assert (Hperm1 : byPrice ≡ₚ ps) by apply SorterFacts.sort_perm.
  destruct (SortFacts.sort_run parseFloat localeCompare name fuel (h ++ hy1) r1
              byPrice) as (r2 & hy2 & Hs2 & _).
  { by destruct Hs1. }
  { by rewrite Hperm1. }
  { by rewrite Hperm1. }
  set (out := Sorter.sort (key_le parseFloat localeCompare name) byPrice) in *.
  assert (Hperm2 : out ≡ₚ byPrice) by apply SorterFacts.sort_perm.
  exists r1, (h ++ hy1), byPrice, r2, ((h ++ hy1) ++ hy2), out.
  split; [done|]. split; [done|]. split; [by rewrite Hperm2|]. split.
  - apply (SorterFacts.sort_Sorted _ (key_ok parseFloat name)).
    + intros p q. by apply (SortFacts.key_le_total parseFloat localeCompare name).
    + by rewrite Hperm1.
  - intros x Hx. unfold out.
    rewrite (SorterFacts.sort_stable _ (key_ok parseFloat name)).
    + apply MergeFacts.StronglySorted_filter.
      apply (SorterFacts.Sorted_strong _ (key_ok parseFloat price)).
      * intros p q r'.
        by apply (SortFacts.key_le_trans parseFloat localeCompare price).
      * by rewrite Hperm1.
      * apply (SorterFacts.sort_Sorted _ (key_ok parseFloat price)); [|done].
        intros p q.
        by apply (SortFacts.key_le_total parseFloat localeCompare price).
    + intros p q. by apply (SortFacts.key_le_total parseFloat localeCompare name).
    + intros p q r'.
      by apply (SortFacts.key_le_trans parseFloat localeCompare name).
    + rewrite Forall_forall in Hnm. by apply Hnm.
    + by rewrite Hperm1.
Qed.

Lemma sort_by_name_after_price_witness :
  exists r1 h1 byPrice r2 h2 out,
    sorts_to ExampleHost.parseFloat ExampleHost.localeCompare price 7
      Cases.shelf_store 5 r1 h1 byPrice /\
    sorts_to ExampleHost.parseFloat ExampleHost.localeCompare name 7
      h1 r1 r2 h2 out /\
    out ≡ₚ Cases.shelf /\
    Sorted (Sorter.ordered (name_le ExampleHost.localeCompare)) out /\
    forall x, x ∈ Cases.shelf ->
      StronglySorted (Sorter.ordered (price_le ExampleHost.parseFloat))
        (List.filter (same_key (name_le ExampleHost.localeCompare) x) out).
Proof.
  apply (sort_by_name_after_price ExampleHost.parseFloat
           ExampleHost.localeCompare 7 Cases.shelf_store 5 Cases.shelf).
  - reflexivity.
  - repeat constructor.
  - repeat constructor.
  - exact HostFacts.host_lc_total.
  - exact HostFacts.host_lc_trans.
  - simpl. lia.
Defined.

(** X6. A first product without a string for a name: for every array of
    two records or more whose first record has a name that is no string
    (a product without a name, say), sortByName raises a TypeError. *)
Theorem sortByName_fails_on_first_name (parseFloat : prim -> number)
    (localeCompare : string -> prim -> Z) (fuel : nat) (h : heap) (a : loc)
    (p : Product) (ps : list Product) :
  array_records h a = Some (p :: ps) ->
  ps <> [] -> ~ name_ok p ->
  length (p :: ps) + 2 <= fuel ->
  Source.sortByName parseFloat localeCompare fuel (Ref a) h = Err TypeError.
Proof.
  intros Ha Hps Hp Hf.
  pose proof (RunFacts.sort_products_run parseFloat localeCompare "name" fuel h
                a (p :: ps) Ha Hf) as Hrun.
  unfold Fun.mergeSort in Hrun.
  rewrite (MergeFacts.mergeSort_n_first_fails _ TypeError) in Hrun; try done.
  - intros q. by apply MergeFacts.name_cmp_fails.
  - intros x y e. apply MergeFacts.product_cmp_error.
Qed.

Lemma sortByName_fails_on_first_name_witness :
  Source.sortByName ExampleHost.parseFloat ExampleHost.localeCompare 4 (Ref 2)
    Cases.nameless_store = Err TypeError.
Proof.
  apply (sortByName_fails_on_first_name ExampleHost.parseFloat
           ExampleHost.localeCompare 4 Cases.nameless_store 2
           (Examples.priced 5) [Examples.named "a"]).
  - reflexivity.
  - discriminate.
  - intros H. exact H.
  - simpl. lia.
Defined.

(** X7. An element that is undefined or null: for every array of values of
    the store that holds [undefined] or [null], sortByPrice and sortByName
    raise a TypeError, before anything is compared. *)
Theorem sort_fails_on_missing_element (parseFloat : prim -> number)
    (localeCompare : string -> prim -> Z) (k : Key) (fuel : nat) (h : heap)
    (a : loc) (elems : list JsVal) :
  h !! a = Some (CArr elems) -> Forall (valid h) elems ->
  Exists (fun v => v = Prim PUndefined \/ v = Prim PNull) elems ->
  sort parseFloat localeCompare k fuel (Ref a) h = Err TypeError.
Proof.
  intros Ha Hv Hex. rewrite SortFacts.sort_eq. unfold Source.sort_products.
  RunFacts.mstep (RunFacts.as_array_ok _ _ _ Ha).
  RunFacts.mstep (RunFacts.array_length_ok _ _ _ Ha).
  destruct elems as [|v elems]; [by apply Exists_nil in Hex|].
  change (length (v :: elems) =? 0) with false. cbn iota.
  unfold Source.Array_map.
  RunFacts.mstep (RunFacts.array_elems_ok _ _ _ Ha).
  RunFacts.mstep (RunFacts.alloc_ok (CArr []) h).
  rewrite ?RunFacts.bind_assoc. apply RunFacts.bind_err.
  apply (MergeFacts.map_loop_null (v :: elems) _ _ []).
  - apply RunFacts.lookup_result.
  - eapply Forall_impl; [exact Hv|]. intros [|l]; simpl; [done|].
    rewrite length_app. lia.
  - done.
Qed.

Lemma sort_fails_on_missing_element_witness :
  sort ExampleHost.parseFloat ExampleHost.localeCompare price 4 (Ref 1)
    Cases.null_store = Err TypeError.
Proof.
  apply (sort_fails_on_missing_element ExampleHost.parseFloat
           ExampleHost.localeCompare price 4 Cases.null_store 1
           [Ref 0; Prim PNull]).
  - reflexivity.
  - repeat constructor.
  - apply Exists_cons_tl, Exists_cons_hd. by right.
Defined.

(** X8. The order is decided by the selected key alone: two arrays of
    records that hold the same selected key values at the same positions
    are rearranged in the same way, whatever their other properties: the
    two results are the two sides of one rearrangement of the pairs, or
    both calls raise the same error. *)
Theorem sort_order_depends_on_key_only (parseFloat : prim -> number)
    (localeCompare : string -> prim -> Z) (k : Key) (fuel : nat) (h : heap)
    (a b : loc) (ps qs : list Product) :
  array_records h a = Some ps -> array_records h b = Some qs ->
  Forall2 (fun p q => get_field p (key_name k) = get_field q (key_name k)) ps qs ->
  length ps + 2 <= fuel ->
  match sort parseFloat localeCompare k fuel (Ref a) h,
        sort parseFloat localeCompare k fuel (Ref b) h with
  | Ok (r1, h1), Ok (r2, h2) =>
      exists pairs,
        pairs ≡ₚ zip ps qs /\
        array_records h1 r1 = Some pairs.*1 /\
        array_records h2 r2 = Some pairs.*2
  | Err e1, Err e2 => e1 = e2
  | _, _ => False
  end.
Proof.
  intros Ha Hb Hkeys Hf.
  pose proof (Forall2_length _ _ _ Hkeys) as Hlen.
  rewrite !SortFacts.sort_eq.
  pose proof (RunFacts.sort_products_run parseFloat localeCompare (key_name k)
                fuel h a ps Ha Hf) as Hrun1.
  pose proof (RunFacts.sort_products_run parseFloat localeCompare (key_name k)
                fuel h b qs Hb ltac:(lia)) as Hrun2.
  set (cmp := product_cmp parseFloat localeCompare (key_name k)) in *.
  set (cmp2 := fun x y : Product * Product => cmp x.1 y.1).
  pose proof (FunFacts.mergeSort_rel (fun (x : Product * Product) p => x.1 = p)
                cmp2 cmp) as Hrel1.
  pose proof (FunFacts.mergeSort_rel
                (fun (x : Product * Product) q =>
                   x.2 = q /\
                   get_field x.1 (key_name k) = get_field x.2 (key_name k))
                cmp2 cmp) as Hrel2.
  specialize (Hrel1 ltac:(by intros x y p q <- <-) (zip ps qs) ps).
  specialize (Hrel2 ltac:(intros x y p q [<- Hx] [<- Hy]; unfold cmp2, cmp,
                            product_cmp; by rewrite Hx, Hy) (zip ps qs) qs).
  assert (H1 : Forall2 (fun (x : Product * Product) p => x.1 = p) (zip ps qs) ps).
  { clear -Hkeys. induction Hkeys; simpl; by constructor. }
  assert (H2 : Forall2 (fun (x : Product * Product) q =>
                          x.2 = q /\
                          get_field x.1 (key_name k) = get_field x.2 (key_name k))
                 (zip ps qs) qs).
  { clear -Hkeys. induction Hkeys; simpl; by constructor. }
  specialize (Hrel1 H1). specialize (Hrel2 H2).
  destruct (Fun.mergeSort cmp2 (zip ps qs)) as [pairs|e] eqn:E;
    destruct (Fun.mergeSort cmp ps) as [out1|e1];
    destruct (Fun.mergeSort cmp qs) as [out2|e2]; simpl in Hrel1, Hrel2;
    try done.
  - destruct Hrun1 as (r1 & hy1 & -> & Hrec1 & _).
    destruct Hrun2 as (r2 & hy2 & -> & Hrec2 & _).
    exists pairs. split; [by eapply FunFacts.mergeSort_perm|].
    rewrite Hrec1, Hrec2. split; f_equal.
    + clear -Hrel1. induction Hrel1; simpl; by f_equal.
    + clear -Hrel2. induction Hrel2 as [|x q l l' [Hx _] _ IH]; simpl; by f_equal.
  - rewrite Hrun1, Hrun2. congruence.
Qed.

Lemma sort_order_depends_on_key_only_witness :
  match sort ExampleHost.parseFloat ExampleHost.localeCompare price 6 (Ref 8)
          Cases.twin_store,
        sort ExampleHost.parseFloat ExampleHost.localeCompare price 6 (Ref 9)
          Cases.twin_store with
  | Ok (r1, h1), Ok (r2, h2) =>
      exists pairs,
        pairs ≡ₚ zip Examples.unstable_input Cases.renamed /\
        array_records h1 r1 = Some pairs.*1 /\
        array_records h2 r2 = Some pairs.*2
  | Err e1, Err e2 => e1 = e2
  | _, _ => False
  end.
Proof.
  apply (sort_order_depends_on_key_only ExampleHost.parseFloat
           ExampleHost.localeCompare price 6 Cases.twin_store 8 9
           Examples.unstable_input Cases.renamed).
  - reflexivity.
  - reflexivity.
  - repeat constructor.
  - simpl. lia.
Defined.

(** ** Runs of the product store *)

Module BackendFacts.
Import Js Source Store Backend Catalogue.
Local Open Scope js_scope.

Lemma try_catch_ok {A} (block handler : M A) (h : heap) (r : A * heap) :
  block h = Ok r -> try_catch block handler h = Ok r.
Proof. unfold try_catch. by intros ->. Qed.

Lemma try_catch_caught {A} (block handler : M A) (h : heap) :
  block h = Err TypeError -> try_catch block handler h = handler h.
Proof. unfold try_catch. by intros ->. Qed.

(** *** map with a callback that copies a product *)

Section Copies.
Variable f : JsVal -> M JsVal.
Variable h : heap.
Hypothesis f_copies : forall (h' : heap) (v : JsVal) (p : Product),
  h `prefix_of` h' -> record_of h v = Some p ->
  f v h' = Ok (Ref (length h'), h' ++ [CObj p]).

Lemma map_loop_copies (elems : list JsVal) (ps : list Product) :
  Forall2 (fun v p => record_of h v = Some p) elems ps ->
  forall done : list Product,
  map_loop f elems (length h) (copied h done) = Ok (tt, copied h (done ++ ps)).
Proof.
  induction 1 as [|v p elems ps Hv Hrest IH]; intros done.
  - simpl. unfold ret. by rewrite app_nil_r.
  - simpl map_loop.
    assert (Hb : h `prefix_of` copied h done) by apply prefix_app_r, reflexivity.
    RunFacts.mstep (f_copies _ v p Hb Hv).
    replace (copied h done ++ [CObj p]) with
      (h ++ CArr (Ref <$> seq (S (length h)) (length done)) :: (CObj <$> (done ++ [p]))).
    2:{ unfold copied. by rewrite fmap_app, <- app_assoc. }
    RunFacts.mstep (RunFacts.push_middle h (CObj <$> (done ++ [p]))
             (Ref <$> seq (S (length h)) (length done))
             (Ref (length (copied h done)))).
    replace (h ++ _ :: _) with (copied h (done ++ [p])).
    + rewrite IH. by rewrite <- app_assoc.
    + unfold copied. rewrite !length_app. simpl length.
      rewrite length_fmap, Nat.add_1_r, seq_S, fmap_app. simpl.
      by rewrite Nat.add_succ_r.
Qed.

Lemma Array_map_copies (a : loc) (elems : list JsVal) (ps : list Product) :
  h !! a = Some (CArr elems) -> records h elems = Some ps ->
  Array_map f a h = Ok (length h, copied h ps).
Proof.
  intros Ha Hps%RunFacts.records_Forall2. unfold Array_map.
  RunFacts.mstep (RunFacts.array_elems_ok _ _ _ Ha).
  RunFacts.mstep (RunFacts.alloc_ok (CArr []) h).
  change (h ++ [CArr []]) with (copied h []).
  by RunFacts.mstep (map_loop_copies elems ps Hps []).
Qed.

End Copies.

Lemma call_toJSON_run (hb h : heap) (v : JsVal) (p : Product) :
  hb `prefix_of` h -> record_of hb v = Some p ->
  call_toJSON v h = Ok (Ref (length h), h ++ [CObj p]).
Proof.
  intros Hb Hv. pose proof Hv as (l & -> & Hl)%RunFacts.record_of_inv.
  destruct Hb as [k ->]. unfold call_toJSON.
  rewrite (lookup_app_l_Some _ _ _ _ Hl).
  apply (RunFacts.copy_product_run hb); [by apply prefix_app_r|done].
Qed.

Lemma copied_array_records (h : heap) (ps : list Product) :
  array_records (copied h ps) (length h) = Some ps.
Proof.
  unfold array_records, copied. rewrite list_lookup_middle by done.
  apply RunFacts.records_Forall2, RunFacts.copied_records.
Qed.

Lemma copied_length (h : heap) (ps : list Product) :
  length (copied h ps) = S (length h + length ps).
Proof. unfold copied. rewrite length_app. simpl. rewrite length_fmap. lia. Qed.

(** The elements of the copy are new. *)
Lemma copied_fresh (h : heap) (ps : list Product) :
  fresh_elems h (copied h ps) (length h).
Proof.
  exists (Ref <$> seq (S (length h)) (length ps)). split.
  - unfold copied. by rewrite list_lookup_middle.
  - by apply (RunFacts.copies_fresh h (length ps)).
Qed.

(** *** The parsed document in the store *)

Lemma allocate_items_run (ps : list Product) :
  forall h : heap,
  allocate_items (IObj <$> ps) h =
  Ok (Ref <$> seq (length h) (length ps), h ++ (CObj <$> ps)).
Proof.
  induction ps as [|p ps IH]; intros h.
  - simpl. unfold ret. by rewrite app_nil_r.
  - simpl allocate_items. unfold allocate_item.
    RunFacts.mstep (RunFacts.alloc_ok (CObj p) h). rewrite RunFacts.bind_ret.
    RunFacts.mstep (IH (h ++ [CObj p])). unfold ret.
    rewrite length_app, Nat.add_1_r, <- app_assoc. simpl. done.
Qed.

Lemma parsed_length (h : heap) (ps : list Product) :
  length (parsed h ps) = S (length h + length ps).
Proof. unfold parsed. rewrite !length_app, length_fmap. simpl. lia. Qed.

Lemma allocate_array_run (h : heap) (ps : list Product) :
  allocate (JArray (IObj <$> ps)) h =
  Ok (Ref (length h + length ps), parsed h ps).
Proof.
  unfold allocate. RunFacts.mstep (allocate_items_run ps h).
  RunFacts.mstep (RunFacts.alloc_ok (CArr (Ref <$> seq (length h) (length ps)))
                    (h ++ (CObj <$> ps))).
  unfold ret, parsed. by rewrite length_app, length_fmap, <- app_assoc.
Qed.

Lemma parsed_lookup (h : heap) (ps : list Product) :
  parsed h ps !! (length h + length ps) =
  Some (CArr (Ref <$> seq (length h) (length ps))).
Proof.
  unfold parsed. rewrite app_assoc.
  replace (length h + length ps) with (length (h ++ (CObj <$> ps)))
    by (by rewrite length_app, length_fmap).
  apply RunFacts.lookup_result.
Qed.

Lemma parsed_records (h : heap) (ps : list Product) :
  records (parsed h ps) (Ref <$> seq (length h) (length ps)) = Some ps.
Proof.
  apply RunFacts.records_Forall2. unfold parsed. rewrite app_assoc.
  eapply Forall2_impl; [apply RunFacts.copied_records_from|].
  intros v p. apply RunFacts.record_of_app.
Qed.

Section Runs.
Variable host : Host.
Variable defaultProducts : loc.

(** saveProducts on an array of products: the text of its records is
    written under the key, unless [setItem] throws; the store gains the
    plain objects. *)
Lemma saveProducts_run (st : storage) (h : heap) (a : loc) (ps : list Product) :
  array_records h a = Some ps ->
  saveProducts host (Ref a) st h =
  Ok (if setItem_throws host st STORAGE_KEY (JSON_stringify host ps)
      then (false, st)
      else (true, <[STORAGE_KEY := JSON_stringify host ps]> st),
      copied h ps).
Proof.
  intros (elems & Ha & Hps)%RunFacts.array_records_inv.
  unfold saveProducts. apply try_catch_ok. unfold call_map.
  RunFacts.mstep (RunFacts.as_array_ok _ _ _ Ha).
  RunFacts.mstep (Array_map_copies call_toJSON h
                    (fun h' v p => call_toJSON_run h h' v p) a elems ps Ha Hps).
  unfold plain_objects at 1, bind at 1. rewrite copied_array_records.
  cbn beta iota. by destruct (setItem_throws _ _ _ _).
Qed.

(** saveProducts on what is no array. *)
Lemma saveProducts_not_array (st : storage) (h : heap) (v : JsVal) :
  Contract.not_an_array h v ->
  saveProducts host v st h = Ok ((false, st), h).
Proof.
  intros Hv. unfold saveProducts. rewrite try_catch_caught; [done|].
  unfold call_map. destruct v as [p|l].
  - by RunFacts.mstep (RunFacts.as_array_prim h p).
  - destruct Hv as [p Hp].
    by RunFacts.mstep (RunFacts.as_array_object h l p Hp).
Qed.

(** getProducts on a storage that holds the text of an array of objects. *)
Lemma getProducts_parsed (st : storage) (h : heap) (text : string)
    (ps : list Product) :
  st !! STORAGE_KEY = Some text -> String.length text <> 0 ->
  JSON_parse host text = Some (JArray (IObj <$> ps)) ->
  getProducts host defaultProducts st h =
  Ok ((length (parsed h ps), st), copied (parsed h ps) ps).
Proof.
  intros Hst Hlen Hparse. unfold getProducts. apply try_catch_ok.
  rewrite Hst. change (default EmptyString (Some text)) with text.
  destruct (String.length text =? 0) eqn:E; [by apply Nat.eqb_eq in E|].
  rewrite Hparse.
  RunFacts.mstep (allocate_array_run h ps). unfold call_map.
  RunFacts.mstep (RunFacts.as_array_ok _ _ _ (parsed_lookup h ps)).
  by RunFacts.mstep (RunFacts.Array_map_run _ _ _ _ (parsed_lookup h ps)
                       (parsed_records h ps)).
Qed.

(** getProducts on a storage without text under the key. *)
Lemma getProducts_empty (st : storage) (h : heap) (ds : list Product) :
  String.length (default EmptyString (st !! STORAGE_KEY)) = 0 ->
  array_records h defaultProducts = Some ds ->
  getProducts host defaultProducts st h =
  Ok ((defaultProducts,
       if setItem_throws host st STORAGE_KEY (JSON_stringify host ds) then st
       else <[STORAGE_KEY := JSON_stringify host ds]> st),
      copied h ds).
Proof.
  intros Hst Hds. unfold getProducts. apply try_catch_ok.
  rewrite Hst. change (0 =? 0) with true. cbn iota.
  RunFacts.mstep (saveProducts_run st h defaultProducts ds Hds).
  by destruct (setItem_throws _ _ _ _).
Qed.

(** getProducts on a text that is no JSON. *)
Lemma getProducts_no_json (st : storage) (h : heap) (text : string) :
  st !! STORAGE_KEY = Some text -> String.length text <> 0 ->
  JSON_parse host text = None ->
  getProducts host defaultProducts st h = Ok ((defaultProducts, st), h).
Proof.
  intros Hst Hlen Hparse. unfold getProducts. apply try_catch_ok.
  rewrite Hst. change (default EmptyString (Some text)) with text.
  destruct (String.length text =? 0) eqn:E; [by apply Nat.eqb_eq in E|].
  by rewrite Hparse.
Qed.

(** getProducts on the text of a value that is no array. *)
Lemma getProducts_no_array (st : storage) (h : heap) (text : string) (v : item) :
  st !! STORAGE_KEY = Some text -> String.length text <> 0 ->
  JSON_parse host text = Some (JValue v) ->
  getProducts host defaultProducts st h = Ok ((defaultProducts, st), h).
Proof.
  intros Hst Hlen Hparse. unfold getProducts. rewrite try_catch_caught; [done|].
  rewrite Hst. change (default EmptyString (Some text)) with text.
  destruct (String.length text =? 0) eqn:E; [by apply Nat.eqb_eq in E|].
  rewrite Hparse. unfold allocate, allocate_item, call_map. destruct v as [p|p].
  - rewrite RunFacts.bind_ret.
    by RunFacts.mstep (RunFacts.as_array_prim h p).
  - RunFacts.mstep (RunFacts.alloc_ok (CObj p) h). rewrite RunFacts.bind_ret.
    by RunFacts.mstep (RunFacts.as_array_object (h ++ [CObj p]) (length h) p
                         (RunFacts.lookup_result h (CObj p))).
Qed.

End Runs.

(** *** The callbacks on a product *)

Lemma has_id_run (hb h : heap) (id : prim) (v : JsVal) (p : Product) :
  hb `prefix_of` h -> record_of hb v = Some p ->
  has_id id v h = Ok (id_is id p, h).
Proof.
  intros Hb Hv. unfold has_id.
  by RunFacts.mstep (RunFacts.get_prop_ok hb h v "id" _ Hb
                       (RunFacts.record_of_valid _ _ _ Hv)
                       (RunFacts.record_of_read _ _ _ "id" Hv)).
Qed.

Lemma has_other_id_run (hb h : heap) (id : prim) (v : JsVal) (p : Product) :
  hb `prefix_of` h -> record_of hb v = Some p ->
  has_other_id id v h = Ok (negb (id_is id p), h).
Proof.
  intros Hb Hv. unfold has_other_id.
  by RunFacts.mstep (RunFacts.get_prop_ok hb h v "id" _ Hb
                       (RunFacts.record_of_valid _ _ _ Hv)
                       (RunFacts.record_of_read _ _ _ "id" Hv)).
Qed.

Lemma id_of_run (hb h : heap) (v : JsVal) (p : Product) :
  hb `prefix_of` h -> record_of hb v = Some p ->
  id_of v h = Ok (Prim (prod_id p), h).
Proof.
  intros Hb Hv. unfold id_of.
  by RunFacts.mstep (RunFacts.get_prop_ok hb h v "id" _ Hb
                       (RunFacts.record_of_valid _ _ _ Hv)
                       (RunFacts.record_of_read _ _ _ "id" Hv)).
Qed.

(** [products.map(p => p.id)]: one new cell, the array of the ids. *)
Lemma map_loop_ids (h0 : heap) (elems : list JsVal) (ps : list Product) :
  Forall2 (fun v p => record_of h0 v = Some p) elems ps ->
  forall acc : list JsVal,
  map_loop id_of elems (length h0) (h0 ++ [CArr acc]) =
  Ok (tt, h0 ++ [CArr (acc ++ (Prim <$> (prod_id <$> ps)))]).
Proof.
  induction 1 as [|v p elems ps Hv Hrest IH]; intros acc.
  - simpl. unfold ret. by rewrite app_nil_r.
  - simpl map_loop.
    RunFacts.mstep (id_of_run h0 (h0 ++ [CArr acc]) v p
                      (prefix_app_r _ _ _ (reflexivity _)) Hv).
    RunFacts.mstep (RunFacts.push_result h0 acc (Prim (prod_id p))).
    rewrite IH. by rewrite <- app_assoc.
Qed.

Lemma Array_map_ids (h : heap) (a : loc) (elems : list JsVal) (ps : list Product) :
  h !! a = Some (CArr elems) -> records h elems = Some ps ->
  Array_map id_of a h = Ok (length h, h ++ [CArr (Prim <$> (prod_id <$> ps))]).
Proof.
  intros Ha Hps%RunFacts.records_Forall2. unfold Array_map.
  RunFacts.mstep (RunFacts.array_elems_ok _ _ _ Ha).
  RunFacts.mstep (RunFacts.alloc_ok (CArr []) h).
  by RunFacts.mstep (map_loop_ids h elems ps Hps []).
Qed.

(** [products.filter(p => p.id !== id)]: one new cell, the array of the
    elements whose id is another one, in order. *)
Lemma filter_loop_run (h0 : heap) (id : prim) (elems : list JsVal)
    (ps : list Product) :
  Forall2 (fun v p => record_of h0 v = Some p) elems ps ->
  forall acc : list JsVal,
  exists kept,
    filter_loop (has_other_id id) elems (length h0) (h0 ++ [CArr acc]) =
      Ok (tt, h0 ++ [CArr (acc ++ kept)]) /\
    Forall2 (fun v p => record_of h0 v = Some p) kept
      (List.filter (fun p => negb (id_is id p)) ps).
Proof.
  induction 1 as [|v p elems ps Hv Hrest IH]; intros acc.
  - exists []. simpl. unfold ret. by rewrite app_nil_r.
  - simpl filter_loop.
    RunFacts.mstep (has_other_id_run h0 (h0 ++ [CArr acc]) id v p
                      (prefix_app_r _ _ _ (reflexivity _)) Hv).
    simpl List.filter. destruct (negb (id_is id p)).
    + RunFacts.mstep (RunFacts.push_result h0 acc v).
      destruct (IH (acc ++ [v])) as (kept & Hrun & Hkept).
      exists (v :: kept). rewrite Hrun, <- app_assoc. split; [done|].
      by constructor.
    + rewrite RunFacts.bind_ret. destruct (IH acc) as (kept & Hrun & Hkept).
      by exists kept.
Qed.

Lemma Array_filter_run (h : heap) (id : prim) (a : loc) (elems : list JsVal)
    (ps : list Product) :
  h !! a = Some (CArr elems) -> records h elems = Some ps ->
  exists kept,
    Array_filter (has_other_id id) a h = Ok (length h, h ++ [CArr kept]) /\
    Forall2 (fun v p => record_of h v = Some p) kept
      (List.filter (fun p => negb (id_is id p)) ps).
Proof.
  intros Ha Hps%RunFacts.records_Forall2. unfold Array_filter.
  destruct (filter_loop_run h id elems ps Hps []) as (kept & Hrun & Hkept).
  exists kept. split; [|done].
  RunFacts.mstep (RunFacts.array_elems_ok _ _ _ Ha).
  RunFacts.mstep (RunFacts.alloc_ok (CArr []) h).
  by RunFacts.mstep Hrun.
Qed.

(** [products.find(p => p.id === id)]: the first element with the id. *)
Lemma find_loop_run (h : heap) (id : prim) (elems : list JsVal)
    (ps : list Product) :
  Forall2 (fun v p => record_of h v = Some p) elems ps ->
  exists v,
    find_loop (has_id id) elems h = Ok (v, h) /\
    match List.find (id_is id) ps with
    | Some p => record_of h v = Some p
    | None => v = Prim PUndefined
    end.
Proof.
  induction 1 as [|v p elems ps Hv Hrest IH].
  - by exists (Prim PUndefined).
  - simpl find_loop.
    RunFacts.mstep (has_id_run h h id v p (reflexivity _) Hv).
    simpl List.find. destruct (id_is id p).
    + by exists v.
    + exact IH.
Qed.

(** Writing an array cell leaves the products where they are. *)
Lemma record_of_insert_array (h : heap) (r : loc) (old new : list JsVal)
    (v : JsVal) (p : Product) :
  h !! r = Some (CArr old) -> record_of h v = Some p ->
  record_of (<[r := CArr new]> h) v = Some p.
Proof.
  intros Hr (l & -> & Hl)%RunFacts.record_of_inv. simpl.
  rewrite list_lookup_insert_ne by congruence. by rewrite Hl.
Qed.

Section Products.
Variable host : Host.
Variable defaultProducts : loc.

Lemma not_blank (v : prim) :
  valid_text host v -> blank host v = false.
Proof.
  intros (s & -> & Hs & Ht). unfold blank. simpl.
  apply Nat.eqb_neq in Hs, Ht. by rewrite Hs, Ht.
Qed.

Lemma not_bad_price (v : prim) :
  valid_price host v -> bad_price (parseFloat host v) = false.
Proof. intros [H1 H2]. unfold bad_price. by rewrite H1, H2. Qed.

Lemma not_bad_id (id : prim) :
  valid_id host id -> bad_id host id = false.
Proof. intros [H1 H2]. unfold bad_id. by rewrite H1, H2. Qed.

(** addProduct once getProducts has returned the array at [r], of the
    products [ps]: the new product is pushed on that array, and the text of
    the extended array is written. *)
Lemma addProduct_from (st st1 : storage) (h h2 : heap) (name image : string)
    (price : prim) (r : loc) (elems : list JsVal) (ps : list Product) :
  valid_text host (PStr name) -> valid_price host price ->
  valid_text host (PStr image) ->
  getProducts host defaultProducts st h = Ok ((r, st1), h2) ->
  h2 !! r = Some (CArr elems) -> records h2 elems = Some ps ->
  exists junk,
    let np := added host ps name price image in
    let n := length h2 + length junk in
    let h5 := <[r := CArr (elems ++ [Ref n])]> (h2 ++ junk ++ [CObj np]) in
    array_records h5 r = Some (ps ++ [np]) /\
    record_of h5 (Ref n) = Some np /\
    addProduct host defaultProducts (PStr name) price (PStr image) st h =
    Ok (if setItem_throws host st1 STORAGE_KEY (JSON_stringify host (ps ++ [np]))
        then (Prim PNull, st1)
        else (Ref n, written host st1 (ps ++ [np])),
        copied h5 (ps ++ [np])).
Proof.
  intros Hname Hprice Himage Hget Hr Hps.
  pose proof (proj1 (RunFacts.records_Forall2 _ _ _) Hps) as Hrec.
  pose proof (Forall2_length _ _ _ Hrec) as Hlen.
  set (np := added host ps name price image).
  set (junk := if 0 <? length ps
               then [CArr (Prim <$> (prod_id <$> ps))] else []).
  exists junk. cbn zeta. set (n := length h2 + length junk).
  set (h4 := h2 ++ junk ++ [CObj np]).
  assert (Hr4 : h4 !! r = Some (CArr elems)) by (by apply RunFacts.lookup_ext).
  assert (Hn4 : h4 !! n = Some (CObj np)).
  { unfold h4, n. rewrite app_assoc, <- length_app. apply RunFacts.lookup_result. }
  assert (Hrn : r <> n).
  { apply lookup_lt_Some in Hr. unfold n. lia. }
  set (h5 := <[r := CArr (elems ++ [Ref n])]> h4).
  assert (Hnp : record_of h5 (Ref n) = Some np).
  { unfold h5. simpl. rewrite list_lookup_insert_ne by done. by rewrite Hn4. }
  assert (Harr : array_records h5 r = Some (ps ++ [np])).
  { unfold array_records, h5.
    rewrite list_lookup_insert_eq by (by eapply lookup_lt_Some).
    apply RunFacts.records_Forall2. apply Forall2_app.
    - eapply Forall2_impl; [exact Hrec|]. intros v p Hv.
      apply (record_of_insert_array h4 r elems); [done|].
      by apply RunFacts.record_of_app.
    - constructor; [exact Hnp|constructor]. }
  split; [exact Harr|]. split; [exact Hnp|].
  unfold addProduct.
  rewrite (not_blank _ Hname), (not_bad_price _ Hprice), (not_blank _ Himage).
  RunFacts.mstep Hget.
  RunFacts.mstep (RunFacts.array_length_ok _ _ _ Hr).
  assert (Hmax : forall k : number -> M (JsVal * storage),
    bind (if 0 <? length elems
          then (let! ids := call_map id_of (Ref r) in
                let! args := array_elems ids in
                ret (Math_max (arg_ToNumber host <$> args)))
          else ret (Fin 0)) k h2 =
    k (if 0 <? length ps
       then Math_max (ToNumber host <$> (prod_id <$> ps)) else Fin 0)
      (h2 ++ junk)).
  { intros k. unfold junk. rewrite Hlen. destruct (0 <? length ps).
    - unfold call_map.
      RunFacts.mstep (RunFacts.as_array_ok _ _ _ Hr).
      RunFacts.mstep (Array_map_ids h2 r elems ps Hr Hps).
      RunFacts.mstep (RunFacts.array_elems_ok _ _ _
                        (RunFacts.lookup_result h2
                           (CArr (Prim <$> (prod_id <$> ps))))).
      rewrite RunFacts.bind_ret. by rewrite <- !list_fmap_compose.
    - by rewrite RunFacts.bind_ret, app_nil_r. }
  rewrite Hmax. unfold call_trim. rewrite !RunFacts.bind_ret.
  fold (max_id host ps). fold (next_id host ps).
  fold (added host ps name price image). fold np.
  RunFacts.mstep (RunFacts.alloc_ok (CObj np) (h2 ++ junk)).
  rewrite <- app_assoc. fold h4. rewrite length_app. fold n.
  assert (Hpush : array_push r (Ref n) h4 = Ok (tt, h5)).
  { unfold array_push. by rewrite Hr4. }
  RunFacts.mstep Hpush.
  RunFacts.mstep (saveProducts_run host st1 h5 r (ps ++ [np]) Harr).
  unfold written. by destruct (setItem_throws _ _ _ _).
Qed.

(** deleteProduct once getProducts has returned the array at [r], of
    the products [ps]. *)
Lemma deleteProduct_from (st st1 : storage) (h h2 : heap) (id : prim)
    (r : loc) (elems : list JsVal) (ps : list Product) :
  valid_id host id ->
  getProducts host defaultProducts st h = Ok ((r, st1), h2) ->
  h2 !! r = Some (CArr elems) -> records h2 elems = Some ps ->
  exists hy,
    let rest := List.filter (fun p => negb (id_is id p)) ps in
    deleteProduct host defaultProducts id st h =
    Ok (if length rest =? length ps then (false, st1)
        else if setItem_throws host st1 STORAGE_KEY (JSON_stringify host rest)
             then (false, st1)
             else (true, written host st1 rest),
        h2 ++ hy).
Proof.
  intros Hid Hget Hr Hps. cbn zeta.
  pose proof (Forall2_length _ _ _ (proj1 (RunFacts.records_Forall2 _ _ _) Hps))
    as Hlen.
  destruct (Array_filter_run h2 id r elems ps Hr Hps) as (kept & Hfil & Hkept).
  pose proof (Forall2_length _ _ _ Hkept) as Hklen.
  unfold deleteProduct. rewrite (not_bad_id _ Hid).
  RunFacts.mstep Hget. RunFacts.mstep Hfil.
  RunFacts.mstep (RunFacts.array_length_ok _ _ _
                    (RunFacts.lookup_result h2 (CArr kept))).
  RunFacts.mstep (RunFacts.array_length_ok _ _ _
                    (RunFacts.lookup_ext _ [CArr kept] _ _ Hr)).
  rewrite Hklen, Hlen.
  destruct (length (List.filter _ ps) =? length ps).
  - by exists [CArr kept].
  - assert (Harr : array_records (h2 ++ [CArr kept]) (length h2) =
                   Some (List.filter (fun p => negb (id_is id p)) ps)).
    { unfold array_records. rewrite RunFacts.lookup_result.
      apply RunFacts.records_Forall2.
      eapply Forall2_impl; [exact Hkept|]. intros v p.
      apply RunFacts.record_of_app. }
    rewrite (saveProducts_run host st1 _ _ _ Harr).
    exists ([CArr kept] ++
            CArr (Ref <$> seq (S (length (h2 ++ [CArr kept])))
                    (length (List.filter (fun p => negb (id_is id p)) ps))) ::
            (CObj <$> List.filter (fun p => negb (id_is id p)) ps)).
    unfold copied, written. rewrite <- app_assoc.
    by destruct (setItem_throws _ _ _ _).
Qed.

(** getProductById once getProducts has returned the array at [r]. *)
Lemma getProductById_from (st st1 : storage) (h h2 : heap) (id : prim)
    (r : loc) (elems : list JsVal) (ps : list Product) :
  valid_id host id ->
  getProducts host defaultProducts st h = Ok ((r, st1), h2) ->
  h2 !! r = Some (CArr elems) -> records h2 elems = Some ps ->
  exists v,
    getProductById host defaultProducts id st h = Ok ((v, st1), h2) /\
    match List.find (id_is id) ps with
    | Some p => record_of h2 v = Some p
    | None => v = Prim PNull
    end.
Proof.
  intros Hid Hget Hr Hps%RunFacts.records_Forall2.
  destruct (find_loop_run h2 id elems ps Hps) as (v & Hfind & Hv).
  unfold getProductById. rewrite (not_bad_id _ Hid).
  exists (if truthy v then v else Prim PNull). split.
  - RunFacts.mstep Hget. unfold Array_find.
    RunFacts.mstep (RunFacts.array_elems_ok _ _ _ Hr).
    by RunFacts.mstep Hfind.
  - destruct (List.find (id_is id) ps) as [p|].
    + pose proof Hv as (l & -> & Hl)%RunFacts.record_of_inv. exact Hv.
    + by subst v.
Qed.

(** clearAllProducts: the key is removed, then the text of the array
    [defaultProducts] is written, unless [setItem] throws. *)
Lemma clearAllProducts_run (st : storage) (h : heap) (ds : list Product) :
  array_records h defaultProducts = Some ds ->
  clearAllProducts host defaultProducts st h =
  Ok ((true,
       if setItem_throws host (delete STORAGE_KEY st) STORAGE_KEY
            (JSON_stringify host ds)
       then delete STORAGE_KEY st
       else written host (delete STORAGE_KEY st) ds),
      copied h ds).
Proof.
  intros Hds. unfold clearAllProducts. apply try_catch_ok. cbn zeta.
  RunFacts.mstep (saveProducts_run host (delete STORAGE_KEY st) h
                    defaultProducts ds Hds).
  unfold written. by destruct (setItem_throws _ _ _ _).
Qed.

End Products.

(** *** An array that holds more than products *)

(** The elements of a parsed array are values of the store; a primitive
    element is found among them. *)
Lemma allocate_items_any (items : list item) :
  forall h : heap,
  exists vs hy,
    allocate_items items h = Ok (vs, h ++ hy) /\
    Forall (valid (h ++ hy)) vs /\
    (forall p, IPrim p ∈ items -> Prim p ∈ vs).
Proof.
  induction items as [|i items IH]; intros h.
  - exists [], []. rewrite app_nil_r. repeat split; [constructor|].
    intros p Hp. by apply elem_of_nil in Hp.
  - simpl allocate_items. destruct i as [p|p]; unfold allocate_item.
    + destruct (IH h) as (vs & hy & Hrun & Hvalid & Hprim).
      exists (Prim p :: vs), hy. rewrite RunFacts.bind_ret.
      RunFacts.mstep Hrun. split; [done|]. split; [by constructor|].
      intros q [[= ->]|Hq]%elem_of_cons; [by left|]. right. by apply Hprim.
    + destruct (IH (h ++ [CObj p])) as (vs & hy & Hrun & Hvalid & Hprim).
      exists (Ref (length h) :: vs), ([CObj p] ++ hy).
      RunFacts.mstep (RunFacts.alloc_ok (CObj p) h). rewrite RunFacts.bind_ret.
      RunFacts.mstep Hrun. rewrite <- app_assoc in *.
      split; [done|]. split.
      * constructor; [|done]. simpl. rewrite !length_app. simpl. lia.
      * intros q [[=]|Hq]%elem_of_cons. right. by apply Hprim.
Qed.

(** [p.toJSON()] fails on what is no product. *)
Lemma call_toJSON_fails (h : heap) (v : JsVal) :
  valid h v -> record_of h v = None -> call_toJSON v h = Err TypeError.
Proof.
  destruct v as [p|l]; simpl; [done|]. intros Hl.
  destruct (lookup_lt_is_Some_2 h l Hl) as [c Hc]. rewrite Hc.
  by destruct c.
Qed.

Lemma map_loop_toJSON_fails (elems : list JsVal) :
  forall (h : heap) (A : loc) (acc : list JsVal),
  h !! A = Some (CArr acc) -> Forall (valid h) elems ->
  Exists (fun v => record_of h v = None) elems ->
  map_loop call_toJSON elems A h = Err TypeError.
Proof.
  induction elems as [|v elems IH]; intros h A acc HA Hv Hex.
  { by apply Exists_nil in Hex. }
  apply Forall_cons in Hv as [Vv Hv]. simpl map_loop.
  destruct (record_of h v) as [p|] eqn:Ep.
  2:{ by rewrite (RunFacts.bind_err _ _ _ _ (call_toJSON_fails h v Vv Ep)). }
  apply Exists_cons in Hex as [Hex|Hex]; [congruence|].
  RunFacts.mstep (call_toJSON_run h h v p (reflexivity _) Ep).
  assert (Hlk : (h ++ [CObj p]) !! A = Some (CArr acc))
    by (by apply RunFacts.lookup_ext).
  unfold array_push at 1, bind at 1. rewrite Hlk. cbn beta iota.
  assert (Hsame : forall w, valid h w ->
            record_of (<[A := CArr (acc ++ [Ref (length h)])]> (h ++ [CObj p])) w =
            record_of h w).
  { intros [|l]; simpl; [done|]. intros Hl.
    destruct (decide (l = A)) as [->|Hl'].
    - rewrite list_lookup_insert_eq by (by eapply lookup_lt_Some). by rewrite HA.
    - rewrite list_lookup_insert_ne by done. by rewrite lookup_app_l. }
  apply (IH _ A (acc ++ [Ref (length h)])).
  - apply list_lookup_insert_eq. by eapply lookup_lt_Some.
  - rewrite Forall_forall in Hv |- *. intros w Hw. specialize (Hv w Hw).
    destruct w as [|l]; [done|]. simpl in *.
    rewrite length_insert, length_app. lia.
  - rewrite Exists_exists in Hex |- *. destruct Hex as (w & Hw & Hnone).
    exists w. split; [done|]. rewrite Hsame; [done|].
    rewrite Forall_forall in Hv. by apply Hv.
Qed.

(** *** Math.max on numbers *)

Lemma num_leb_refl (x : number) : isNaN x = false -> num_leb x x = true.
Proof. destruct x; simpl; try done. intros _. apply Qle_bool_iff, Qle_refl. Qed.

Lemma num_max_ok (x y : number) :
  isNaN x = false -> isNaN y = false ->
  isNaN (num_max x y) = false /\
  num_leb x (num_max x y) = true /\ num_leb y (num_max x y) = true.
Proof.
  intros Hx Hy. unfold num_max. rewrite Hx, Hy. simpl.
  destruct (num_leb x y) eqn:E.
  - repeat split; [done..|by apply num_leb_refl].
  - repeat split; [done|by apply num_leb_refl|by apply SortFacts.num_leb_total].
Qed.

Lemma fold_max_ok (xs : list number) :
  forall acc : number,
  isNaN acc = false -> Forall (fun x => isNaN x = false) xs ->
  isNaN (fold_left num_max xs acc) = false /\
  num_leb acc (fold_left num_max xs acc) = true /\
  Forall (fun x => num_leb x (fold_left num_max xs acc) = true) xs.
Proof.
  induction xs as [|x xs IH]; intros acc Hacc Hxs.
  - simpl. repeat split; [done|by apply num_leb_refl|constructor].
  - apply Forall_cons in Hxs as [Hx Hxs]. simpl.
    destruct (num_max_ok acc x Hacc Hx) as (Hm & Hle1 & Hle2).
    destruct (IH (num_max acc x) Hm Hxs) as (Hn & Hle & Hall).
    repeat split; [done| |].
    + by apply SortFacts.num_leb_trans with (num_max acc x).
    + constructor; [|done]. by apply SortFacts.num_leb_trans with (num_max acc x).
Qed.

Lemma Math_max_ok (xs : list number) :
  Forall (fun x => isNaN x = false) xs ->
  isNaN (Math_max xs) = false /\
  Forall (fun x => num_leb x (Math_max xs) = true) xs.
Proof.
  intros Hxs. destruct (fold_max_ok xs NegInf eq_refl Hxs) as (H1 & _ & H2).
  by split.
Qed.

(** A number below another one is not equal to it. *)
Lemma below_not_equal (x m y : number) :
  num_leb x m = true -> num_ltb m y = true -> num_eqb x y = false.
Proof.
  destruct x as [| |a|], m as [| |b|], y as [| |c|]; simpl; try done.
  intros Hab%Qle_bool_iff Hbc%negb_true_iff.
  destruct (Qeq_bool a c) eqn:E; [|done].
  apply Qeq_bool_iff in E. exfalso.
  assert (Qle_bool c b = true); [|congruence].
  apply Qle_bool_iff. by rewrite <- E.
Qed.

Section Stored.
Variable host : Host.
Variable defaultProducts : loc.

(** saveProducts on an array with an element that is no product. *)
Lemma saveProducts_no_product (st : storage) (h : heap) (a : loc)
    (elems : list JsVal) :
  h !! a = Some (CArr elems) -> Forall (valid h) elems ->
  Exists (fun v => record_of h v = None) elems ->
  saveProducts host (Ref a) st h = Ok ((false, st), h).
Proof.
  intros Ha Hv Hex. unfold saveProducts. rewrite try_catch_caught; [done|].
  unfold call_map. RunFacts.mstep (RunFacts.as_array_ok _ _ _ Ha).
  unfold Array_map. RunFacts.mstep (RunFacts.array_elems_ok _ _ _ Ha).
  RunFacts.mstep (RunFacts.alloc_ok (CArr []) h).
  rewrite ?RunFacts.bind_assoc. apply RunFacts.bind_err.
  apply (map_loop_toJSON_fails elems _ _ []).
  - apply RunFacts.lookup_result.
  - eapply Forall_impl; [exact Hv|]. intros [|l]; simpl; [done|].
    rewrite length_app. lia.
  - rewrite Exists_exists in Hex |- *. destruct Hex as (w & Hw & Hnone).
    exists w. split; [done|]. destruct w as [|l]; [done|]. simpl in *.
    rewrite Forall_forall in Hv. specialize (Hv _ Hw). simpl in Hv.
    by rewrite lookup_app_l.
Qed.

(** getProducts on the text of an array that holds [null]. *)
Lemma getProducts_null_item (st : storage) (h : heap) (text : string)
    (items : list item) :
  st !! STORAGE_KEY = Some text -> String.length text <> 0 ->
  JSON_parse host text = Some (JArray items) -> IPrim PNull ∈ items ->
  getProducts host defaultProducts st h = Ok ((defaultProducts, st), h).
Proof.
  intros Hst Hlen Hparse Hnull. unfold getProducts.
  rewrite try_catch_caught; [done|].
  rewrite Hst. change (default EmptyString (Some text)) with text.
  destruct (String.length text =? 0) eqn:E; [by apply Nat.eqb_eq in E|].
  rewrite Hparse. unfold allocate.
  destruct (allocate_items_any items h) as (vs & hy & Hrun & Hvalid & Hprim).
  RunFacts.mstep Hrun.
  RunFacts.mstep (RunFacts.alloc_ok (CArr vs) (h ++ hy)).
  rewrite RunFacts.bind_ret. unfold call_map.
  pose proof (RunFacts.lookup_result (h ++ hy) (CArr vs)) as Hlk.
  RunFacts.mstep (RunFacts.as_array_ok _ _ _ Hlk).
  unfold Array_map. RunFacts.mstep (RunFacts.array_elems_ok _ _ _ Hlk).
  RunFacts.mstep (RunFacts.alloc_ok (CArr []) ((h ++ hy) ++ [CArr vs])).
  rewrite ?RunFacts.bind_assoc. apply RunFacts.bind_err.
  apply (MergeFacts.map_loop_null vs _ _ []).
  - apply RunFacts.lookup_result.
  - eapply Forall_impl; [exact Hvalid|]. intros [|l]; simpl; [done|].
    rewrite !length_app. lia.
  - apply Exists_exists. exists (Prim PNull). split; [by apply Hprim|by right].
Qed.

Lemma blank_valid (v : prim) : blank host v = false -> valid_text host v.
Proof.
  unfold blank. destruct v as [| | | |s]; simpl; rewrite ?orb_true_r; try done.
  intros [H1 H2]%orb_false_elim. exists s. split; [done|].
  apply negb_false_iff, negb_true_iff, Nat.eqb_neq in H1.
  by apply Nat.eqb_neq in H2.
Qed.

Lemma bad_price_valid (v : prim) :
  bad_price (parseFloat host v) = false -> valid_price host v.
Proof. unfold bad_price. by intros [H1 H2]%orb_false_elim. Qed.

Lemma bad_id_valid (id : prim) : bad_id host id = false -> valid_id host id.
Proof.
  unfold bad_id. intros [H1 H2]%orb_false_elim.
  by apply negb_false_iff in H1.
Qed.

(** addProduct on a storage that holds the catalogue [ps]. *)
Lemma addProduct_stored (st : storage) (h : heap) (ps : list Product)
    (name image : string) (price : prim) :
  holds host st ps ->
  valid_text host (PStr name) -> valid_price host price ->
  valid_text host (PStr image) ->
  exists n h',
    addProduct host defaultProducts (PStr name) price (PStr image) st h =
    Ok (if setItem_throws host st STORAGE_KEY
             (JSON_stringify host (ps ++ [added host ps name price image]))
        then (Prim PNull, st)
        else (Ref n, written host st (ps ++ [added host ps name price image])),
        h') /\
    record_of h' (Ref n) = Some (added host ps name price image) /\
    length h <= n /\
    (forall l c, h !! l = Some c -> h' !! l = Some c).
Proof.
  intros (text & Hst & Hlen & Hparse) Hname Hprice Himage.
  pose proof (getProducts_parsed host defaultProducts st h text ps
                Hst Hlen Hparse) as Hget.
  set (h1 := parsed h ps) in *.
  assert (Hlk : copied h1 ps !! length h1 =
            Some (CArr (Ref <$> seq (S (length h1)) (length ps)))).
  { unfold copied. by rewrite list_lookup_middle. }
  destruct (addProduct_from host defaultProducts st st h (copied h1 ps)
              name image price (length h1) _ ps Hname Hprice Himage Hget Hlk)
    as (junk & Harr & Hnp & Hrun).
  { apply RunFacts.records_Forall2, RunFacts.copied_records. }
  cbn zeta in *. eexists _, _. split; [exact Hrun|]. split; [|split].
  - by apply RunFacts.record_of_app.
  - rewrite copied_length. unfold h1. rewrite parsed_length. lia.
  - intros l c Hl. apply lookup_app_l_Some.
    rewrite list_lookup_insert_ne.
    + apply lookup_app_l_Some. unfold copied, h1, parsed.
      by do 2 apply lookup_app_l_Some.
    + apply lookup_lt_Some in Hl. unfold h1. rewrite parsed_length. lia.
Qed.

(** getProducts on a storage that holds the catalogue [ps]: a new array of
    new products. *)
Lemma getProducts_stored (st : storage) (h : heap) (ps : list Product) :
  holds host st ps ->
  exists r hy,
    getProducts host defaultProducts st h = Ok ((r, st), h ++ hy) /\
    array_records (h ++ hy) r = Some ps /\
    length h <= r /\ fresh_elems h (h ++ hy) r /\
    getProductCount host defaultProducts st h = Ok ((length ps, st), h ++ hy).
Proof.
  intros (text & Hst & Hlen & Hparse).
  pose proof (getProducts_parsed host defaultProducts st h text ps
                Hst Hlen Hparse) as Hget.
  assert (Hshape : copied (parsed h ps) ps =
            h ++ ((CObj <$> ps) ++ [CArr (Ref <$> seq (length h) (length ps))]) ++
                 CArr (Ref <$> seq (S (length (parsed h ps))) (length ps)) ::
                 (CObj <$> ps)).
  { unfold copied, parsed. by rewrite <- !app_assoc. }
  rewrite Hshape in Hget.
  exists (length (parsed h ps)). eexists. split; [exact Hget|].
  rewrite <- Hshape. split; [apply copied_array_records|].
  split; [rewrite parsed_length; lia|]. split.
  - destruct (copied_fresh (parsed h ps) ps) as (elems & He & Hf).
    exists elems. split; [done|]. eapply Forall_impl; [exact Hf|].
    intros [|l]; [done|]. rewrite parsed_length. lia.
  - unfold getProductCount. rewrite Hshape. RunFacts.mstep Hget.
    rewrite <- Hshape.
    assert (Hlk : copied (parsed h ps) ps !! length (parsed h ps) =
              Some (CArr (Ref <$> seq (S (length (parsed h ps))) (length ps)))).
    { unfold copied. by rewrite list_lookup_middle. }
    RunFacts.mstep (RunFacts.array_length_ok _ _ _ Hlk).
    unfold ret. by rewrite length_fmap, length_seq.
Qed.

Lemma filter_all_forallb {A} (f : A -> bool) (l : list A) :
  (length (List.filter f l) =? length l) = forallb f l.
Proof.
  induction l as [|a l IH]; simpl; [done|].
  pose proof (List.filter_length_le f l) as Hle.
  destruct (f a); simpl; [exact IH|]. apply Nat.eqb_neq. lia.
Qed.

End Stored.

Section FirstUse.
Variable host : Host.
Variable defaultProducts : loc.

(** The id after the largest one is the id of no product, when adding 1
    to the largest id gives a larger number. *)
Lemma next_id_is_new (ps : list Product) :
  Forall (fun p => exists x, prod_id p = PNum x /\ isNaN x = false) ps ->
  num_ltb (max_id host ps) (next_id host ps) = true ->
  Forall (fun p => strict_equals (prod_id p) (PNum (next_id host ps)) = false) ps.
Proof.
  intros Hids Hlt. destruct ps as [|p0 ps0]; [constructor|].
  set (ps := p0 :: ps0) in *.
  assert (Hnum : Forall (fun x => isNaN x = false)
                   (ToNumber host <$> (prod_id <$> ps))).
  { rewrite !Forall_fmap. eapply Forall_impl; [exact Hids|].
    intros p (x & Hx & Hn). simpl. by rewrite Hx. }
  destruct (Math_max_ok _ Hnum) as [_ Hle].
  rewrite !Forall_fmap in Hle. rewrite Forall_forall in Hids, Hle |- *.
  intros p Hp. destruct (Hids p Hp) as (x & Hx & _).
  specialize (Hle p Hp). simpl in Hle. rewrite Hx in Hle |- *. simpl in *.
  by apply below_not_equal with (max_id host ps).
Qed.

(** addProduct on a storage without text: the array it extends is
    [defaultProducts] itself. *)
Lemma addProduct_vacant (st : storage) (h : heap) (ds : list Product)
    (name image : string) (price : prim) :
  vacant st -> array_records h defaultProducts = Some ds ->
  valid_text host (PStr name) -> valid_price host price ->
  valid_text host (PStr image) ->
  exists n h',
    addProduct host defaultProducts (PStr name) price (PStr image) st h =
    Ok (let st1 := if setItem_throws host st STORAGE_KEY (JSON_stringify host ds)
                   then st else written host st ds in
        let np := added host ds name price image in
        if setItem_throws host st1 STORAGE_KEY (JSON_stringify host (ds ++ [np]))
        then (Prim PNull, st1)
        else (Ref n, written host st1 (ds ++ [np])),
        h') /\
    array_records h' defaultProducts =
      Some (ds ++ [added host ds name price image]) /\
    record_of h' (Ref n) = Some (added host ds name price image).
Proof.
  intros Hst Hds Hname Hprice Himage.
  pose proof (getProducts_empty host defaultProducts st h ds Hst Hds) as Hget.
  pose proof (RunFacts.array_records_app h
                (CArr (Ref <$> seq (S (length h)) (length ds)) :: (CObj <$> ds))
                defaultProducts ds Hds) as Hds'.
  apply RunFacts.array_records_inv in Hds' as (elems & Hlk & Hrec).
  destruct (addProduct_from host defaultProducts st _ h (copied h ds)
              name image price defaultProducts elems ds Hname Hprice Himage
              Hget Hlk Hrec) as (junk & Harr & Hnp & Hrun).
  cbn zeta in *. eexists _, _. split; [exact Hrun|]. split.
  - by apply RunFacts.array_records_app.
  - by apply RunFacts.record_of_app.
Qed.

End FirstUse.

(** *** updateProduct *)

Lemma first_with_lookup (id : prim) (ps : list Product) :
  forall (k i : nat) (p : Product),
  first_with id ps k = Some (i, p) -> k <= i /\ ps !! (i - k) = Some p.
Proof.
  induction ps as [|q ps IH]; intros k i p; simpl; [done|].
  destruct (id_is id q).
  - intros [= <- <-]. by rewrite Nat.sub_diag.
  - intros H. destruct (IH _ _ _ H) as [Hle Hlk]. split; [lia|].
    replace (i - k) with (S (i - S k)) by lia. done.
Qed.

Lemma findIndex_loop_run (h : heap) (id : prim) (elems : list JsVal)
    (ps : list Product) :
  Forall2 (fun v p => record_of h v = Some p) elems ps ->
  forall k : nat,
  findIndex_loop (has_id id) elems k h = Ok (fst <$> first_with id ps k, h).
Proof.
  induction 1 as [|v p elems ps Hv Hrest IH]; intros k; [done|].
  simpl findIndex_loop.
  RunFacts.mstep (has_id_run h h id v p (reflexivity _) Hv).
  simpl first_with. destruct (id_is id p); [done|]. apply IH.
Qed.

(** The products of the copy can be told apart: writing a property of the
    [i]-th one gives the copy of the list with that product replaced. *)
Lemma copied_lookup (h1 : heap) (ps : list Product) (i : nat) (p : Product) :
  ps !! i = Some p -> copied h1 ps !! (S (length h1) + i) = Some (CObj p).
Proof.
  intros Hp. unfold copied. rewrite lookup_app_r by lia.
  replace (S (length h1) + i - length h1) with (S i) by lia. simpl.
  by rewrite list_lookup_fmap, Hp.
Qed.

Lemma set_prop_copied (h1 : heap) (ps : list Product) (i : nat) (p : Product)
    (prop : string) (v : prim) :
  ps !! i = Some p ->
  set_prop (Ref (S (length h1) + i)) prop v (copied h1 ps) =
  Ok (tt, copied h1 (<[i := set_field p prop v]> ps)).
Proof.
  intros Hp. unfold set_prop. rewrite (copied_lookup h1 ps i p Hp).
  unfold copied. rewrite insert_app_r_alt by lia.
  replace (S (length h1) + i - length h1) with (S i) by lia. simpl.
  by rewrite list_fmap_insert, length_insert.
Qed.

Section Updates.
Variable host : Host.
Variable defaultProducts : loc.

Lemma update_text_copied (h1 : heap) (ps : list Product) (i : nat)
    (p : Product) (prop : string) (v : prim) :
  ps !! i = Some p -> text_or_absent v ->
  update_text host (Ref (S (length h1) + i)) prop v (copied h1 ps) =
  Ok (match step_text host prop v p with
      | Some p' => (true, copied h1 (<[i := p']> ps))
      | None => (false, copied h1 ps)
      end).
Proof.
  intros Hp Hv. destruct v as [| | | |s]; try done; simpl.
  - unfold ret. by rewrite list_insert_id.
  - rewrite RunFacts.bind_ret.
    destruct (String.length (trim host s) =? 0); [done|].
    by RunFacts.mstep (set_prop_copied h1 ps i p prop (PStr (trim host s)) Hp).
Qed.

Lemma update_price_copied (h1 : heap) (ps : list Product) (i : nat)
    (p : Product) (v : prim) :
  ps !! i = Some p ->
  update_price host (Ref (S (length h1) + i)) v (copied h1 ps) =
  Ok (match step_price host v p with
      | Some p' => (true, copied h1 (<[i := p']> ps))
      | None => (false, copied h1 ps)
      end).
Proof.
  intros Hp.
  assert (Hset : forall x,
            (set_prop (Ref (S (length h1) + i)) "price" (PNum x) ;; ret true)%js
              (copied h1 ps) =
            Ok (true, copied h1 (<[i := set_field p "price" (PNum x)]> ps))).
  { intros x. by RunFacts.mstep (set_prop_copied h1 ps i p "price" (PNum x) Hp). }
  destruct v; unfold update_price, step_price; cbv iota zeta;
    try (destruct (bad_price _); [done|apply Hset]).
  unfold ret. by rewrite list_insert_id.
Qed.

(** A name or an image that is neither absent nor a string makes its block
    raise. *)
Lemma update_text_fails (target : JsVal) (prop : string) (v : prim) (h : heap) :
  ~ text_or_absent v -> update_text host target prop v h = Err TypeError.
Proof. by destruct v. Qed.

(** updateProduct on a storage that holds the catalogue [ps]: the run,
    block by block. *)
Lemma updateProduct_run (st : storage) (h : heap) (ps : list Product)
    (id : prim) (u : Updates) :
  holds host st ps -> valid_id host id ->
  text_or_absent (upd_name u) -> text_or_absent (upd_image u) ->
  updateProduct host defaultProducts id u st h =
  match first_with id ps 0 with
  | None => Ok ((Prim PNull, st), copied (parsed h ps) ps)
  | Some (i, p) =>
      match step_text host "name" (upd_name u) p with
      | None => Ok ((Prim PNull, st), copied (parsed h ps) ps)
      | Some p1 =>
          match step_price host (upd_price u) p1 with
          | None => Ok ((Prim PNull, st), copied (parsed h ps) (<[i := p1]> ps))
          | Some p2 =>
              match step_text host "image" (upd_image u) p2 with
              | None =>
                  Ok ((Prim PNull, st), copied (parsed h ps) (<[i := p2]> ps))
              | Some p3 =>
                  Ok (if setItem_throws host st STORAGE_KEY
                           (JSON_stringify host (<[i := p3]> ps))
                      then (Prim PNull, st)
                      else (Ref (S (length (parsed h ps)) + i),
                            written host st (<[i := p3]> ps)),
                      copied (copied (parsed h ps) (<[i := p3]> ps))
                        (<[i := p3]> ps))
              end
          end
      end
  end.
Proof.
  intros (text & Hst & Hlen & Hparse) Hid Hname Himage.
  pose proof (getProducts_parsed host defaultProducts st h text ps
                Hst Hlen Hparse) as Hget.
  set (h1 := parsed h ps) in *.
  assert (Hlk : forall qs, length qs = length ps ->
            copied h1 qs !! length h1 =
            Some (CArr (Ref <$> seq (S (length h1)) (length ps)))).
  { intros qs Hq. unfold copied. by rewrite list_lookup_middle, Hq. }
  unfold updateProduct. rewrite (not_bad_id _ _ Hid).
  RunFacts.mstep Hget. unfold Array_findIndex.
  RunFacts.mstep (RunFacts.array_elems_ok _ _ _ (Hlk ps eq_refl)).
  RunFacts.mstep (findIndex_loop_run (copied h1 ps) id _ ps
                    (RunFacts.copied_records h1 ps) 0).
  destruct (first_with id ps 0) as [[i p]|] eqn:Efirst; [|done].
  change (fst <$> Some (i, p)) with (Some i). cbv iota.
  destruct (first_with_lookup id ps 0 i p Efirst) as [_ Hp].
  rewrite Nat.sub_0_r in Hp.
  assert (Hi : i < length ps) by (by eapply lookup_lt_Some).
  assert (Hget_i : array_get (length h1) i (copied h1 ps) =
                   Ok (Ref (S (length h1) + i), copied h1 ps)).
  { rewrite (RunFacts.array_get_ok _ _ _ i (Hlk ps eq_refl)).
    by rewrite list_lookup_fmap, lookup_seq_lt. }
  RunFacts.mstep Hget_i.
  pose proof (update_text_copied h1 ps i p "name" (upd_name u) Hp Hname) as Hn.
  destruct (step_text host "name" (upd_name u) p) as [p1|];
    RunFacts.mstep Hn; [|done].
  change (negb true) with false. cbv iota.
  assert (Hp1 : <[i := p1]> ps !! i = Some p1) by (by apply list_lookup_insert_eq).
  pose proof (update_price_copied h1 _ i p1 (upd_price u) Hp1) as Hpr.
  destruct (step_price host (upd_price u) p1) as [p2|];
    [rewrite list_insert_insert_eq in Hpr|]; RunFacts.mstep Hpr; [|done].
  change (negb true) with false. cbv iota.
  assert (Hp2 : <[i := p2]> ps !! i = Some p2) by (by apply list_lookup_insert_eq).
  pose proof (update_text_copied h1 _ i p2 "image" (upd_image u) Hp2 Himage)
    as Him.
  destruct (step_text host "image" (upd_image u) p2) as [p3|];
    [rewrite list_insert_insert_eq in Him|]; RunFacts.mstep Him; [|done].
  change (negb true) with false. cbv iota.
  set (qs := <[i := p3]> ps).
  assert (Hqs : length qs = length ps) by apply length_insert.
  RunFacts.mstep (saveProducts_run host st (copied h1 qs) (length h1) qs
                    (copied_array_records h1 qs)).
  destruct (setItem_throws _ _ _ _); cbv beta iota; [done|].
  assert (Hget2 : array_get (length h1) i (copied (copied h1 qs) qs) =
                  Ok (Ref (S (length h1) + i), copied (copied h1 qs) qs)).
  { rewrite (RunFacts.array_get_ok _ _
               (Ref <$> seq (S (length h1)) (length ps)) i).
    - by rewrite list_lookup_fmap, lookup_seq_lt.
    - unfold copied at 1. by apply RunFacts.lookup_ext, Hlk. }
  by RunFacts.mstep Hget2.
Qed.

(** The same, told by its result: the storage is written once, with the
    first product of the id replaced, when the three blocks go through. *)
Lemma updateProduct_stored (st : storage) (h : heap) (ps : list Product)
    (id : prim) (u : Updates) :
  holds host st ps -> valid_id host id ->
  text_or_absent (upd_name u) -> text_or_absent (upd_image u) ->
  exists v hy,
    updateProduct host defaultProducts id u st h =
    Ok (match first_with id ps 0 with
        | None => (Prim PNull, st)
        | Some (i, p) =>
            match updated host u p with
            | None => (Prim PNull, st)
            | Some p' =>
                if setItem_throws host st STORAGE_KEY
                     (JSON_stringify host (<[i := p']> ps))
                then (Prim PNull, st)
                else (v, written host st (<[i := p']> ps))
            end
        end,
        h ++ hy) /\
    (forall i p p', first_with id ps 0 = Some (i, p) ->
       updated host u p = Some p' -> record_of (h ++ hy) v = Some p').
Proof.
  intros Hst Hid Hname Himage.
  rewrite (updateProduct_run st h ps id u Hst Hid Hname Himage).
  assert (Hext : forall qs, exists hy, copied (parsed h ps) qs = h ++ hy).
  { intros qs. unfold copied, parsed. rewrite <- !app_assoc. by eexists. }
  unfold updated.
  destruct (first_with id ps 0) as [[i p]|] eqn:Efirst.
  2:{ destruct (Hext ps) as [hy ->]. exists (Prim PNull), hy. by split. }
  destruct (step_text host "name" (upd_name u) p) as [p1|] eqn:E1.
  2:{ destruct (Hext ps) as [hy ->]. exists (Prim PNull), hy.
      split; [done|]. intros i' p' p'' [= <- <-]. by rewrite E1. }
  destruct (step_price host (upd_price u) p1) as [p2|] eqn:E2.
  2:{ destruct (Hext (<[i := p1]> ps)) as [hy ->]. exists (Prim PNull), hy.
      split; [done|]. intros i' p' p'' [= <- <-]. by rewrite E1, E2. }
  destruct (step_text host "image" (upd_image u) p2) as [p3|] eqn:E3.
  2:{ destruct (Hext (<[i := p2]> ps)) as [hy ->]. exists (Prim PNull), hy.
      split; [done|]. intros i' p' p'' [= <- <-]. by rewrite E1, E2, E3. }
  destruct (first_with_lookup id ps 0 i p Efirst) as [_ Hp].
  rewrite Nat.sub_0_r in Hp.
  assert (Hi : i < length ps) by (by eapply lookup_lt_Some).
  set (qs := <[i := p3]> ps).
  assert (Hext2 : exists hy, copied (copied (parsed h ps) qs) qs = h ++ hy).
  { destruct (Hext qs) as [hy ->]. unfold copied at 1.
    rewrite <- app_assoc. by eexists. }
  destruct Hext2 as [hy Hhy].
  exists (Ref (S (length (parsed h ps)) + i)), hy. rewrite Hhy.
  split; [done|].
  intros i' p' p'' [= <- <-]. rewrite E1, E2, E3. intros [= <-].
  rewrite <- Hhy. apply RunFacts.record_of_app. unfold record_of.
  rewrite (copied_lookup (parsed h ps) qs i p3); [done|].
  by apply list_lookup_insert_eq.
Qed.

(** updateProduct raises when the product is found and the name of the
    update is neither absent nor a string. *)
Lemma updateProduct_raises (st : storage) (h : heap) (ps : list Product)
    (id : prim) (u : Updates) (i : nat) (p : Product) :
  holds host st ps -> valid_id host id ->
  first_with id ps 0 = Some (i, p) -> ~ text_or_absent (upd_name u) ->
  updateProduct host defaultProducts id u st h = Err TypeError.
Proof.
  intros (text & Hst & Hlen & Hparse) Hid Efirst Hname.
  pose proof (getProducts_parsed host defaultProducts st h text ps
                Hst Hlen Hparse) as Hget.
  set (h1 := parsed h ps) in *.
  assert (Hlk : copied h1 ps !! length h1 =
            Some (CArr (Ref <$> seq (S (length h1)) (length ps)))).
  { unfold copied. by rewrite list_lookup_middle. }
  unfold updateProduct. rewrite (not_bad_id _ _ Hid).
  RunFacts.mstep Hget. unfold Array_findIndex.
  RunFacts.mstep (RunFacts.array_elems_ok _ _ _ Hlk).
  RunFacts.mstep (findIndex_loop_run (copied h1 ps) id _ ps
                    (RunFacts.copied_records h1 ps) 0).
  rewrite Efirst. change (fst <$> Some (i, p)) with (Some i). cbv iota.
  RunFacts.mstep (RunFacts.array_get_ok _ _ _ i Hlk).
  rewrite ?RunFacts.bind_assoc. apply RunFacts.bind_err.
  by apply update_text_fails.
Qed.

End Updates.

(** *** deleteProduct and getProductById on a stored catalogue *)

Section Lookup.
Variable host : Host.
Variable defaultProducts : loc.

Lemma deleteProduct_stored (st : storage) (h : heap) (ps : list Product)
    (id : prim) :
  holds host st ps -> valid_id host id ->
  exists hy,
    deleteProduct host defaultProducts id st h =
    Ok (if forallb (fun p => negb (id_is id p)) ps then (false, st)
        else if setItem_throws host st STORAGE_KEY
                  (JSON_stringify host
                     (List.filter (fun p => negb (id_is id p)) ps))
             then (false, st)
             else (true,
                   written host st (List.filter (fun p => negb (id_is id p)) ps)),
        h ++ hy).
Proof.
  intros (text & Hst & Hlen & Hparse) Hid.
  pose proof (getProducts_parsed host defaultProducts st h text ps
                Hst Hlen Hparse) as Hget.
  assert (Hlk : copied (parsed h ps) ps !! length (parsed h ps) =
            Some (CArr (Ref <$> seq (S (length (parsed h ps))) (length ps)))).
  { unfold copied. by rewrite list_lookup_middle. }
  destruct (deleteProduct_from host defaultProducts st st h
              (copied (parsed h ps) ps) id (length (parsed h ps)) _ ps Hid Hget
              Hlk) as (hy & Hrun).
  { apply RunFacts.records_Forall2, RunFacts.copied_records. }
  cbn zeta in Hrun. rewrite filter_all_forallb in Hrun.
  rewrite Hrun. unfold copied, parsed. rewrite <- !app_assoc. by eexists.
Qed.

Lemma getProductById_stored (st : storage) (h : heap) (ps : list Product)
    (id : prim) :
  holds host st ps -> valid_id host id ->
  exists v hy,
    getProductById host defaultProducts id st h = Ok ((v, st), h ++ hy) /\
    match List.find (id_is id) ps with
    | Some p => record_of (h ++ hy) v = Some p
    | None => v = Prim PNull
    end.
Proof.
  intros (text & Hst & Hlen & Hparse) Hid.
  pose proof (getProducts_parsed host defaultProducts st h text ps
                Hst Hlen Hparse) as Hget.
  assert (Hlk : copied (parsed h ps) ps !! length (parsed h ps) =
            Some (CArr (Ref <$> seq (S (length (parsed h ps))) (length ps)))).
  { unfold copied. by rewrite list_lookup_middle. }
  destruct (getProductById_from host defaultProducts st st h
              (copied (parsed h ps) ps) id (length (parsed h ps)) _ ps Hid Hget
              Hlk) as (v & Hrun & Hv).
  { apply RunFacts.records_Forall2, RunFacts.copied_records. }
  assert (Hshape : copied (parsed h ps) ps =
            h ++ ((CObj <$> ps) ++ [CArr (Ref <$> seq (length h) (length ps))]) ++
                 CArr (Ref <$> seq (S (length (parsed h ps))) (length ps)) ::
                 (CObj <$> ps)).
  { unfold copied, parsed. by rewrite <- !app_assoc. }
  rewrite Hshape in Hrun, Hv. by eexists _, _.
Qed.

(** The storage after a text that reads back was written holds the
    catalogue. *)
Lemma written_holds (st : storage) (ps : list Product) :
  reads_back host ps -> holds host (written host st ps) ps.
Proof.
  intros [Hlen Hback]. exists (JSON_stringify host ps).
  split; [apply lookup_insert_eq|done].
Qed.

End Lookup.

Lemma find_none_filter (id : prim) (ps : list Product) :
  List.find (id_is id) (List.filter (fun p => negb (id_is id p)) ps) = None.
Proof.
  induction ps as [|p ps IH]; simpl; [done|].
  destruct (id_is id p) eqn:E; simpl; [done|]. by rewrite E.
Qed.

Lemma find_last (id : prim) (ps : list Product) (p : Product) :
  Forall (fun q => id_is id q = false) ps -> id_is id p = true ->
  List.find (id_is id) (ps ++ [p]) = Some p.
Proof.
  induction 1 as [|q ps Hq Hps IH]; simpl; intros Hp.
  - by rewrite Hp.
  - rewrite Hq. by apply IH.
Qed.

Lemma exists_not_forallb (id : prim) (ps : list Product) :
  Exists (fun p => id_is id p = true) ps ->
  forallb (fun p => negb (id_is id p)) ps = false.
Proof.
  induction 1 as [p ps Hp|p ps Hex IH]; simpl.
  - by rewrite Hp.
  - rewrite IH. apply andb_false_r.
Qed.

End BackendFacts.

Import Backend Catalogue.

(** X9. getProducts reads the stored catalogue: when the storage holds,
    under the key, the text of an array of objects, getProducts returns a
    new array of new products, one for each object and in their order, with
    the id, name, price and image of the object; the storage and every cell
    of the store stay as they were; getProductCount returns the number of
    the objects. *)
Theorem getProducts_reads_the_storage (host : Host) (defaultProducts : loc)
    (st : storage) (h : heap) (ps : list Product) :
  holds host st ps ->
  exists r hy,
    getProducts host defaultProducts st h = Ok ((r, st), h ++ hy) /\
    array_records (h ++ hy) r = Some ps /\
    length h <= r /\ fresh_elems h (h ++ hy) r /\
    getProductCount host defaultProducts st h = Ok ((length ps, st), h ++ hy).
Proof. apply BackendFacts.getProducts_stored. Qed.

Lemma getProducts_reads_the_storage_witness :
  exists r hy,
    getProducts ExampleBrowser.browser 2 Shops.small Examples.tie_store =
      Ok ((r, Shops.small), Examples.tie_store ++ hy) /\
    array_records (Examples.tie_store ++ hy) r = Some Examples.tie_input /\
    length Examples.tie_store <= r /\
    fresh_elems Examples.tie_store (Examples.tie_store ++ hy) r /\
    getProductCount ExampleBrowser.browser 2 Shops.small Examples.tie_store =
      Ok ((length Examples.tie_input, Shops.small), Examples.tie_store ++ hy).
Proof.
  apply (getProducts_reads_the_storage ExampleBrowser.browser 2 Shops.small
           Examples.tie_store Examples.tie_input).
  exists (ExampleBrowser.JSON_stringify Examples.tie_input).
  split; [reflexivity|]. split; [done|]. vm_compute. reflexivity.
Defined.

(** X10. First use: when the storage holds no text under the key (none, or
    the empty text), getProducts returns the array [defaultProducts]
    itself, not a copy, and writes the text of its products under the key,
    unless [setItem] throws: then the storage stays as it was. *)
Theorem getProducts_initialises_the_storage (host : Host)
    (defaultProducts : loc) (st : storage) (h : heap) (ds : list Product) :
  vacant st -> array_records h defaultProducts = Some ds ->
  exists hy,
    getProducts host defaultProducts st h =
    Ok ((defaultProducts,
         if setItem_throws host st STORAGE_KEY (JSON_stringify host ds)
         then st else written host st ds),
        h ++ hy).
Proof.
  intros Hst Hds.
  rewrite (BackendFacts.getProducts_empty host defaultProducts st h ds Hst Hds).
  unfold copied, written. by eexists.
Qed.

Lemma getProducts_initialises_the_storage_witness :
  exists hy,
    getProducts ExampleBrowser.browser 2 Shops.unused Examples.tie_store =
    Ok ((2,
         if setItem_throws ExampleBrowser.browser Shops.unused STORAGE_KEY
              (JSON_stringify ExampleBrowser.browser Examples.tie_input)
         then Shops.unused
         else written ExampleBrowser.browser Shops.unused Examples.tie_input),
        Examples.tie_store ++ hy).
Proof.
  apply (getProducts_initialises_the_storage ExampleBrowser.browser 2
           Shops.unused Examples.tie_store Examples.tie_input).
  - reflexivity.
  - reflexivity.
Defined.

(** X11. A text that is no catalogue: when the text under the key is no
    JSON, or the JSON of a value that is no array, or of an array that
    holds [null], getProducts returns the array [defaultProducts] and
    leaves the storage and the store as they were. *)
Theorem getProducts_falls_back_on_bad_text (host : Host)
    (defaultProducts : loc) (st : storage) (h : heap) (text : string) :
  st !! STORAGE_KEY = Some text -> String.length text <> 0 ->
  (JSON_parse host text = None \/
   (exists v, JSON_parse host text = Some (JValue v)) \/
   (exists items, JSON_parse host text = Some (JArray items) /\
                  IPrim PNull ∈ items)) ->
  getProducts host defaultProducts st h = Ok ((defaultProducts, st), h).
Proof.
  intros Hst Hlen [Hnone|[[v Hv]|(items & Hitems & Hnull)]].
  - by apply (BackendFacts.getProducts_no_json host defaultProducts st h text).
  - by apply (BackendFacts.getProducts_no_array host defaultProducts st h text v).
  - by apply (BackendFacts.getProducts_null_item host defaultProducts st h text
                items).
Qed.

Lemma getProducts_falls_back_on_bad_text_witness :
  getProducts ExampleBrowser.browser 2 Shops.holed Examples.tie_store =
  Ok ((2, Shops.holed), Examples.tie_store).
Proof.
  apply (getProducts_falls_back_on_bad_text ExampleBrowser.browser 2
           Shops.holed Examples.tie_store "[{}, null]").
  - reflexivity.
  - discriminate.
  - right. right.
    exists [IObj (new_Product PUndefined PUndefined PUndefined PUndefined);
            IPrim PNull].
    split; [reflexivity|]. apply elem_of_cons. right. apply elem_of_cons. by left.
Defined.

(** X12. saveProducts writes the catalogue: on an array of products,
    saveProducts writes the text of their records under the key and returns
    true, every other key keeping its text; when [setItem] throws it
    returns false and the storage stays as it was.  The store is only
    extended. *)
Theorem saveProducts_writes_the_catalogue (host : Host) (st : storage)
    (h : heap) (a : loc) (ps : list Product) :
  array_records h a = Some ps ->
  exists hy,
    saveProducts host (Ref a) st h =
    Ok (if setItem_throws host st STORAGE_KEY (JSON_stringify host ps)
        then (false, st)
        else (true, written host st ps),
        h ++ hy) /\
    written host st ps !! STORAGE_KEY = Some (JSON_stringify host ps) /\
    forall k, k <> STORAGE_KEY -> written host st ps !! k = st !! k.
Proof.
  intros Ha. rewrite (BackendFacts.saveProducts_run host st h a ps Ha).
  unfold copied, written. eexists. split; [done|]. split.
  - apply lookup_insert_eq.
  - intros k Hk. by apply lookup_insert_ne.
Qed.

Lemma saveProducts_writes_the_catalogue_witness :
  exists hy,
    saveProducts ExampleBrowser.browser (Ref 2) Shops.small Examples.tie_store =
    Ok (if setItem_throws ExampleBrowser.browser Shops.small STORAGE_KEY
             (JSON_stringify ExampleBrowser.browser Examples.tie_input)
        then (false, Shops.small)
        else (true, written ExampleBrowser.browser Shops.small Examples.tie_input),
        Examples.tie_store ++ hy) /\
    written ExampleBrowser.browser Shops.small Examples.tie_input !! STORAGE_KEY =
      Some (JSON_stringify ExampleBrowser.browser Examples.tie_input) /\
    forall k, k <> STORAGE_KEY ->
      written ExampleBrowser.browser Shops.small Examples.tie_input !! k =
      Shops.small !! k.
Proof.
  apply (saveProducts_writes_the_catalogue ExampleBrowser.browser Shops.small
           Examples.tie_store 2 Examples.tie_input).
  reflexivity.
Defined.

(** X13. saveProducts raises nothing: given what is no array (a primitive
    value or an object), or an array of values of the store one of which is
    no product, saveProducts returns false and leaves the storage and the
    store as they were. *)
Theorem saveProducts_refuses_what_is_no_catalogue (host : Host)
    (st : storage) (h : heap) (v : JsVal) :
  not_an_array h v \/
  (exists a elems, v = Ref a /\ h !! a = Some (CArr elems) /\
     Forall (valid h) elems /\ Exists (fun x => record_of h x = None) elems) ->
  saveProducts host v st h = Ok ((false, st), h).
Proof.
  intros [Hv|(a & elems & -> & Ha & Hvalid & Hex)].
  - by apply BackendFacts.saveProducts_not_array.
  - by apply (BackendFacts.saveProducts_no_product host st h a elems).
Qed.

Lemma saveProducts_refuses_what_is_no_catalogue_witness :
  saveProducts ExampleBrowser.browser (Ref 1) Shops.small Cases.null_store =
  Ok ((false, Shops.small), Cases.null_store).
Proof.
  apply (saveProducts_refuses_what_is_no_catalogue ExampleBrowser.browser
           Shops.small Cases.null_store (Ref 1)).
  right. exists 1, [Ref 0; Prim PNull].
  split; [reflexivity|]. split; [reflexivity|]. split; [repeat constructor|].
  apply Exists_cons_tl, Exists_cons_hd. reflexivity.
Defined.

(** X14. What was saved is read back: when saveProducts has written the
    text of an array of products, and that text reads back as the objects
    it was printed from, getProducts returns a new array of products with
    the same records in the same order. *)
Theorem saved_catalogue_is_read_back (host : Host) (defaultProducts : loc)
    (st : storage) (h : heap) (a : loc) (ps : list Product) :
  array_records h a = Some ps -> reads_back host ps ->
  setItem_throws host st STORAGE_KEY (JSON_stringify host ps) = false ->
  exists hy r hz,
    saveProducts host (Ref a) st h = Ok ((true, written host st ps), h ++ hy) /\
    getProducts host defaultProducts (written host st ps) (h ++ hy) =
      Ok ((r, written host st ps), (h ++ hy) ++ hz) /\
    array_records ((h ++ hy) ++ hz) r = Some ps /\
    length (h ++ hy) <= r.
Proof.
  intros Ha [Hlen Hback] Hset.
  pose proof (BackendFacts.saveProducts_run host st h a ps Ha) as Hsave.
  rewrite Hset in Hsave. unfold copied in Hsave.
  eexists. 
  destruct (BackendFacts.getProducts_stored host defaultProducts
              (written host st ps)
              (h ++ CArr (Ref <$> seq (S (length h)) (length ps)) :: (CObj <$> ps))
              ps) as (r & hz & Hget & Hrec & Hr & _).
  { exists (JSON_stringify host ps). split; [apply lookup_insert_eq|done]. }
  exists r, hz. by repeat split.
Qed.

Lemma saved_catalogue_is_read_back_witness :
  exists hy r hz,
    saveProducts ExampleBrowser.browser (Ref 2) Shops.unused Examples.tie_store =
      Ok ((true, written ExampleBrowser.browser Shops.unused Examples.tie_input),
          Examples.tie_store ++ hy) /\
    getProducts ExampleBrowser.browser 2
      (written ExampleBrowser.browser Shops.unused Examples.tie_input)
      (Examples.tie_store ++ hy) =
      Ok ((r, written ExampleBrowser.browser Shops.unused Examples.tie_input),
          (Examples.tie_store ++ hy) ++ hz) /\
    array_records ((Examples.tie_store ++ hy) ++ hz) r = Some Examples.tie_input /\
    length (Examples.tie_store ++ hy) <= r.
Proof.
  apply (saved_catalogue_is_read_back ExampleBrowser.browser 2 Shops.unused
           Examples.tie_store 2 Examples.tie_input).
  - reflexivity.
  - split; [done|]. vm_compute. reflexivity.
  - vm_compute. reflexivity.
Defined.

(** X15. addProduct checks its input first: when the name or the image is
    not a string with something left once trimmed, or the price does not
    parse to a number that is not negative, addProduct returns [null];
    it does not read the storage, and it leaves the storage and the store
    as they were. *)
Theorem addProduct_rejects_invalid_input (host : Host) (defaultProducts : loc)
    (name price image : prim) (st : storage) (h : heap) :
  ~ valid_text host name \/ ~ valid_price host price \/
  ~ valid_text host image ->
  addProduct host defaultProducts name price image st h =
  Ok ((Prim PNull, st), h).
Proof.
  intros Hbad. unfold addProduct.
  destruct (blank host name) eqn:E1; [done|].
  destruct (bad_price (parseFloat host price)) eqn:E2; [done|].
  destruct (blank host image) eqn:E3; [done|].
  exfalso. destruct Hbad as [H|[H|H]]; apply H.
  - by apply BackendFacts.blank_valid.
  - by apply BackendFacts.bad_price_valid.
  - by apply BackendFacts.blank_valid.
Qed.

Lemma addProduct_rejects_invalid_input_witness :
  addProduct ExampleBrowser.browser 2 (PStr "  Basmati Rice ") (PStr "-1")
    (PStr "assets/rice.jpg") Shops.small Examples.tie_store =
  Ok ((Prim PNull, Shops.small), Examples.tie_store).
Proof.
  apply (addProduct_rejects_invalid_input ExampleBrowser.browser 2
           (PStr "  Basmati Rice ") (PStr "-1") (PStr "assets/rice.jpg")
           Shops.small Examples.tie_store).
  right. left. intros [_ H]. vm_compute in H. discriminate H.
Defined.

(** X16. addProduct appends to the stored catalogue: when the storage
    holds the text of the products [ps] and the input is valid, addProduct
    makes a new product of the id [maxId + 1], the trimmed name, the parsed
    price and the trimmed image, writes the text of [ps] followed by it
    under the key, and returns it; when [setItem] throws it returns [null]
    and the storage stays as it was.  Every cell of the store it was
    called in stays as it was. *)
Theorem addProduct_appends_to_the_catalogue (host : Host)
    (defaultProducts : loc) (st : storage) (h : heap) (ps : list Product)
    (name image : string) (price : prim) :
  holds host st ps ->
  valid_text host (PStr name) -> valid_price host price ->
  valid_text host (PStr image) ->
  exists n h',
    addProduct host defaultProducts (PStr name) price (PStr image) st h =
    Ok (if setItem_throws host st STORAGE_KEY
             (JSON_stringify host (ps ++ [added host ps name price image]))
        then (Prim PNull, st)
        else (Ref n, written host st (ps ++ [added host ps name price image])),
        h') /\
    record_of h' (Ref n) = Some (added host ps name price image) /\
    length h <= n /\
    (forall l c, h !! l = Some c -> h' !! l = Some c).
Proof. apply BackendFacts.addProduct_stored. Qed.

Lemma addProduct_appends_to_the_catalogue_witness :
  exists n h',
    addProduct ExampleBrowser.browser 2 (PStr "  Basmati Rice ")
      (PStr "120.50") (PStr "assets/rice.jpg") Shops.small Examples.tie_store =
    Ok (if setItem_throws ExampleBrowser.browser Shops.small STORAGE_KEY
             (JSON_stringify ExampleBrowser.browser
                (Examples.tie_input ++
                 [added ExampleBrowser.browser Examples.tie_input
                    "  Basmati Rice " (PStr "120.50") "assets/rice.jpg"]))
        then (Prim PNull, Shops.small)
        else (Ref n,
              written ExampleBrowser.browser Shops.small
                (Examples.tie_input ++
                 [added ExampleBrowser.browser Examples.tie_input
                    "  Basmati Rice " (PStr "120.50") "assets/rice.jpg"])),
        h') /\
    record_of h' (Ref n) =
      Some (added ExampleBrowser.browser Examples.tie_input
              "  Basmati Rice " (PStr "120.50") "assets/rice.jpg") /\
    length Examples.tie_store <= n /\
    (forall l c, Examples.tie_store !! l = Some c -> h' !! l = Some c).
Proof.
  apply (addProduct_appends_to_the_catalogue ExampleBrowser.browser 2
           Shops.small Examples.tie_store Examples.tie_input).
  - exists (ExampleBrowser.JSON_stringify Examples.tie_input).
    split; [reflexivity|]. split; [done|]. vm_compute. reflexivity.
  - eexists. split; [reflexivity|]. split; [done|]. by vm_compute.
  - split; vm_compute; reflexivity.
  - eexists. split; [reflexivity|]. split; [done|]. by vm_compute.
Defined.

(** X17. The id of an added product is new: when the ids of the stored
    products are numbers and adding 1 to the largest of them gives a larger
    number, the product addProduct returns has an id that no stored product
    has; when addProduct returns no product it returns [null] and the
    storage stays as it was. *)
Theorem addProduct_gives_a_new_id (host : Host) (defaultProducts : loc)
    (st : storage) (h : heap) (ps : list Product) (name image : string)
    (price : prim) :
  holds host st ps ->
  valid_text host (PStr name) -> valid_price host price ->
  valid_text host (PStr image) ->
  Forall (fun p => exists x, prod_id p = PNum x /\ isNaN x = false) ps ->
  num_ltb (max_id host ps) (next_id host ps) = true ->
  match addProduct host defaultProducts (PStr name) price (PStr image) st h with
  | Ok ((Ref n, _), h') =>
      exists np, record_of h' (Ref n) = Some np /\
        Forall (fun p => strict_equals (prod_id p) (prod_id np) = false) ps
  | Ok ((Prim v, st'), _) => v = PNull /\ st' = st
  | Err _ => False
  end.
Proof.
  intros Hst Hname Hprice Himage Hids Hlt.
  destruct (BackendFacts.addProduct_stored host defaultProducts st h ps name
              image price Hst Hname Hprice Himage) as (n & h' & -> & Hnp & _).
  destruct (setItem_throws _ _ _ _); [done|].
  exists (added host ps name price image). split; [done|].
  by apply BackendFacts.next_id_is_new.
Qed.

Lemma addProduct_gives_a_new_id_witness :
  match addProduct ExampleBrowser.browser 2 (PStr "  Basmati Rice ")
          (PStr "120.50") (PStr "assets/rice.jpg") Shops.small
          Examples.tie_store with
  | Ok ((Ref n, _), h') =>
      exists np, record_of h' (Ref n) = Some np /\
        Forall (fun p => strict_equals (prod_id p) (prod_id np) = false)
          Examples.tie_input
  | Ok ((Prim v, st'), _) => v = PNull /\ st' = Shops.small
  | Err _ => False
  end.
Proof.
  apply (addProduct_gives_a_new_id ExampleBrowser.browser 2 Shops.small
           Examples.tie_store Examples.tie_input).
  - exists (ExampleBrowser.JSON_stringify Examples.tie_input).
    split; [reflexivity|]. split; [done|]. vm_compute. reflexivity.
  - eexists. split; [reflexivity|]. split; [done|]. by vm_compute.
  - split; vm_compute; reflexivity.
  - eexists. split; [reflexivity|]. split; [done|]. by vm_compute.
  - repeat constructor; by eexists.
  - vm_compute. reflexivity.
Defined.

(** X18. deleteProduct removes the products of one id: when the storage
    holds the text of the products [ps] and the id is valid, deleteProduct
    returns false and leaves the storage as it was if no product has that
    id; otherwise it writes the text of the products of the other ids, in
    their order, and returns true, unless [setItem] throws. *)
Theorem deleteProduct_removes_the_id (host : Host) (defaultProducts : loc)
    (st : storage) (h : heap) (ps : list Product) (id : prim) :
  holds host st ps -> valid_id host id ->
  exists hy,
    deleteProduct host defaultProducts id st h =
    Ok (if forallb (fun p => negb (id_is id p)) ps then (false, st)
        else if setItem_throws host st STORAGE_KEY
                  (JSON_stringify host
                     (List.filter (fun p => negb (id_is id p)) ps))
             then (false, st)
             else (true,
                   written host st (List.filter (fun p => negb (id_is id p)) ps)),
        h ++ hy).
Proof. apply BackendFacts.deleteProduct_stored. Qed.

Lemma deleteProduct_removes_the_id_witness :
  exists hy,
    deleteProduct ExampleBrowser.browser 2 (ExampleHost.int 1) Shops.small
      Examples.tie_store =
    Ok (if forallb (fun p => negb (id_is (ExampleHost.int 1) p))
             Examples.tie_input
        then (false, Shops.small)
        else if setItem_throws ExampleBrowser.browser Shops.small STORAGE_KEY
                  (JSON_stringify ExampleBrowser.browser
                     (List.filter
                        (fun p => negb (id_is (ExampleHost.int 1) p))
                        Examples.tie_input))
             then (false, Shops.small)
             else (true,
                   written ExampleBrowser.browser Shops.small
                     (List.filter
                        (fun p => negb (id_is (ExampleHost.int 1) p))
                        Examples.tie_input)),
        Examples.tie_store ++ hy).
Proof.
  apply (deleteProduct_removes_the_id ExampleBrowser.browser 2 Shops.small
           Examples.tie_store Examples.tie_input (ExampleHost.int 1)).
  - exists (ExampleBrowser.JSON_stringify Examples.tie_input).
    split; [reflexivity|]. split; [done|]. vm_compute. reflexivity.
  - split; reflexivity.
Defined.

(** X19. getProductById finds the first product of an id: when the storage
    holds the text of the products [ps] and the id is valid, getProductById
    returns a new product with the record of the first product of [ps]
    that has the id, or [null] when there is none; the storage stays as it
    was. *)
Theorem getProductById_finds_the_first (host : Host) (defaultProducts : loc)
    (st : storage) (h : heap) (ps : list Product) (id : prim) :
  holds host st ps -> valid_id host id ->
  exists v hy,
    getProductById host defaultProducts id st h = Ok ((v, st), h ++ hy) /\
    match List.find (id_is id) ps with
    | Some p => record_of (h ++ hy) v = Some p
    | None => v = Prim PNull
    end.
Proof. apply BackendFacts.getProductById_stored. Qed.

Lemma getProductById_finds_the_first_witness :
  exists v hy,
    getProductById ExampleBrowser.browser 2 (ExampleHost.int 2) Shops.small
      Examples.tie_store = Ok ((v, Shops.small), Examples.tie_store ++ hy) /\
    match List.find (id_is (ExampleHost.int 2)) Examples.tie_input with
    | Some p => record_of (Examples.tie_store ++ hy) v = Some p
    | None => v = Prim PNull
    end.
Proof.
  apply (getProductById_finds_the_first ExampleBrowser.browser 2 Shops.small
           Examples.tie_store Examples.tie_input (ExampleHost.int 2)).
  - exists (ExampleBrowser.JSON_stringify Examples.tie_input).
    split; [reflexivity|]. split; [done|]. vm_compute. reflexivity.
  - split; reflexivity.
Defined.

(** X20. An id that is no id: when the id is false as a condition
    ([undefined], [null], 0, the empty string) or NaN when converted to a
    number, deleteProduct returns false and updateProduct and
    getProductById return [null]; they do not read the storage, and they
    leave the storage and the store as they were. *)
Theorem invalid_id_changes_nothing (host : Host) (defaultProducts : loc)
    (id : prim) (updates : Updates) (st : storage) (h : heap) :
  ~ valid_id host id ->
  deleteProduct host defaultProducts id st h = Ok ((false, st), h) /\
  updateProduct host defaultProducts id updates st h = Ok ((Prim PNull, st), h) /\
  getProductById host defaultProducts id st h = Ok ((Prim PNull, st), h).
Proof.
  intros Hbad. unfold deleteProduct, updateProduct, getProductById.
  destruct (bad_id host id) eqn:E; [done|].
  exfalso. by apply Hbad, BackendFacts.bad_id_valid.
Qed.

Lemma invalid_id_changes_nothing_witness :
  deleteProduct ExampleBrowser.browser 2 (PStr "first") Shops.small
    Examples.tie_store = Ok ((false, Shops.small), Examples.tie_store) /\
  updateProduct ExampleBrowser.browser 2 (PStr "first") Shops.edit
    Shops.small Examples.tie_store =
    Ok ((Prim PNull, Shops.small), Examples.tie_store) /\
  getProductById ExampleBrowser.browser 2 (PStr "first") Shops.small
    Examples.tie_store = Ok ((Prim PNull, Shops.small), Examples.tie_store).
Proof.
  apply (invalid_id_changes_nothing ExampleBrowser.browser 2 (PStr "first")
           Shops.edit).
  intros [_ H]. vm_compute in H. discriminate H.
Defined.

(** X21. The first product added grows [defaultProducts]: when the storage
    holds no text under the key and the input is valid, the array addProduct
    pushes the new product on is [defaultProducts] itself; so that
    clearAllProducts, which resets the storage to [defaultProducts], writes
    the text of the default products followed by the added one. *)
Theorem addProduct_on_first_use_grows_defaultProducts (host : Host)
    (defaultProducts : loc) (st : storage) (h : heap) (ds : list Product)
    (name image : string) (price : prim) :
  vacant st -> array_records h defaultProducts = Some ds ->
  valid_text host (PStr name) -> valid_price host price ->
  valid_text host (PStr image) ->
  (forall st', setItem_throws host st' STORAGE_KEY (JSON_stringify host ds) = false) ->
  (forall st', setItem_throws host st' STORAGE_KEY
     (JSON_stringify host (ds ++ [added host ds name price image])) = false) ->
  exists n st1 h1 st2 h2,
    addProduct host defaultProducts (PStr name) price (PStr image) st h =
      Ok ((Ref n, st1), h1) /\
    record_of h1 (Ref n) = Some (added host ds name price image) /\
    array_records h1 defaultProducts =
      Some (ds ++ [added host ds name price image]) /\
    clearAllProducts host defaultProducts st1 h1 = Ok ((true, st2), h2) /\
    st2 !! STORAGE_KEY =
      Some (JSON_stringify host (ds ++ [added host ds name price image])).
Proof.
  intros Hst Hds Hname Hprice Himage Hset1 Hset2.
  destruct (BackendFacts.addProduct_vacant host defaultProducts st h ds name
              image price Hst Hds Hname Hprice Himage)
    as (n & h1 & Hrun & Harr & Hnp).
  cbn zeta in Hrun. rewrite Hset1, Hset2 in Hrun.
  pose proof (BackendFacts.clearAllProducts_run host defaultProducts
                (written host (written host st ds)
                   (ds ++ [added host ds name price image]))
                h1 _ Harr) as Hclear.
  rewrite Hset2 in Hclear.
  eexists n, _, h1, _, _. split; [exact Hrun|]. split; [done|].
  split; [done|]. split; [exact Hclear|]. apply lookup_insert_eq.
Qed.

Lemma addProduct_on_first_use_grows_defaultProducts_witness :
  exists n st1 h1 st2 h2,
    addProduct ExampleBrowser.browser 2 (PStr "  Basmati Rice ")
      (PStr "120.50") (PStr "assets/rice.jpg") Shops.unused
      Examples.tie_store = Ok ((Ref n, st1), h1) /\
    record_of h1 (Ref n) =
      Some (added ExampleBrowser.browser Examples.tie_input
              "  Basmati Rice " (PStr "120.50") "assets/rice.jpg") /\
    array_records h1 2 =
      Some (Examples.tie_input ++
            [added ExampleBrowser.browser Examples.tie_input
               "  Basmati Rice " (PStr "120.50") "assets/rice.jpg"]) /\
    clearAllProducts ExampleBrowser.browser 2 st1 h1 = Ok ((true, st2), h2) /\
    st2 !! STORAGE_KEY =
      Some (JSON_stringify ExampleBrowser.browser
              (Examples.tie_input ++
               [added ExampleBrowser.browser Examples.tie_input
                  "  Basmati Rice " (PStr "120.50") "assets/rice.jpg"])).
Proof.
  apply (addProduct_on_first_use_grows_defaultProducts ExampleBrowser.browser 2
           Shops.unused Examples.tie_store Examples.tie_input).
  - reflexivity.
  - reflexivity.
  - eexists. split; [reflexivity|]. split; [done|]. by vm_compute.
  - split; vm_compute; reflexivity.
  - eexists. split; [reflexivity|]. split; [done|]. by vm_compute.
  - intros st'. vm_compute. reflexivity.
  - intros st'. vm_compute. reflexivity.
Defined.



(** X23. What the page shows after a click on a sort button: when the
    storage holds the text of products whose selected key values are
    well-formed, the array sortByPrice() and sortByName() of the user page
    hand to displayProducts holds the stored products in key order; the
    storage and every cell of the store stay as they were. *)
Theorem shown_products_are_sorted (host : Host)
    (localeCompare : string -> prim -> Z) (defaultProducts : loc) (k : Key)
    (fuel : nat) (st : storage) (h : heap) (ps : list Product) :
  holds host st ps ->
  Forall (key_ok (parseFloat host) k) ps ->
  comparator_total localeCompare k ->
  length ps + 2 <= fuel ->
  exists r h' out,
    sorted_products host defaultProducts localeCompare k fuel st h =
      Ok ((r, st), h') /\
    array_records h' r = Some out /\ out ≡ₚ ps /\
    Sorted (Sorter.ordered (key_le (parseFloat host) localeCompare k)) out /\
    (forall l c, h !! l = Some c -> h' !! l = Some c).
Proof.
  intros Hst Hok Htot Hf.
  destruct (BackendFacts.getProducts_stored host defaultProducts st h ps Hst)
    as (r0 & hy & Hget & Hrec & _).
  destruct (SortFacts.sort_run (parseFloat host) localeCompare k fuel (h ++ hy)
              r0 ps Hrec) as (r & hz & [Hsort Hout] & _); [|done|].
  { eapply Forall_impl; [exact Hok|]. apply SortFacts.key_ok_comparable. }
  exists r, ((h ++ hy) ++ hz),
    (Sorter.sort (key_le (parseFloat host) localeCompare k) ps).
  split; [|split; [done|split; [apply SorterFacts.sort_perm|split]]].
  - unfold sorted_products. RunFacts.mstep Hget. by RunFacts.mstep Hsort.
  - apply (SorterFacts.sort_Sorted _ (key_ok (parseFloat host) k)); [|done].
    intros p q. by apply SortFacts.key_le_total.
  - intros l c Hl. by do 2 apply lookup_app_l_Some.
Qed.

Lemma shown_products_are_sorted_witness :
  exists r h' out,
    sorted_products ExampleBrowser.browser 2 ExampleHost.localeCompare name 4
      Shops.small Examples.tie_store = Ok ((r, Shops.small), h') /\
    array_records h' r = Some out /\ out ≡ₚ Examples.tie_input /\
    Sorted (Sorter.ordered
              (key_le (parseFloat ExampleBrowser.browser)
                 ExampleHost.localeCompare name)) out /\
    (forall l c, Examples.tie_store !! l = Some c -> h' !! l = Some c).
Proof.
  apply (shown_products_are_sorted ExampleBrowser.browser
           ExampleHost.localeCompare 2 name 4 Shops.small Examples.tie_store
           Examples.tie_input).
  - exists (ExampleBrowser.JSON_stringify Examples.tie_input).
    split; [reflexivity|]. split; [done|]. vm_compute. reflexivity.
  - repeat constructor.
  - exact HostFacts.host_lc_total.
  - simpl. lia.
Defined.

(** X24. updateProduct updates the first product of an id: when the
    storage holds the text of the products [ps], the id is valid, and the
    name and the image of the update are each absent or a string,
    updateProduct returns [null] and leaves the storage as it was if no
    product has the id, or if a given name or image is empty once trimmed,
    or if a given price does not parse to a number that is not negative;
    otherwise it writes the text of [ps] with the first product of that id
    replaced by the product with the given properties set (the strings
    trimmed, the price parsed), and returns that product, unless [setItem]
    throws.  Every cell of the store it was called in stays as it was. *)
Theorem updateProduct_updates_the_first (host : Host) (defaultProducts : loc)
    (st : storage) (h : heap) (ps : list Product) (id : prim) (u : Updates) :
  holds host st ps -> valid_id host id ->
  text_or_absent (upd_name u) -> text_or_absent (upd_image u) ->
  exists v hy,
    updateProduct host defaultProducts id u st h =
    Ok (match first_with id ps 0 with
        | None => (Prim PNull, st)
        | Some (i, p) =>
            match updated host u p with
            | None => (Prim PNull, st)
            | Some p' =>
                if setItem_throws host st STORAGE_KEY
                     (JSON_stringify host (<[i := p']> ps))
                then (Prim PNull, st)
                else (v, written host st (<[i := p']> ps))
            end
        end,
        h ++ hy) /\
    (forall i p p', first_with id ps 0 = Some (i, p) ->
       updated host u p = Some p' -> record_of (h ++ hy) v = Some p').
Proof. apply BackendFacts.updateProduct_stored. Qed.

Lemma updateProduct_updates_the_first_witness :
  exists v hy,
    updateProduct ExampleBrowser.browser 2 (ExampleHost.int 2) Shops.edit
      Shops.small Examples.tie_store =
    Ok (match first_with (ExampleHost.int 2) Examples.tie_input 0 with
        | None => (Prim PNull, Shops.small)
        | Some (i, p) =>
            match updated ExampleBrowser.browser Shops.edit p with
            | None => (Prim PNull, Shops.small)
            | Some p' =>
                if setItem_throws ExampleBrowser.browser Shops.small STORAGE_KEY
                     (JSON_stringify ExampleBrowser.browser
                        (<[i := p']> Examples.tie_input))
                then (Prim PNull, Shops.small)
                else (v, written ExampleBrowser.browser Shops.small
                           (<[i := p']> Examples.tie_input))
            end
        end,
        Examples.tie_store ++ hy) /\
    (forall i p p',
       first_with (ExampleHost.int 2) Examples.tie_input 0 = Some (i, p) ->
       updated ExampleBrowser.browser Shops.edit p = Some p' ->
       record_of (Examples.tie_store ++ hy) v = Some p').
Proof.
  apply (updateProduct_updates_the_first ExampleBrowser.browser 2 Shops.small
           Examples.tie_store Examples.tie_input (ExampleHost.int 2) Shops.edit).
  - exists (ExampleBrowser.JSON_stringify Examples.tie_input).
    split; [reflexivity|]. split; [done|]. vm_compute. reflexivity.
  - split; reflexivity.
  - exact I.
  - exact I.
Defined.

(** X25. A name that is neither absent nor a string: when the storage
    holds the text of the products [ps], one of which has the id, and the
    name of the update is [null], a number or a boolean, updateProduct
    raises a TypeError, which nothing in it catches. *)
Theorem updateProduct_raises_on_a_name_that_is_no_string (host : Host)
    (defaultProducts : loc) (st : storage) (h : heap) (ps : list Product)
    (id : prim) (u : Updates) :
  holds host st ps -> valid_id host id ->
  Exists (fun p => id_is id p = true) ps ->
  ~ text_or_absent (upd_name u) ->
  updateProduct host defaultProducts id u st h = Err TypeError.
Proof.
  intros Hst Hid Hex Hname.
  assert (Hfirst : forall k, exists i p, first_with id ps k = Some (i, p)).
  { clear -Hex. induction Hex as [p ps Hp|p ps Hex IH]; intros k; simpl.
    - rewrite Hp. by eexists _, _.
    - destruct (id_is id p); [by eexists _, _|]. apply IH. }
  destruct (Hfirst 0) as (i & p & Hip).
  by apply (BackendFacts.updateProduct_raises host defaultProducts st h ps id u
              i p).
Qed.

Lemma updateProduct_raises_on_a_name_that_is_no_string_witness :
  updateProduct ExampleBrowser.browser 2 (ExampleHost.int 2) Shops.bad_edit
    Shops.small Examples.tie_store = Err TypeError.
Proof.
  apply (updateProduct_raises_on_a_name_that_is_no_string
           ExampleBrowser.browser 2 Shops.small Examples.tie_store
           Examples.tie_input (ExampleHost.int 2) Shops.bad_edit).
  - exists (ExampleBrowser.JSON_stringify Examples.tie_input).
    split; [reflexivity|]. split; [done|]. vm_compute. reflexivity.
  - split; reflexivity.
  - apply Exists_cons_tl, Exists_cons_hd. reflexivity.
  - intros H. exact H.
Defined.

(** X26. A deleted product is not found any more: when the storage holds
    the text of the products [ps], one of which has the given valid id,
    [setItem] does not throw, and the text of the remaining products reads
    back as these products, deleteProduct returns true and a following
    getProductById of the same id returns [null]. *)
Theorem deleted_product_is_not_found (host : Host) (defaultProducts : loc)
    (st : storage) (h : heap) (ps : list Product) (id : prim) :
  holds host st ps -> valid_id host id ->
  Exists (fun p => id_is id p = true) ps ->
  reads_back host (List.filter (fun p => negb (id_is id p)) ps) ->
  setItem_throws host st STORAGE_KEY
    (JSON_stringify host (List.filter (fun p => negb (id_is id p)) ps)) = false ->
  exists st1 h1 h2,
    deleteProduct host defaultProducts id st h = Ok ((true, st1), h1) /\
    getProductById host defaultProducts id st1 h1 = Ok ((Prim PNull, st1), h2).
Proof.
  intros Hst Hid Hex Hback Hset.
  destruct (BackendFacts.deleteProduct_stored host defaultProducts st h ps id
              Hst Hid) as (hy & Hdel).
  rewrite (BackendFacts.exists_not_forallb id ps Hex), Hset in Hdel.
  destruct (BackendFacts.getProductById_stored host defaultProducts
              (written host st (List.filter (fun p => negb (id_is id p)) ps))
              (h ++ hy) _ id (BackendFacts.written_holds host st _ Hback) Hid)
    as (v & hz & Hget & Hv).
  rewrite BackendFacts.find_none_filter in Hv. subst v.
  by eexists _, _, _.
Qed.

Lemma deleted_product_is_not_found_witness :
  exists st1 h1 h2,
    deleteProduct ExampleBrowser.browser 2 (ExampleHost.int 1) Shops.small
      Examples.tie_store = Ok ((true, st1), h1) /\
    getProductById ExampleBrowser.browser 2 (ExampleHost.int 1) st1 h1 =
      Ok ((Prim PNull, st1), h2).
Proof.
  apply (deleted_product_is_not_found ExampleBrowser.browser 2 Shops.small
           Examples.tie_store Examples.tie_input (ExampleHost.int 1)).
  - exists (ExampleBrowser.JSON_stringify Examples.tie_input).
    split; [reflexivity|]. split; [done|]. vm_compute. reflexivity.
  - split; reflexivity.
  - apply Exists_cons_hd. reflexivity.
  - split; [done|]. vm_compute. reflexivity.
  - vm_compute. reflexivity.
Defined.

(** X27. An added product is found by its id: when the storage holds the
    text of the products [ps], whose ids are numbers, the input is valid,
    adding 1 to the largest id gives a larger number, which is a valid id,
    [setItem] does not throw and the text written reads back as the
    products it was printed from, addProduct returns the new product and a
    following getProductById of its id returns a product with the same
    record. *)
Theorem added_product_is_found (host : Host) (defaultProducts : loc)
    (st : storage) (h : heap) (ps : list Product) (name image : string)
    (price : prim) :
  holds host st ps ->
  valid_text host (PStr name) -> valid_price host price ->
  valid_text host (PStr image) ->
  Forall (fun p => exists x, prod_id p = PNum x /\ isNaN x = false) ps ->
  num_ltb (max_id host ps) (next_id host ps) = true ->
  valid_id host (PNum (next_id host ps)) ->
  reads_back host (ps ++ [added host ps name price image]) ->
  setItem_throws host st STORAGE_KEY
    (JSON_stringify host (ps ++ [added host ps name price image])) = false ->
  exists n st1 h1 v h2,
    addProduct host defaultProducts (PStr name) price (PStr image) st h =
      Ok ((Ref n, st1), h1) /\
    record_of h1 (Ref n) = Some (added host ps name price image) /\
    getProductById host defaultProducts (PNum (next_id host ps)) st1 h1 =
      Ok ((v, st1), h2) /\
    record_of h2 v = Some (added host ps name price image).
Proof.
  intros Hst Hname Hprice Himage Hids Hlt Hnew Hback Hset.
  destruct (BackendFacts.addProduct_stored host defaultProducts st h ps name
              image price Hst Hname Hprice Himage)
    as (n & h1 & Hadd & Hnp & _).
  rewrite Hset in Hadd.
  destruct (BackendFacts.getProductById_stored host defaultProducts
              (written host st (ps ++ [added host ps name price image])) h1 _
              (PNum (next_id host ps))
              (BackendFacts.written_holds host st _ Hback) Hnew)
    as (v & hz & Hget & Hv).
  rewrite (BackendFacts.find_last (PNum (next_id host ps)) ps
             (added host ps name price image)) in Hv.
  - by eexists n, _, h1, v, _.
  - by apply BackendFacts.next_id_is_new.
  - unfold id_is. simpl. destruct Hnew as [_ Hn]. simpl in Hn.
    destruct (next_id host ps); simpl; try done. apply Qeq_bool_refl.
Qed.

Lemma added_product_is_found_witness :
  exists n st1 h1 v h2,
    addProduct ExampleBrowser.browser 2 (PStr "  Basmati Rice ")
      (PStr "120.50") (PStr "assets/rice.jpg") Shops.small Examples.tie_store =
      Ok ((Ref n, st1), h1) /\
    record_of h1 (Ref n) =
      Some (added ExampleBrowser.browser Examples.tie_input
              "  Basmati Rice " (PStr "120.50") "assets/rice.jpg") /\
    getProductById ExampleBrowser.browser 2
      (PNum (next_id ExampleBrowser.browser Examples.tie_input)) st1 h1 =
      Ok ((v, st1), h2) /\
    record_of h2 v =
      Some (added ExampleBrowser.browser Examples.tie_input
              "  Basmati Rice " (PStr "120.50") "assets/rice.jpg").
Proof.
  apply (added_product_is_found ExampleBrowser.browser 2 Shops.small
           Examples.tie_store Examples.tie_input).
  - exists (ExampleBrowser.JSON_stringify Examples.tie_input).
    split; [reflexivity|]. split; [done|]. vm_compute. reflexivity.
  - eexists. split; [reflexivity|]. split; [done|]. by vm_compute.
  - split; vm_compute; reflexivity.
  - eexists. split; [reflexivity|]. split; [done|]. by vm_compute.
  - repeat constructor; by eexists.
  - vm_compute. reflexivity.
  - split; vm_compute; reflexivity.
  - split; [done|]. vm_compute. reflexivity.
  - vm_compute. reflexivity.
Defined.
